(** * Git Center object engine: a shallow embedding of [Git.js] and the
    publish path of [Repository.js], with the properties of the
    specification stated and settled over it.

    The second half covers further parts of the code: the rest of the
    engine ([readBranchCommit], [parseCommit], the static [init]), the
    Mercurial side ([Hg], [HgFileName]), the message channel
    ([ZeroFrame]), the cache and the event emitter of [Cache.js], and
    [formatDate].

    Conventions of the embedding.
    - A JavaScript string is the list of its UTF-16 code units ([list N]).
    - A [Uint8Array] is a list of bytes ([list N], every element below 256).
    - A JavaScript array whose elements need not be numbers (the content
      of a cached object, the data handed to [writeFile]) is a list of
      [jsval]: a number, [NaN], or a tree-item object.
    - The remote file store behind [ZeroPage] is a finite map from paths to
      file contents plus a directory-listing table.
      A write is taken to be accepted, so every statement about a
      write is over a store that accepts it, and a read returns the
      string last written at the path; a path never written has no file.
      What a directory lists after a write is not modelled.
    - A time is an integer of milliseconds; the difference and the
      quotients of [formatDate] are those of doubles.
    - [String.prototype.localeCompare], the host's collation, is a
      parameter of the functions that sort.
    - Functions that may loop take a [fuel] argument; running out of fuel
      is the outcome [Diverge] ([Loop] for a call that changes the state,
      [None] for the tree parser), which stands for a call that never
      settles. *)

From Stdlib Require Import ZArith NArith List Lia Ascii String Bool.
From Stdlib Require Import Sorting.Sorted Sorting.Permutation.
From Stdlib Require Import DecimalString HexadecimalString.
From stdpp Require Import gmap list.

Import ListNotations.
Local Open Scope N_scope.
Local Open Scope list_scope.

(** ** JavaScript strings *)

Abbreviation jsstring := (list N) (only parsing).

(** String literals of the source, as code-unit lists. *)
Definition js (s : string) : jsstring :=
  List.map N_of_ascii (list_ascii_of_string s).

(** [WhiteSpace] and [LineTerminator] code units, the set stripped by
    [String.prototype.trim] and matched by the regular-expression class
    [\s]. *)
Definition isWhiteSpace (c : N) : bool :=
  (9 <=? c) && (c <=? 13) || (c =? 32) || (c =? 160) || (c =? 5760)
  || (8192 <=? c) && (c <=? 8202) || (c =? 8232) || (c =? 8233)
  || (c =? 8239) || (c =? 8287) || (c =? 12288) || (c =? 65279).

Fixpoint trimStart (s : jsstring) : jsstring :=
  match s with
  | c :: s' => if isWhiteSpace c then trimStart s' else s
  | [] => []
  end.

Definition trimEnd (s : jsstring) : jsstring := rev (trimStart (rev s)).

Definition trim (s : jsstring) : jsstring := trimEnd (trimStart s).

Fixpoint startsWith (prefix s : jsstring) : bool :=
  match prefix, s with
  | [], _ => true
  | p :: prefix', c :: s' => (p =? c) && startsWith prefix' s'
  | _ :: _, [] => false
  end.

(** [s.substr(n)] for a non-negative [n]. *)
Definition substr (n : nat) (s : jsstring) : jsstring := skipn n s.

(** [s.split(sep)] for a one-character separator: always at least one
    piece. *)
Fixpoint split (sep : N) (s : jsstring) : list jsstring :=
  match s with
  | [] => [[]]
  | c :: s' =>
      if c =? sep then [] :: split sep s'
      else match split sep s' with
           | piece :: pieces => (c :: piece) :: pieces
           | [] => [[c]]
           end
  end.

(** [array.join(sep)] on strings. *)
Fixpoint join (sep : jsstring) (parts : list jsstring) : jsstring :=
  match parts with
  | [] => []
  | [part] => part
  | part :: parts' => part ++ sep ++ join sep parts'
  end.

Definition jsstring_eqb (a b : jsstring) : bool := bool_decide (a = b).

(** [refs.includes(ref)] on an array of strings. *)
Definition includes (x : jsstring) (l : list jsstring) : bool :=
  existsb (jsstring_eqb x) l.

(** [/^[a-f0-9]{40}$/.test(str)] *)
Definition isHexChar (c : N) : bool :=
  (48 <=? c) && (c <=? 57) || (97 <=? c) && (c <=? 102).

Definition isSha (str : jsstring) : bool :=
  (length str =? 40)%nat && forallb isHexChar str.

(** ** JavaScript values held in arrays *)

Record item := mkItem {
  item_type : jsstring;
  item_name : jsstring;
  item_id : jsstring
}.

Inductive jsval :=
| VNum (z : Z)
| VNaN
| VObj (it : item).

(** [ToUint16] and [ToUint8] of a value: [NaN] and objects convert to 0,
    integers wrap. *)
Definition toUint16 (v : jsval) : N :=
  match v with
  | VNum z => Z.to_N (z mod 65536)
  | VNaN | VObj _ => 0
  end.

Definition toUint8 (v : jsval) : N :=
  match v with
  | VNum z => Z.to_N (z mod 256)
  | VNaN | VObj _ => 0
  end.

Definition ofBytes (bs : list N) : list jsval :=
  List.map (fun b => VNum (Z.of_N b)) bs.

(** [arrayToString(array)], array branch: one code unit per element
    through [String.fromCharCode]. *)
Definition arrayToString (array : list jsval) : jsstring :=
  List.map toUint16 array.

(** [stringToArray(string)] *)
Definition stringToArray (s : jsstring) : list jsval :=
  List.map (fun c => VNum (Z.of_N c)) s.

(** ** The remote store and the engine state *)

Record ZeroPage := mkZeroPage {
  files : gmap (list N) (list N);
  dirs : gmap (list N) (list (list N))
}.

(** The content of an object: the array read from the store (or the item
    array [parseTree] put in its place), or the record that [parseCommit]
    or [parseTag] built from the content [src] it was given.  No property
    below reads a field of such a record, so it is kept symbolic. *)
Inductive content :=
| Arr (l : list jsval)
| CommitRec (src : content)
| TagRec (src : content).

Record object := mkObject {
  obj_type : jsstring;
  obj_content : content;
  obj_id : jsstring
}.

Record Git := mkGit {
  root : jsstring;
  zeroPage : ZeroPage;
  packedIndex : list (list N);
  objectCache : gmap (list N) object
}.

Inductive error :=
| FailedToReadFile (path : jsstring)
| FailedToReadObject (id : jsstring) (cause : error)
| PackedNotImplemented
| NotATree (tree : jsstring)
| NoObjectNamed (tree name : jsstring)
| UnknownRef (ref : jsstring)
| CouldNotFindBranch (branch : jsstring)
| NoHeadRef.

(** Outcome of a call that only reads the engine state. *)
Inductive res (A : Type) :=
| Ok (a : A)
| Err (e : error)
| Diverge.
Arguments Ok {A} a.
Arguments Err {A} e.
Arguments Diverge {A}.

(** Outcome of a call that may change the engine state: the state is kept
    on a throw, since what was cached or written before it stays. *)
Inductive outcome (A : Type) :=
| Ret (a : A) (g : Git)
| Throw (e : error) (g : Git)
| Loop.
Arguments Ret {A} a g.
Arguments Throw {A} e g.
Arguments Loop {A}.

Definition M (A : Type) := Git -> outcome A.

Definition ret {A} (a : A) : M A := fun g => Ret a g.
Definition throw {A} (e : error) : M A := fun g => Throw e g.
Definition bind {A B} (m : M A) (k : A -> M B) : M B :=
  fun g => match m g with
           | Ret a g' => k a g'
           | Throw e g' => Throw e g'
           | Loop => Loop
           end.
Definition lift {A} (f : Git -> res A) : M A :=
  fun g => match f g with
           | Ok a => Ret a g
           | Err e => Throw e g
           | Diverge => Loop
           end.

(** What a call returned, and the state it left. *)
Definition resultOf {A} (o : outcome A) : res A :=
  match o with
  | Ret a _ => Ok a
  | Throw e _ => Err e
  | Loop => Diverge
  end.

Definition stateAfter {A} (g : Git) (o : outcome A) : Git :=
  match o with
  | Ret _ g' => g'
  | Throw _ g' => g'
  | Loop => g
  end.

Notation "'let*' x ':=' m 'in' k" := (bind m (fun x => k))
  (at level 10, x name, m at level 200, k at level 200).

(** *** File access *)

Definition fullPath (g : Git) (path : jsstring) : jsstring :=
  root g ++ js "/" ++ path.

(** [ZeroPage.readFile]: the stored string, or a failure when the path has
    no file. *)
Definition zeroPage_readFile (z : ZeroPage) (path : jsstring) : option jsstring :=
  files z !! path.

(** [ZeroPage.writeFile], over a store that accepts the write: the store
    keeps the string it is given.  A write that the host refuses (the
    call then rethrows the host's error) and the change that a write
    makes to the listing of a directory are outside this model; no
    statement below speaks of either. *)
Definition zeroPage_writeFile (z : ZeroPage) (path content : jsstring) : ZeroPage :=
  mkZeroPage (<[path := content]> (files z)) (dirs z).

(** [ZeroPage.listDirectory]: a failure or an empty answer is the empty
    list. *)
Definition zeroPage_listDirectory (z : ZeroPage) (path : jsstring) : list jsstring :=
  default [] (dirs z !! path).

(** [Git.readFile]: each code unit of the stored string goes through
    [Uint8Array], that is modulo 256. *)
Definition readFile (g : Git) (path : jsstring) : res (list N) :=
  match zeroPage_readFile (zeroPage g) (fullPath g path) with
  | Some content => Ok (List.map (fun c => c mod 256) content)
  | None => Err (FailedToReadFile path)
  end.

(** [Git.writeFile] *)
Definition writeFile (path : jsstring) (content : list jsval) : M unit :=
  fun g =>
    let contentString := List.map toUint16 content in
    Ret tt (mkGit (root g)
                  (zeroPage_writeFile (zeroPage g) (fullPath g path) contentString)
                  (packedIndex g) (objectCache g)).

(** ** Ref management *)

(** [Git.getRef].  The recursive call is returned without [await], so its
    rejection is not caught by the enclosing [try]: the error names the ref
    whose file was missing. *)
Fixpoint getRef (fuel : nat) (g : Git) (ref : jsstring) : res jsstring :=
  match fuel with
  | O => Diverge
  | S fuel' =>
      match readFile g ref with
      | Ok content =>
          let refContent := trim (arrayToString (ofBytes content)) in
          if startsWith (js "ref:") refContent
          then getRef fuel' g (trim (substr 4 refContent))
          else Ok refContent
      | _ => Err (UnknownRef ref)
      end
  end.

(** [Git.setRef] *)
Definition setRef (ref commit : jsstring) : M unit :=
  writeFile ref (stringToArray commit).

(** [Git.getHead]: [replace(/^ref:\s*refs\/heads\//, '')] then [trim]. *)
Definition stripHeadPrefix (s : jsstring) : jsstring :=
  if startsWith (js "ref:") s then
    let rest := trimStart (substr 4 s) in
    if startsWith (js "refs/heads/") rest then substr 11 rest else s
  else s.

Definition getHead (g : Git) : res jsstring :=
  match readFile g (js "HEAD") with
  | Ok head => Ok (trim (stripHeadPrefix (arrayToString (ofBytes head))))
  | _ => Err NoHeadRef
  end.

(** [Git.getBranchCommit] *)
Fixpoint getBranchCommit (fuel : nat) (g : Git) (branch : jsstring) : res jsstring :=
  if isSha branch then Ok branch
  else
    match fuel with
    | O => Diverge
    | S fuel' =>
        match branch with
        | [] =>
            match getHead g with
            | Ok head => getBranchCommit fuel' g head
            | Err e => Err e
            | Diverge => Diverge
            end
        | _ =>
            match getRef fuel' g (js "refs/heads/" ++ branch) with
            | Ok v => Ok v
            | Diverge => Diverge
            | Err _ =>
                match getRef fuel' g (js "refs/tags/" ++ branch) with
                | Ok v => Ok v
                | Diverge => Diverge
                | Err _ => Err (CouldNotFindBranch branch)
                end
            end
        end
    end.

(** [Git.getRefList] *)
Definition packedRefOfLine (line : jsstring) : option jsstring :=
  match trim line, startsWith (js "#") line with
  | _ :: _, false =>
      match split 32 line with
      | _ :: (c :: ref) :: _ => Some (c :: ref)
      | _ => None
      end
  | _, _ => None
  end.

Fixpoint addPackedRefs (lines : list jsstring) (refs : list jsstring) : list jsstring :=
  match lines with
  | [] => refs
  | line :: lines' =>
      match packedRefOfLine line with
      | Some ref =>
          if includes ref refs then addPackedRefs lines' refs
          else addPackedRefs lines' (refs ++ [ref])
      | None => addPackedRefs lines' refs
      end
  end.

Definition getRefList (g : Git) : list jsstring :=
  let refsDir := zeroPage_listDirectory (zeroPage g) (root g ++ js "/refs") in
  let refs := List.map (fun ref => js "refs/" ++ ref) refsDir in
  match readFile g (js "packed-refs") with
  | Ok packedRefs => addPackedRefs (split 10 (arrayToString (ofBytes packedRefs))) refs
  | _ => refs
  end.

(** ** Arrays: [indexOf] and [slice] *)

Definition isNumber (x : Z) (v : jsval) : bool :=
  match v with
  | VNum z => (z =? x)%Z
  | _ => false
  end.

Fixpoint indexOfFrom (x : Z) (l : list jsval) (i : Z) : Z :=
  match l with
  | [] => (-1)%Z
  | v :: l' => if isNumber x v then i else indexOfFrom x l' (i + 1)%Z
  end.

(** [array.indexOf(x, from)] for a number [x] (strict equality). *)
Definition indexOf (x : Z) (l : list jsval) (from : Z) : Z :=
  let len := Z.of_nat (length l) in
  let k := if (from <? 0)%Z then Z.max (len + from) 0 else from in
  indexOfFrom x (skipn (Z.to_nat k) l) k.

Definition relativeIndex (len i : Z) : Z :=
  if (i <? 0)%Z then Z.max (len + i) 0 else Z.min i len.

(** [array.slice(start, end)], negative indices counting from the end. *)
Definition slice {A} (l : list A) (start stop : Z) : list A :=
  let len := Z.of_nat (length l) in
  let k := relativeIndex len start in
  let final := relativeIndex len stop in
  firstn (Z.to_nat (final - k)) (skipn (Z.to_nat k) l).

(** [array.slice(start)] *)
Definition sliceFrom {A} (l : list A) (start : Z) : list A :=
  slice l start (Z.of_nat (length l)).

(** ** UTF-8, as [TextEncoder] and [TextDecoder] implement it *)

Definition isHighSurrogate (c : N) : bool := (55296 <=? c) && (c <=? 56319).
Definition isLowSurrogate (c : N) : bool := (56320 <=? c) && (c <=? 57343).

Definition utf8_of_scalar (cp : N) : list N :=
  if cp <? 128 then [cp]
  else if cp <? 2048 then [192 + cp / 64; 128 + cp mod 64]
  else if cp <? 65536 then
    [224 + cp / 4096; 128 + (cp / 64) mod 64; 128 + cp mod 64]
  else
    [240 + cp / 262144; 128 + (cp / 4096) mod 64;
     128 + (cp / 64) mod 64; 128 + cp mod 64].

(** [encodeUTF8(str)]: a surrogate pair is one scalar value, a lone
    surrogate is replaced by U+FFFD. *)
Fixpoint encodeUTF8 (str : jsstring) : list N :=
  match str with
  | [] => []
  | c :: rest =>
      if isHighSurrogate c then
        match rest with
        | d :: rest' =>
            if isLowSurrogate d
            then utf8_of_scalar (65536 + (c - 55296) * 1024 + (d - 56320))
                 ++ encodeUTF8 rest'
            else utf8_of_scalar 65533 ++ encodeUTF8 rest
        | [] => utf8_of_scalar 65533
        end
      else if isLowSurrogate c then utf8_of_scalar 65533 ++ encodeUTF8 rest
      else utf8_of_scalar c ++ encodeUTF8 rest
  end.

Definition utf16_of_scalar (cp : N) : list N :=
  if cp <? 65536 then [cp]
  else [55296 + (cp - 65536) / 1024; 56320 + (cp - 65536) mod 1024].

(** State of the decoder inside a multi-byte sequence: the code point so
    far, the continuation bytes still needed, and the bounds the next byte
    has to meet. *)
Record utf8_state := mkUtf8State {
  u_code : N;
  u_needed : nat;
  u_lower : N;
  u_upper : N
}.

(** A byte met outside a sequence: output, or the state it opens. *)
Definition utf8_lead (b : N) : list N + utf8_state :=
  if b <=? 127 then inl [b]
  else if (194 <=? b) && (b <=? 223) then inr (mkUtf8State (b - 192) 1 128 191)
  else if (224 <=? b) && (b <=? 239) then
    inr (mkUtf8State (b - 224) 2 (if b =? 224 then 160 else 128)
                     (if b =? 237 then 159 else 191))
  else if (240 <=? b) && (b <=? 244) then
    inr (mkUtf8State (b - 240) 3 (if b =? 240 then 144 else 128)
                     (if b =? 244 then 143 else 191))
  else inl [65533].

Fixpoint utf8_decode (st : option utf8_state) (bytes : list N) : list N :=
  match bytes with
  | [] => match st with Some _ => [65533] | None => [] end
  | b :: rest =>
      match st with
      | None =>
          match utf8_lead b with
          | inl out => out ++ utf8_decode None rest
          | inr st' => utf8_decode (Some st') rest
          end
      | Some s =>
          if (u_lower s <=? b) && (b <=? u_upper s) then
            let cp := u_code s * 64 + (b - 128) in
            match u_needed s with
            | S (S n) => utf8_decode (Some (mkUtf8State cp (S n) 128 191)) rest
            | _ => utf16_of_scalar cp ++ utf8_decode None rest
            end
          else
            65533 ::
            match utf8_lead b with
            | inl out => out ++ utf8_decode None rest
            | inr st' => utf8_decode (Some st') rest
            end
      end
  end.

(** [new TextDecoder('utf-8').decode(bytes)]: errors are replaced, never
    thrown, and a leading byte-order mark is dropped. *)
Definition textDecode (bytes : list N) : jsstring :=
  match utf8_decode None bytes with
  | 65279 :: s => s
  | s => s
  end.

(** [decodeUTF8(bytes)]: the argument goes through [new Uint8Array]; the
    decoder does not throw, so the fallback is never taken. *)
Definition decodeUTF8 (bytes : list jsval) : jsstring :=
  textDecode (List.map toUint8 bytes).

(** ** Object ids in binary *)

Definition hexDigitValue (c : N) : option N :=
  if (48 <=? c) && (c <=? 57) then Some (c - 48)
  else if (97 <=? c) && (c <=? 102) then Some (c - 87)
  else if (65 <=? c) && (c <=? 70) then Some (c - 55)
  else None.

(** [n.toString(16)] for a natural number. *)
Definition natToString16 (n : N) : jsstring :=
  js (HexadecimalString.NilZero.string_of_uint (N.to_hex_uint n)).

(** [v.toString(16)] *)
Definition toString16 (v : jsval) : jsstring :=
  match v with
  | VNum z => if (z <? 0)%Z then js "-" ++ natToString16 (Z.to_N (- z))
              else natToString16 (Z.to_N z)
  | VNaN => js "NaN"
  | VObj _ => js "[object Object]"
  end.

(** [s.padStart(2, '0')] *)
Definition padStart2 (s : jsstring) : jsstring :=
  match s with
  | [] => [48; 48]
  | [c] => [48; c]
  | _ => s
  end.

(** [unpackSha(buffer)] *)
Definition unpackSha (buffer : list jsval) : jsstring :=
  concat (List.map (fun byte => padStart2 (toString16 byte)) buffer).

(** Value of the longest prefix of hexadecimal digits, with the number of
    digits read. *)
Fixpoint hexPrefix (s : jsstring) (acc : N) (read : bool) : option N :=
  match s with
  | [] => if read then Some acc else None
  | c :: s' =>
      match hexDigitValue c with
      | Some d => hexPrefix s' (acc * 16 + d) true
      | None => if read then Some acc else None
      end
  end.

(** [parseInt(s, 16)]: leading white space, a sign and a [0x] prefix are
    accepted; no digit at all gives [NaN]. *)
Definition parseInt16 (s : jsstring) : jsval :=
  let s := trimStart s in
  let '(negative, s) :=
    match s with
    | 45 :: s' => (true, s')
    | 43 :: s' => (false, s')
    | _ => (false, s)
    end in
  let s :=
    match s with
    | 48 :: 120 :: s' => s'
    | 48 :: 88 :: s' => s'
    | _ => s
    end in
  match hexPrefix s 0 false with
  | Some n => VNum (if negative then - Z.of_N n else Z.of_N n)
  | None => VNaN
  end.

(** [packSha(shaString)] *)
Fixpoint packSha (shaString : jsstring) : list jsval :=
  match shaString with
  | a :: b :: rest => parseInt16 [a; b] :: packSha rest
  | [a] => [parseInt16 [a]]
  | [] => []
  end.

(** ** Objects *)

(** [Git.inflate], [Git.deflate] and [Git.sha] as the source has them:
    the two codecs return their argument, the hash returns a fixed
    string. *)
Definition inflate {A} (data : list A) : list A := data.
Definition deflate {A} (data : list A) : list A := data.
Definition sha (data : list jsval) : jsstring := js "placeholder_sha".

(** [`${n}`] for an array length. *)
Definition lengthToString (n : nat) : jsstring :=
  js (DecimalString.NilZero.string_of_uint (Nat.to_uint n)).

Definition objectPath (id : jsstring) : jsstring :=
  js "objects/" ++ firstn 2 id ++ js "/" ++ skipn 2 id.

(** [Git.writeObject] *)
Definition writeObject (type : jsstring) (content : list jsval) : M jsstring :=
  let header := stringToArray (type ++ js " " ++ lengthToString (length content)) in
  let data := header ++ [VNum 0] ++ content in
  let id := sha data in
  let compressed := deflate data in
  let* written := writeFile (objectPath id) compressed in
  ret id.

(** [Git.writeBlob] *)
Definition writeBlob (content : list jsval) : M jsstring :=
  writeObject (js "blob") content.

(** [Git.readUnpackedObject] *)
Definition readUnpackedObject (g : Git) (id : jsstring) : res object :=
  match readFile g (objectPath id) with
  | Ok compressed =>
      let decompressed := ofBytes (inflate compressed) in
      let spaceIndex := indexOf 32 decompressed 0 in
      let nullIndex := indexOf 0 decompressed 0 in
      let type := arrayToString (slice decompressed 0 spaceIndex) in
      let content := sliceFrom decompressed (nullIndex + 1) in
      Ok (mkObject type (Arr content) id)
  | Err e => Err e
  | Diverge => Diverge
  end.

(** [Git.readPackedObject] *)
Definition readPackedObject (g : Git) (id : jsstring) : res object :=
  Err PackedNotImplemented.

Definition cacheSet (id : jsstring) (o : object) (g : Git) : Git :=
  mkGit (root g) (zeroPage g) (packedIndex g) (<[id := o]> (objectCache g)).

(** [Git.readObject]: a cached object is returned as it is, the very
    object an earlier caller was given. *)
Definition readObject (id : jsstring) : M object :=
  fun g =>
    match objectCache g !! id with
    | Some o => Ret o g
    | None =>
        match (if includes id (packedIndex g)
               then readPackedObject g id else readUnpackedObject g id) with
        | Ok o => Ret o (cacheSet id o g)
        | Err e => Throw (FailedToReadObject id e) g
        | Diverge => Loop
        end
    end.

(** [Git.parseBlob] *)
Definition parseBlob (o : object) : content := obj_content o.

Definition typeOfMode (mode : jsstring) : jsstring :=
  if startsWith (js "100") mode then js "blob"
  else if startsWith (js "160") mode then js "submodule"
  else js "tree".

(** The loop of [Git.parseTree] over an array-like content. *)
Fixpoint parseTreeLoop (fuel : nat) (content : list jsval) (pos : Z)
    (items : list item) : option (list item) :=
  if (pos <? Z.of_nat (length content))%Z then
    match fuel with
    | O => None
    | S fuel' =>
        let spacePos := indexOf 32 content pos in
        let mode := arrayToString (slice content pos spacePos) in
        let pos := (spacePos + 1)%Z in
        let nullPos := indexOf 0 content pos in
        let name := decodeUTF8 (slice content pos nullPos) in
        let pos := (nullPos + 1)%Z in
        let objectId := unpackSha (slice content pos (pos + 20)) in
        let pos := (pos + 20)%Z in
        let type := typeOfMode mode in
        parseTreeLoop fuel' content pos (items ++ [mkItem type name objectId])
    end
  else Some items.

(** [Git.parseTree].  A content that is not an array has no [length], so
    the loop condition is false at once. *)
Definition parseTree (fuel : nat) (o : object) : option (list item) :=
  match obj_content o with
  | Arr content => parseTreeLoop fuel content 0 []
  | _ => Some []
  end.

Definition setContent (o : object) (c : content) : object :=
  mkObject (obj_type o) c (obj_id o).

(** [Git.readUnknownObject]: the parsed content is assigned to the object
    that [readObject] returned, which is the object held by the cache. *)
Definition readUnknownObject (fuel : nat) (id : jsstring) : M object :=
  let* o := readObject id in
  fun g =>
    if jsstring_eqb (obj_type o) (js "blob") then
      let o' := setContent o (parseBlob o) in Ret o' (cacheSet id o' g)
    else if jsstring_eqb (obj_type o) (js "tree") then
      match parseTree fuel o with
      | Some items =>
          let o' := setContent o (Arr (List.map VObj items)) in
          Ret o' (cacheSet id o' g)
      | None => Loop
      end
    else if jsstring_eqb (obj_type o) (js "commit") then
      let o' := setContent o (CommitRec (obj_content o)) in Ret o' (cacheSet id o' g)
    else if jsstring_eqb (obj_type o) (js "tag") then
      let o' := setContent o (TagRec (obj_content o)) in Ret o' (cacheSet id o' g)
    else Ret o g.

(** [treeObject.content.find(item => item.name === name)] *)
Fixpoint findNamed (name : jsstring) (l : list jsval) : option item :=
  match l with
  | [] => None
  | VObj it :: l' =>
      if jsstring_eqb (item_name it) name then Some it else findNamed name l'
  | _ :: l' => findNamed name l'
  end.

Definition contentArray (c : content) : list jsval :=
  match c with
  | Arr l => l
  | _ => []
  end.

(** [Git.readTreeItem] on a path already split. *)
Fixpoint readTreeItemPath (fuel : nat) (tree : jsstring) (path : list jsstring)
    : M object :=
  match path with
  | [] => readUnknownObject fuel tree
  | segment :: path' =>
      let* treeObject := readUnknownObject fuel tree in
      if jsstring_eqb (obj_type treeObject) (js "tree") then
        match findNamed segment (contentArray (obj_content treeObject)) with
        | Some file => readTreeItemPath fuel (item_id file) path'
        | None => throw (NoObjectNamed tree segment)
        end
      else throw (NotATree tree)
  end.

(** [path.split('/').filter(part => part.length > 0)] *)
Definition splitPath (path : jsstring) : list jsstring :=
  List.filter (fun part => negb (Nat.eqb (length part) 0)) (split 47 path).

(** [Git.readTreeItem] on a path string. *)
Definition readTreeItem (fuel : nat) (tree : jsstring) (path : jsstring) : M object :=
  readTreeItemPath fuel tree (splitPath path).

(** ** Writing trees and commits *)

(** What [writeTreeRecursive] distinguishes in an input item: a directory
    still to be written, a file still to be written, or an item that
    already carries an id.  The function tells them apart by the type
    and by an empty id; an item given as [Existing] is meant to be one
    that it passes through, which [passedThrough] below checks. *)
#[warning="-register-all"]
Inductive treeInput :=
| NewTree (name : jsstring) (children : list treeInput)
| NewBlob (name : jsstring) (blob : list jsval)
| Existing (it : item).

Record commitInput := mkCommitInput {
  c_tree : list treeInput;
  c_parents : list (list N);
  c_author : jsstring;
  c_committer : jsstring;
  c_message : jsstring
}.

Section Writing.

(** [String.prototype.localeCompare] is the host's collation; the engine
    only uses the sign of its result. *)
Variable localeCompare : jsstring -> jsstring -> Z.

Definition isTree (it : item) : bool := jsstring_eqb (item_type it) (js "tree").

(** The name [writeTree] compares: a tree's name gets a trailing slash. *)
Definition sortName (it : item) : jsstring :=
  if isTree it then item_name it ++ js "/" else item_name it.

Definition compareItems (a b : item) : Z :=
  localeCompare (sortName a) (sortName b).

(** [items.sort(comparator)] is a stable sort; for a consistent
    comparator its result is the one insertion computes. *)
Fixpoint insertItem (x : item) (sorted : list item) : list item :=
  match sorted with
  | [] => [x]
  | y :: sorted' =>
      if (compareItems x y <=? 0)%Z then x :: y :: sorted'
      else y :: insertItem x sorted'
  end.

Fixpoint sortItems (items : list item) : list item :=
  match items with
  | [] => []
  | x :: items' => insertItem x (sortItems items')
  end.

Definition modeOf (it : item) : jsstring :=
  if isTree it then js "040000" else js "100644".

(** One entry record: mode, space, name, NUL, packed id. *)
Definition treeEntry (it : item) : list jsval :=
  ofBytes (encodeUTF8 (modeOf it ++ js " " ++ item_name it))
  ++ [VNum 0] ++ packSha (item_id it).

Definition treeContent (items : list item) : list jsval :=
  concat (List.map treeEntry (sortItems items)).

(** [Git.writeTree] *)
Definition writeTree (items : list item) : M jsstring :=
  writeObject (js "tree") (treeContent items).

(** [Git.writeTreeRecursive], one item at a time. *)
Fixpoint processItem (x : treeInput) : M item :=
  match x with
  | NewTree name children =>
      let* processedItems :=
        (fix processAll (l : list treeInput) : M (list item) :=
           match l with
           | [] => ret []
           | c :: l' =>
               let* it := processItem c in
               let* rest := processAll l' in
               ret (it :: rest)
           end) children in
      let* treeId := writeTree processedItems in
      ret (mkItem (js "tree") name treeId)
  | NewBlob name blob =>
      let* blobId := writeBlob blob in
      ret (mkItem (js "blob") name blobId)
  | Existing it => ret it
  end.

Fixpoint processItems (items : list treeInput) : M (list item) :=
  match items with
  | [] => ret []
  | x :: items' =>
      let* it := processItem x in
      let* rest := processItems items' in
      ret (it :: rest)
  end.

Definition writeTreeRecursive (items : list treeInput) : M jsstring :=
  let* processedItems := processItems items in
  writeTree processedItems.

Definition commitText (treeId : jsstring) (commit : commitInput) : jsstring :=
  js "tree " ++ treeId ++ [10]
  ++ concat (List.map (fun parent => js "parent " ++ parent ++ [10]) (c_parents commit))
  ++ js "author " ++ c_author commit ++ [10]
  ++ js "committer " ++ c_committer commit ++ [10; 10]
  ++ c_message commit.

(** [Git.writeCommit] *)
Definition writeCommit (commit : commitInput) : M jsstring :=
  let* treeId := writeTreeRecursive (c_tree commit) in
  writeObject (js "commit") (ofBytes (encodeUTF8 (commitText treeId commit))).

(** ** [Repository.saveFile]

    The author string comes from the clock and the user's profile and is
    taken as an argument.  The function suspends between reading the
    parent and writing the ref, so it is given in two steps as well as in
    one piece: another writer may act on the store in between. *)

(** Lines 91-106: read the parent, write the commit. *)
Definition saveFilePrepare (fuel : nat) (author path : jsstring)
    (blob : list jsval) (branch message : jsstring) : M (jsstring * jsstring) :=
  let* parent := lift (fun g => getBranchCommit fuel g branch) in
  let commit := mkCommitInput [NewBlob path blob] [parent] author author message in
  let* commitId := writeCommit commit in
  ret (parent, commitId).

(** Line 107: the ref update. *)
Definition saveFilePublish (branch commitId : jsstring) : M unit :=
  setRef (js "refs/heads/" ++ branch) commitId.

Definition saveFile (fuel : nat) (author path : jsstring)
    (blob : list jsval) (branch message : jsstring) : M jsstring :=
  let* prepared := saveFilePrepare fuel author path blob branch message in
  let* written := saveFilePublish branch (snd prepared) in
  ret (snd prepared).

End Writing.

(** * Notions used to state the properties, and sample repositories *)

(** The chain of symbolic refs that starts at [ref]: after [n] hops it
    reaches a file whose trimmed content is not symbolic, or a name
    without a file. *)
Inductive refChain (g : Git) : jsstring -> nat -> res jsstring -> Prop :=
| chain_missing ref e :
    readFile g ref = Err e ->
    refChain g ref 0 (Err (UnknownRef ref))
| chain_direct ref content :
    readFile g ref = Ok content ->
    startsWith (js "ref:") (trim (arrayToString (ofBytes content))) = false ->
    refChain g ref 0 (Ok (trim (arrayToString (ofBytes content))))
| chain_hop ref content n r :
    readFile g ref = Ok content ->
    startsWith (js "ref:") (trim (arrayToString (ofBytes content))) = true ->
    refChain g (trim (substr 4 (trim (arrayToString (ofBytes content))))) n r ->
    refChain g ref (S n) r.

Definition sampleId : jsstring := js "0123456789abcdef0123456789abcdef01234567".
Definition otherId : jsstring := js "89abcdef0123456789abcdef0123456701234567".

Definition gitOver (fs : list (list N * list N)) (ds : list (list N * list (list N))) : Git :=
  mkGit (js "repo") (mkZeroPage (list_to_map fs) (list_to_map ds)) [] ∅.

Definition emptyGit : Git := gitOver [] [].

(** A ref whose content points at itself. *)
Definition selfRefGit : Git :=
  gitOver [(js "repo/refs/heads/loop", js "ref: refs/heads/loop")] [].

(** Twelve symbolic refs in a row, the last one naming a direct ref. *)
Definition hopName (k : N) : jsstring := js "refs/hop/" ++ [97 + k].

Definition longChainGit : Git :=
  gitOver
    (List.map (fun k => (js "repo/" ++ hopName k, js "ref: " ++ hopName (k + 1)))
              [0; 1; 2; 3; 4; 5; 6; 7; 8; 9; 10; 11]
     ++ [(js "repo/" ++ hopName 12, sampleId)])
    [].

(** Comparison of two strings code unit by code unit, as a comparator. *)
Fixpoint codeUnitCompare (a b : jsstring) : Z :=
  match a, b with
  | [], [] => 0%Z
  | [], _ :: _ => (-1)%Z
  | _ :: _, [] => 1%Z
  | x :: a', y :: b' =>
      if x <? y then (-1)%Z else if y <? x then 1%Z else codeUnitCompare a' b'
  end.

(** A repository whose only trace of branch [main] is a packed-refs line. *)
Definition packedOnlyGit : Git :=
  gitOver [(js "repo/packed-refs",
            js "# pack-refs with: peeled fully-peeled sorted" ++ [10]
            ++ sampleId ++ js " refs/heads/main" ++ [10])] [].

(** A repository whose branch [master] holds the given content. *)
Definition branchGit (content : jsstring) : Git :=
  gitOver [(js "repo/refs/heads/master", content)] [].

(** The names a packed-refs file lists, line by line. *)
Definition packedNamesOf (lines : list jsstring) : list jsstring :=
  flat_map (fun line => match packedRefOfLine line with
                        | Some ref => [ref]
                        | None => []
                        end) lines.

Definition packedRefNames (g : Git) : list jsstring :=
  match readFile g (js "packed-refs") with
  | Ok packedRefs => packedNamesOf (split 10 (arrayToString (ofBytes packedRefs)))
  | _ => []
  end.

Definition looseRefNames (g : Git) : list jsstring :=
  List.map (fun ref => js "refs/" ++ ref)
           (zeroPage_listDirectory (zeroPage g) (root g ++ js "/refs")).

(** The table of packed refs as the format has it, a line at a time: a
    comment, an entry [<id> <name>], the peeled id of the tag above, or
    a blank line.  A word is non-empty and has no white space; an id
    does not begin with the comment mark. *)
Inductive packedLine :=
| CommentLine (text : list N)
| EntryLine (id name : list N)
| PeeledLine (id : list N)
| BlankLine.

Definition packedFileLine (l : packedLine) : list N :=
  match l with
  | CommentLine text => js "#" ++ text
  | EntryLine id name => id ++ js " " ++ name
  | PeeledLine id => js "^" ++ id
  | BlankLine => []
  end.

(** The text of a packed-refs file with these lines, a line feed between
    one line and the next. *)
Definition packedFile (table : list packedLine) : list N :=
  join [10] (List.map packedFileLine table).

Definition wordb (s : list N) : bool :=
  negb (Nat.eqb (length s) 0)
  && forallb (fun c => negb (isWhiteSpace c) && (c <? 256)) s.

Definition packedLineb (l : packedLine) : bool :=
  match l with
  | CommentLine text => forallb (fun c => negb (c =? 10) && (c <? 256)) text
  | EntryLine id name => wordb id && negb (startsWith (js "#") id) && wordb name
  | PeeledLine id => wordb id
  | BlankLine => true
  end.

(** The names the table's entries give, in the table's order. *)
Definition packedTableNames (table : list packedLine) : list (list N) :=
  flat_map (fun l => match l with
                     | EntryLine _ name => [name]
                     | _ => []
                     end) table.

(** A repository with the directories [heads] and [tags] under [refs]
    and a packed-refs file of five lines, one of which names [refs/tags]
    again. *)
Definition sampleTable : list packedLine :=
  [CommentLine (js " pack-refs with: peeled fully-peeled sorted");
   EntryLine sampleId (js "refs/heads/main");
   EntryLine otherId (js "refs/tags/v1");
   PeeledLine sampleId;
   EntryLine otherId (js "refs/tags")].

Definition listedGit : Git :=
  gitOver [(js "repo/packed-refs", packedFile sampleTable)]
          [(js "repo/refs", [js "heads"; js "tags"])].

(** A tree object with one entry whose mode starts with none of the
    prefixes of regular files, submodule links or directories. *)
Definition oddModeTree : object :=
  mkObject (js "tree")
           (Arr (ofBytes (js "999999 x" ++ [0] ++ List.repeat 171 20)))
           sampleId.

Definition hexChars : list N :=
  [48; 49; 50; 51; 52; 53; 54; 55; 56; 57; 97; 98; 99; 100; 101; 102].

(** What [packSha] and [unpackSha] do on two hexadecimal digits, as a
    check that can be run. *)
Definition hexPairCheck (a b : N) : bool :=
  match parseInt16 [a; b] with
  | VNum z => (0 <=? z)%Z && (z <? 256)%Z
              && jsstring_eqb (padStart2 (toString16 (VNum z))) [a; b]
  | _ => false
  end.

(** A string without lone surrogates, all of whose elements are code
    units. *)
Fixpoint wellFormed (str : jsstring) : bool :=
  match str with
  | [] => true
  | c :: rest =>
      if isHighSurrogate c then
        match rest with
        | d :: rest' => isLowSurrogate d && wellFormed rest'
        | [] => false
        end
      else negb (isLowSurrogate c) && (c <? 65536) && wellFormed rest
  end.

(** A name that survives [encodeUTF8] followed by [decodeUTF8] inside a
    tree entry: well formed, without the code unit 0 that ends the name in
    the entry, and not starting with a byte-order mark, which the decoder
    drops. *)
Definition portableName (name : jsstring) : bool :=
  wellFormed name && forallb (fun c => negb (c =? 0)) name
  && negb (startsWith [65279] name).

(** The comparison that [writeTree] sorts by says that [a] is not after
    [b]. *)
Definition precedes (localeCompare : list N -> list N -> Z) (a b : item) : Prop :=
  (compareItems localeCompare a b <= 0)%Z.

(** The key by which the claim orders the entries: the name, followed by
    a slash when the entry is of tree kind. *)
Definition entryKey (it : item) : list N :=
  item_name it ++ (if jsstring_eqb (item_type it) (js "tree") then js "/" else []).

(** The order of the claim under a collation [cmp]: the key of [a] is not
    after the key of [b]. *)
Definition keyOrder (cmp : list N -> list N -> Z) (a b : item) : Prop :=
  (cmp (entryKey a) (entryKey b) <= 0)%Z.

(** Two keys tie: neither is after the other. *)
Definition tiesb (cmp : list N -> list N -> Z) (a b : list N) : bool :=
  (cmp a b <=? 0)%Z && (cmp b a <=? 0)%Z.

(** A check that [cmp] is a consistent comparator on [keys], as
    [Array.prototype.sort] needs it: any two keys comparable one way or
    the other, and the comparison transitive. *)
Definition consistentb (cmp : list N -> list N -> Z) (keys : list (list N)) : bool :=
  forallb (fun a =>
    forallb (fun b =>
      ((cmp a b <=? 0)%Z || (cmp b a <=? 0)%Z)
      && forallb (fun c =>
           implb ((cmp a b <=? 0)%Z && (cmp b c <=? 0)%Z) (cmp a c <=? 0)%Z) keys)
      keys) keys.

(** A check that no two keys of the list tie, the same key listed twice
    included. *)
Fixpoint untiedb (cmp : list N -> list N -> Z) (keys : list (list N)) : bool :=
  match keys with
  | [] => true
  | k :: keys' => forallb (fun k' => negb (tiesb cmp k k')) keys' && untiedb cmp keys'
  end.

(** A model of the host collation on ASCII letters: alphabetical whatever
    the case, a lower-case letter before the same letter in upper case. *)
Definition foldCase (c : N) : N :=
  if (65 <=? c) && (c <=? 90) then c + 32 else c.

Definition hostCollation (a b : jsstring) : Z :=
  match codeUnitCompare (List.map foldCase a) (List.map foldCase b) with
  | 0%Z => (- codeUnitCompare a b)%Z
  | z => z
  end.

(** A model of a collation that honours canonical equivalence, which the
    language requires of [localeCompare]: the letter e with acute accent
    in one code unit, U+00E9, and the same letter as e followed by the
    combining accent U+0301 compare as equal. *)
Fixpoint decompose (s : list N) : list N :=
  match s with
  | [] => []
  | c :: s' => (if c =? 233 then [101; 769] else [c]) ++ decompose s'
  end.

Definition canonicalCollation (a b : list N) : Z :=
  codeUnitCompare (decompose a) (decompose b).

(** A file name with that letter, precomposed and decomposed. *)
Definition cafePrecomposed : list N := js "caf" ++ [233] ++ js ".txt".
Definition cafeDecomposed : list N := js "caf" ++ [101; 769] ++ js ".txt".

Definition blobItem (name id : jsstring) : item := mkItem (js "blob") name id.
Definition treeItem (name id : jsstring) : item := mkItem (js "tree") name id.

(** An entry that [writeTree] can write and [parseTree] read back as it
    was: a blob or a tree, with a portable name and a full hexadecimal
    id. *)
Definition plainEntry (it : item) : bool :=
  (jsstring_eqb (item_type it) (js "blob") || jsstring_eqb (item_type it) (js "tree"))
  && portableName (item_name it) && isSha (item_id it).

Definition sampleItems : list item :=
  [blobItem (js "b.txt") sampleId; treeItem (js "a") otherId;
   blobItem (js "a.txt") sampleId].

(** A store with one tree, whose single entry [README.md] names one
    blob, both as loose objects. *)
Definition rootTreeId : jsstring := List.repeat 97 40.

Definition browseGit : Git :=
  gitOver
    [(js "repo/" ++ objectPath rootTreeId,
      js "tree 37" ++ [0] ++ js "100644 README.md" ++ [0]
      ++ List.map toUint8 (packSha otherId));
     (js "repo/" ++ objectPath otherId, js "blob 10" ++ [0] ++ js "Git Center")]
    [].

(** The state in which the first lookup of [README.md] leaves the engine. *)
Definition browsedOnceGit : Git :=
  stateAfter browseGit (readTreeItem 1 rootTreeId (js "README.md") browseGit).

(** A race on branch [master]: [saveFile] reads the parent and writes its
    commit, another writer moves the branch, then [saveFile] publishes. *)
Definition racePrepare : outcome (list N * list N) :=
  saveFilePrepare codeUnitCompare 2 (js "me <me@zeroid.bit> 0 +0000")
                  (js "README.md") (stringToArray (js "Git Center"))
                  (js "master") (js "edit") (branchGit sampleId).

Definition raceMovedGit : Git :=
  stateAfter (branchGit sampleId)
             (setRef (js "refs/heads/master") otherId
                     (stateAfter (branchGit sampleId) racePrepare)).

Definition raceCommitId : jsstring :=
  match resultOf racePrepare with
  | Ok (_, commitId) => commitId
  | _ => []
  end.

Definition racePublish : outcome unit :=
  saveFilePublish (js "master") raceCommitId raceMovedGit.

(** The bytes of ["hello\n"]. *)
Definition helloBlob : list jsval := stringToArray (js "hello" ++ [10]).

(** * Further parts of the code *)

(** ** Integers in binary *)

(** [ToInt32]: the value modulo 2^32, read as a signed 32-bit integer. *)
Definition toInt32 (z : Z) : Z :=
  ((z + 2147483648) mod 4294967296 - 2147483648)%Z.

(** [a << k]: both operands go through the 32-bit conversions. *)
Definition shiftLeft (a k : Z) : Z :=
  toInt32 (Z.shiftl (toInt32 a) (k mod 32)).

(** [Git.unpackInt32] (the same in [Hg]) on a [Uint8Array].  An index past
    the end reads [undefined], which [<<] takes for 0 and [+] turns into
    [NaN]; the last operand is [buffer[3]], so fewer than four bytes give
    [NaN]. *)
Definition unpackInt32 (buffer : list N) : jsval :=
  match buffer with
  | b0 :: b1 :: b2 :: b3 :: _ =>
      VNum (shiftLeft (Z.of_N b0) 24 + shiftLeft (Z.of_N b1) 16
            + shiftLeft (Z.of_N b2) 8 + Z.of_N b3)
  | _ => VNaN
  end.

(** What [unpackSha] and [packSha] do on one byte, as a check that can be
    run. *)
Definition byteHexCheck (b : N) : bool :=
  match padStart2 (toString16 (VNum (Z.of_N b))) with
  | [h; l] =>
      isHexChar h && isHexChar l
      && match parseInt16 [h; l] with
         | VNum z => (z =? Z.of_N b)%Z
         | _ => false
         end
  | _ => false
  end.

Definition allBytes : list N := List.map N.of_nat (seq 0 256).

(** The string without the byte-order mark it may start with. *)
Definition withoutMark (str : jsstring) : jsstring :=
  match str with
  | 65279 :: s => s
  | s => s
  end.

(** ** Branch commits, commits and initialisation *)

(** [Git.readBranchCommit] *)
Definition readBranchCommit (fuel : nat) (branch : jsstring) : M object :=
  let* commit := lift (fun g => getBranchCommit fuel g branch) in
  readUnknownObject fuel commit.

Definition configText : jsstring :=
  join [10]
    [js "[core]";
     9 :: js "repositoryformatversion = 0";
     9 :: js "filemode = false";
     9 :: js "bare = true";
     9 :: js "symlinks = false";
     9 :: js "ignorecase = true";
     js "[receive]";
     9 :: js "advertisePushOptions = true";
     9 :: js "denyDeleteCurrent = warn"].

(** The constructor: no packed index, an empty cache. *)
Definition newGit (root : jsstring) (zeroPage : ZeroPage) : Git :=
  mkGit root zeroPage [] ∅.

Section Initialisation.

Variable localeCompare : jsstring -> jsstring -> Z.

(** The static [Git.init].  The two clock readings, the seconds since the
    epoch and the timezone offset, are taken as the texts the template
    string puts in the author line. *)
Definition gitInit (root : jsstring) (zeroPage : ZeroPage)
    (name email seconds tz : jsstring) : outcome unit :=
  (let* w1 := writeFile (js "HEAD") (stringToArray (js "ref: refs/heads/master")) in
   let* w2 := writeFile (js "description") (stringToArray (js "Git Center repository")) in
   let* w3 := writeFile (js "config") (stringToArray configText) in
   let author := name ++ js " <" ++ email ++ js "> " ++ seconds ++ js " " ++ tz in
   let* commitId :=
     writeCommit localeCompare
       (mkCommitInput [] [] author author (js "Initial commit")) in
   setRef (js "refs/heads/master") commitId) (newGit root zeroPage).

End Initialisation.

(** The engine states [g] and [g'] have the same root, cache and packed
    index, and the same file at every path but the given ones below the
    root.  Nothing is said of what a directory lists. *)
Definition sameExcept (paths : list jsstring) (g g' : Git) : Prop :=
  root g' = root g /\ objectCache g' = objectCache g
  /\ packedIndex g' = packedIndex g
  /\ forall p, ~ In p (List.map (fullPath g) paths) ->
                files (zeroPage g') !! p = files (zeroPage g) !! p.

(** An input of [writeTreeRecursive] in which every item given as
    [Existing] is one that the function passes through: not a tree or a
    blob whose id is empty, which the function would write from the
    item's content. *)
Fixpoint passedThrough (x : treeInput) : bool :=
  match x with
  | NewTree _ children => forallb passedThrough children
  | NewBlob _ _ => true
  | Existing it =>
      negb ((jsstring_eqb (item_type it) (js "tree")
             || jsstring_eqb (item_type it) (js "blob"))
            && Nat.eqb (length (item_id it)) 0)
  end.

(** A repository whose HEAD names no branch. *)
Definition blankHeadGit : Git := gitOver [(js "repo/HEAD", js "ref: refs/heads/")] [].

(** A nested tree input: a directory with a file and a sub-directory. *)
Definition nestedInput : list treeInput :=
  [NewTree (js "src")
     [NewBlob (js "main.js") (stringToArray (js "run()"));
      NewTree (js "lib") [NewBlob (js "util.js") (stringToArray (js "x"))]];
   NewBlob (js "README.md") (stringToArray (js "Git Center"))].

(** ** Mercurial file names ([HgFileName]) *)

(** [s.replace(/pattern/, replacement)] for a pattern that is a fixed,
    non-empty text: the first occurrence is replaced. *)
Fixpoint replaceFirst (pattern replacement s : jsstring) : jsstring :=
  if startsWith pattern s then replacement ++ skipn (length pattern) s
  else match s with
       | [] => []
       | c :: s' => c :: replaceFirst pattern replacement s'
       end.

Module HgFileName.

(** [`~${hex}`] with [hex = code.toString(16).padStart(2, '0')] *)
Definition tildeHex (code : N) : jsstring :=
  126 :: padStart2 (toString16 (VNum (Z.of_N code))).

(** The special characters: backslash, colon, asterisk, question mark,
    double quote, the angle brackets and the bar. *)
Definition specialChars : jsstring := [92; 58; 42; 63; 34; 60; 62; 124].

Definition upperCase : list N := List.map N.of_nat (seq 65 26).

(** [initializeMaps], the four assignments to [cmap] in the order of the
    source, a later one replacing an earlier one. *)
Definition cmap : gmap N (list N) :=
  let cmap :=
    fold_left (fun (m : gmap N (list N)) i =>
                 if (i <? 32) || (126 <=? i) then <[i := tildeHex i]> m
                 else <[i := [i]]> m)
              allBytes ∅ in
  let cmap := fold_left (fun m code => <[code := tildeHex code]> m) specialChars cmap in
  let cmap := fold_left (fun m i => <[i := [95; i + 32]]> m) upperCase cmap in
  <[95 := [95; 95]]> cmap.

(** [Object.entries(cmap)]: the keys are integers, listed in ascending
    order. *)
Definition entries : list (N * list N) :=
  omap (fun i => match cmap !! i with
                 | Some value => Some (i, value)
                 | None => None
                 end) allBytes.

Definition dmap : gmap (list N) N :=
  fold_left (fun m entry => <[snd entry := fst entry]> m) entries ∅.

(** [cmap[char.charCodeAt(0)] || char].  [Array.from(name)] yields code
    points; a character outside the table, a surrogate pair included, is
    kept as it is, so the mapping acts on each code unit. *)
Definition encodeChar (c : N) : jsstring :=
  match cmap !! c with
  | Some (x :: value) => x :: value
  | _ => [c]
  end.

(** [encode(name)] *)
Definition encode (name : jsstring) : jsstring :=
  replaceFirst (js ".d/") (js ".d.hg/")
    (replaceFirst (js ".i/") (js ".i.hg/")
       (replaceFirst (js ".hg/") (js ".hg.hg/")
          (concat (List.map encodeChar name)))).

(** [decode(name)]: at each position the shortest of the next one, two
    or three characters that is a key of [dmap] is decoded; [None] is the
    error [Invalid filename]. *)
Fixpoint decode (name : jsstring) : option jsstring :=
  match name with
  | [] => Some []
  | a :: rest1 =>
      match dmap !! [a] with
      | Some code => option_map (cons code) (decode rest1)
      | None =>
          match rest1 with
          | [] => None
          | b :: rest2 =>
              match dmap !! [a; b] with
              | Some code => option_map (cons code) (decode rest2)
              | None =>
                  match rest2 with
                  | [] => None
                  | c :: rest3 =>
                      match dmap !! [a; b; c] with
                      | Some code => option_map (cons code) (decode rest3)
                      | None => None
                      end
                  end
              end
          end
      end
  end.

End HgFileName.

(** [haystack.includes(needle)] on strings. *)
Fixpoint occursIn (needle haystack : jsstring) : bool :=
  startsWith needle haystack
  || match haystack with
     | [] => false
     | _ :: rest => occursIn needle rest
     end.

(** A character a file name may hold on every host: printable ASCII, no
    capital letter, none of the reserved characters. *)
Definition hostSafe (c : N) : bool :=
  (32 <=? c) && (c <=? 126) && negb ((65 <=? c) && (c <=? 90))
  && negb (existsb (N.eqb c) HgFileName.specialChars).

(** What the proofs need of the encoding of one byte, checked on each of
    the 256 bytes: the encoding is host-safe, [decode] reads it back at the
    head of any text, and it is either the byte alone or a text that
    starts with [~] or [_] and holds no dot. *)
Definition encodeCharCheck (c : N) : bool :=
  forallb hostSafe (HgFileName.encodeChar c)
  && match HgFileName.encodeChar c with
     | [x] =>
         (x =? c)
         && match HgFileName.dmap !! [x] with Some code => code =? c | None => false end
     | [x; y] =>
         ((x =? 126) || (x =? 95)) && negb (y =? 46)
         && match HgFileName.dmap !! [x], HgFileName.dmap !! [x; y] with
            | None, Some code => code =? c
            | _, _ => false
            end
     | [x; y; z] =>
         ((x =? 126) || (x =? 95)) && negb (y =? 46) && negb (z =? 46)
         && match HgFileName.dmap !! [x], HgFileName.dmap !! [x; y],
                  HgFileName.dmap !! [x; y; z] with
            | None, None, Some code => code =? c
            | _, _, _ => false
            end
     | _ => false
     end.

(** ** The event emitter ([Cache.js], class [EventEmitter]) *)

Module EventEmitter.

(** A registered function, compared by identity: a function of the caller,
    or the closure [onceCallback] that the [w]-th call of [once] created
    around a function of the caller.  A function of the caller is taken
    not to call the emitter; calling it is recorded in a log. *)
Inductive callback :=
| User (id : nat)
| OnceCallback (w : nat) (wrapped : nat).

#[export] Instance callback_eq_dec : EqDecision callback.
Proof. solve_decision. Defined.

(** The emitter: the map from event names to arrays of functions, and the
    number of closures created so far. *)
Record emitter := mkEmitter {
  events : gmap (list N) (list callback);
  created : nat
}.

Definition empty : emitter := mkEmitter ∅ 0.

(** [on(event, callback)] *)
Definition on (event : jsstring) (cb : callback) (e : emitter) : emitter :=
  mkEmitter (<[event := default [] (events e !! event) ++ [cb]]> (events e)) (created e).

(** [callbacks.indexOf(callback)] followed by [splice(index, 1)] when the
    index is not -1. *)
Fixpoint removeFirst (cb : callback) (callbacks : list callback) : list callback :=
  match callbacks with
  | [] => []
  | c :: callbacks' =>
      if decide (c = cb) then callbacks' else c :: removeFirst cb callbacks'
  end.

(** [off(event, callback)] *)
Definition off (event : jsstring) (cb : callback) (e : emitter) : emitter :=
  match events e !! event with
  | None => e
  | Some callbacks =>
      let callbacks := removeFirst cb callbacks in
      if (length callbacks =? 0)%nat
      then mkEmitter (delete event (events e)) (created e)
      else mkEmitter (<[event := callbacks]> (events e)) (created e)
  end.

(** [once(event, callback)]: a new closure is registered. *)
Definition once (event : jsstring) (cb : nat) (e : emitter) : emitter :=
  on event (OnceCallback (created e) cb) (mkEmitter (events e) (S (created e))).

(** [callbacks.forEach(...)] in [emit]: the length is read once, then the
    indices below it are visited in order and an index that the array no
    longer has is passed over.  The array is the one the map holds, so the
    [off] that a closure of [once] performs shortens the array under the
    loop.  The result is the emitter and the functions of the caller that
    were called, in order; an exception of theirs is caught. *)
Fixpoint forEach (rounds k : nat) (event : jsstring) (callbacks : list callback)
    (e : emitter) (log : list nat) : emitter * list nat :=
  match rounds with
  | O => (e, log)
  | S rounds' =>
      match callbacks !! k with
      | None => forEach rounds' (S k) event callbacks e log
      | Some (User id) => forEach rounds' (S k) event callbacks e (log ++ [id])
      | Some (OnceCallback w wrapped) =>
          let e' := off event (OnceCallback w wrapped) e in
          let callbacks' :=
            match events e !! event with
            | None => callbacks
            | Some _ => removeFirst (OnceCallback w wrapped) callbacks
            end in
          forEach rounds' (S k) event callbacks' e' (log ++ [wrapped])
      end
  end.

(** [emit(event, ...args)] *)
Definition emit (event : jsstring) (e : emitter) : emitter * list nat :=
  match events e !! event with
  | None => (e, [])
  | Some callbacks => forEach (length callbacks) 0 event callbacks e []
  end.

(** [removeAllListeners(event)]: an absent or empty event name clears
    every event. *)
Definition removeAllListeners (event : option jsstring) (e : emitter) : emitter :=
  match event with
  | Some (c :: name) => mkEmitter (delete (c :: name) (events e)) (created e)
  | _ => mkEmitter ∅ (created e)
  end.

(** [listenerCount(event)] *)
Definition listenerCount (event : jsstring) (e : emitter) : nat :=
  match events e !! event with
  | Some callbacks => length callbacks
  | None => 0
  end.

(** The calls a client makes. *)
Inductive call :=
| On (event : jsstring) (id : nat)
| Off (event : jsstring) (id : nat)
| Once (event : jsstring) (id : nat)
| Emit (event : jsstring)
| RemoveAllListeners (event : option jsstring).

Definition step (e : emitter) (c : call) : emitter :=
  match c with
  | On event id => on event (User id) e
  | Off event id => off event (User id) e
  | Once event id => once event id e
  | Emit event => fst (emit event e)
  | RemoveAllListeners event => removeAllListeners event e
  end.

(** The emitter after a sequence of calls on a new one. *)
Definition after (calls : list call) : emitter := fold_left step calls empty.

(** The functions that one [emit] calls, for the array of the event at
    the start: the function after a closure of [once] is passed over. *)
Fixpoint called (callbacks : list callback) : list nat :=
  match callbacks with
  | [] => []
  | User id :: rest => id :: called rest
  | OnceCallback _ wrapped :: rest =>
      wrapped :: match rest with
                 | [] => []
                 | _ :: rest' => called rest'
                 end
  end.

(** The array of the event after that [emit]. *)
Fixpoint kept (callbacks : list callback) : list callback :=
  match callbacks with
  | [] => []
  | User id :: rest => User id :: kept rest
  | OnceCallback _ _ :: rest =>
      match rest with
      | [] => []
      | next :: rest' => next :: kept rest'
      end
  end.

End EventEmitter.

(** The closures of [once] held by an array. *)
Fixpoint closures (callbacks : list EventEmitter.callback) : list nat :=
  match callbacks with
  | [] => []
  | EventEmitter.User _ :: rest => closures rest
  | EventEmitter.OnceCallback w _ :: rest => w :: closures rest
  end.

(** What the map holds for an event whose array is [callbacks]. *)
Definition withArray (event : list N) (callbacks : list EventEmitter.callback)
    (m : gmap (list N) (list EventEmitter.callback)) : gmap (list N) (list EventEmitter.callback) :=
  match callbacks with
  | [] => delete event m
  | _ => <[event := callbacks]> m
  end.

(** What holds of the emitter after any sequence of calls: no event has
    an empty array, and the closures of [once] in an array are distinct
    and were all created before. *)
Definition wellKept (e : EventEmitter.emitter) : Prop :=
  forall event callbacks,
    EventEmitter.events e !! event = Some callbacks ->
    callbacks <> [] /\ List.NoDup (closures callbacks)
    /\ Forall (fun w => (w < EventEmitter.created e)%nat) (closures callbacks).

(** ** The message channel ([ZeroFrame]) *)

Module ZeroFrame.

(** A message handed to [postMessage]: its command, the [to] field of a
    response, and the id that [send] gave it.  A field that may hold any
    value is [None] when it is not a number. *)
Record message := mkMessage {
  m_cmd : jsstring;
  m_to : option (option Z);
  m_id : Z
}.

(** The channel: the next id, the callbacks waiting under an id, the
    messages posted so far, and the connection flag.  A waiting callback is
    the closure [wrappedCallback] of a call of [cmd], named by the number
    of that call; [settled] records each call of such a closure with the
    result it was given, which is when the promise of the [cmd] resolves. *)
Record frame := mkFrame {
  nextMessageId : Z;
  waitingCallbacks : gmap Z nat;
  posted : list message;
  isConnected : bool;
  cmds : nat;
  settled : list (nat * nat)
}.

(** [n++] on a number: exact below 2^53, where adding 1 no longer changes
    the value. *)
Definition increment (n : Z) : Z :=
  if (n <? 9007199254740992)%Z then (n + 1)%Z else n.

(** [send(message, callback)] *)
Definition send (cmd : jsstring) (to : option (option Z)) (callback : option nat)
    (f : frame) : frame :=
  let id := nextMessageId f in
  mkFrame (increment id)
          (match callback with
           | Some closure => <[id := closure]> (waitingCallbacks f)
           | None => waitingCallbacks f
           end)
          (posted f ++ [mkMessage cmd to id])
          (isConnected f) (cmds f) (settled f).

(** [cmd(cmd, params, callback)]: the executor of the promise runs at
    once and sends the message with a new closure. *)
Definition cmd (c : jsstring) (f : frame) : frame :=
  send c None (Some (cmds f))
       (mkFrame (nextMessageId f) (waitingCallbacks f) (posted f) (isConnected f)
                (S (cmds f)) (settled f)).

(** [response(to, result)] *)
Definition response (to : option Z) (f : frame) : frame :=
  send (js "response") (Some to) None f.

(** [handleResponse(message)] *)
Definition handleResponse (to : option Z) (result : nat) (f : frame) : frame :=
  match to with
  | Some id =>
      match waitingCallbacks f !! id with
      | Some closure =>
          mkFrame (nextMessageId f) (delete id (waitingCallbacks f)) (posted f)
                  (isConnected f) (cmds f) (settled f ++ [(closure, result)])
      | None => f
      end
  | None => f
  end.

(** The messages of the wrapper, by the [cmd] field that [onMessage]
    switches on. *)
Inductive incoming :=
| Response (to : option Z) (result : nat)
| WrapperReady
| Ping (id : option Z)
| WrapperOpenedWebsocket
| WrapperClosedWebsocket
| Request (cmd : jsstring).

(** [onMessage(event)] *)
Definition onMessage (m : incoming) (f : frame) : frame :=
  match m with
  | Response to result => handleResponse to result f
  | WrapperReady =>
      let f := cmd (js "innerReady") f in
      mkFrame (nextMessageId f) (waitingCallbacks f) (posted f) true (cmds f) (settled f)
  | Ping id => response id f
  | WrapperOpenedWebsocket | WrapperClosedWebsocket | Request _ => f
  end.

(** [new ZeroFrame(url)]: the fields are set, then [connect] sends
    [innerReady]. *)
Definition new : frame :=
  cmd (js "innerReady") (mkFrame 1 ∅ [] false 0 []).

(** What happens to a channel: the page calls [cmd], or a message
    arrives. *)
Inductive action :=
| Cmd (c : jsstring)
| Receive (m : incoming).

Definition step (f : frame) (a : action) : frame :=
  match a with
  | Cmd c => cmd c f
  | Receive m => onMessage m f
  end.

Definition after (actions : list action) : frame := fold_left step actions new.

End ZeroFrame.

(** What holds of a channel that has posted fewer than 2^53 messages:
    the ids are in order and the waiting and settled closures are apart
    ([ordered]), and every closure created is waiting or settled. *)
Definition ordered (f : ZeroFrame.frame) : Prop :=
  ZeroFrame.nextMessageId f = (Z.of_nat (length (ZeroFrame.posted f)) + 1)%Z
  /\ List.map ZeroFrame.m_id (ZeroFrame.posted f)
     = List.map Z.of_nat (seq 1 (length (ZeroFrame.posted f)))
  /\ (forall id closure,
        ZeroFrame.waitingCallbacks f !! id = Some closure ->
        (1 <= id < ZeroFrame.nextMessageId f)%Z /\ (closure < ZeroFrame.cmds f)%nat)
  /\ (forall id id' closure,
        ZeroFrame.waitingCallbacks f !! id = Some closure ->
        ZeroFrame.waitingCallbacks f !! id' = Some closure -> id = id')
  /\ List.NoDup (List.map fst (ZeroFrame.settled f))
  /\ (forall closure,
        In closure (List.map fst (ZeroFrame.settled f)) ->
        (closure < ZeroFrame.cmds f)%nat
        /\ forall id, ZeroFrame.waitingCallbacks f !! id <> Some closure).

Definition inOrder (f : ZeroFrame.frame) : Prop :=
  ordered f
  /\ (forall closure,
        (closure < ZeroFrame.cmds f)%nat ->
        In closure (List.map fst (ZeroFrame.settled f))
        \/ exists id, ZeroFrame.waitingCallbacks f !! id = Some closure).

(** A page that asks for the site information, is pinged, and gets two
    responses addressed to its request. *)
Definition sampleTraffic : list ZeroFrame.action :=
  [ZeroFrame.Cmd (js "siteInfo");
   ZeroFrame.Receive (ZeroFrame.Ping (Some 7%Z));
   ZeroFrame.Receive (ZeroFrame.Response (Some 2%Z) 0);
   ZeroFrame.Receive (ZeroFrame.Response (Some 2%Z) 1)].

(** ** The cache with expiry ([Cache.js], class [Cache])

    Times and lifetimes are integers of milliseconds, on which the
    arithmetic of the source is exact. *)

Module Cache.

(** A cached value: [undefined] can be stored like any other. *)
Inductive value :=
| Undefined
| Value (v : nat).

Record entry := mkEntry {
  e_value : value;
  expiresAt : Z
}.

Record cache := mkCache {
  entries : gmap (list N) entry;
  defaultTTL : Z;
  cleanupTimer : bool
}.

(** [new Cache(defaultTTL)] *)
Definition new (defaultTTL : Z) : cache := mkCache ∅ defaultTTL false.

(** [scheduleCleanup()]: one timer at most is pending. *)
Definition scheduleCleanup (c : cache) : cache :=
  if cleanupTimer c then c else mkCache (entries c) (defaultTTL c) true.

(** [set(key, value, ttl)] at the time [now]; [ttl] absent is
    [defaultTTL]. *)
Definition set (key : jsstring) (v : value) (ttl : option Z) (now : Z) (c : cache)
    : cache :=
  let expiresAt := (now + default (defaultTTL c) ttl)%Z in
  scheduleCleanup
    (mkCache (<[key := mkEntry v expiresAt]> (entries c)) (defaultTTL c) (cleanupTimer c)).

(** [get(key)] at the time [now] *)
Definition get (key : jsstring) (now : Z) (c : cache) : value * cache :=
  match entries c !! key with
  | None => (Undefined, c)
  | Some entry =>
      if (expiresAt entry <? now)%Z
      then (Undefined, mkCache (delete key (entries c)) (defaultTTL c) (cleanupTimer c))
      else (e_value entry, c)
  end.

(** [has(key)] *)
Definition has (key : jsstring) (now : Z) (c : cache) : bool * cache :=
  match get key now c with
  | (Undefined, c') => (false, c')
  | (Value _, c') => (true, c')
  end.

(** [delete(key)] *)
Definition delete (key : jsstring) (c : cache) : bool * cache :=
  (bool_decide (is_Some (entries c !! key)),
   mkCache (base.delete key (entries c)) (defaultTTL c) (cleanupTimer c)).

(** [clear()] *)
Definition clear (c : cache) : cache := mkCache ∅ (defaultTTL c) (cleanupTimer c).

(** [cleanup()] at the time [now] *)
Definition cleanup (now : Z) (c : cache) : cache :=
  mkCache (filter (fun kv => (now <= expiresAt (snd kv))%Z) (entries c))
          (defaultTTL c) (cleanupTimer c).

(** [size()] *)
Definition size (now : Z) (c : cache) : nat * cache :=
  let c := cleanup now c in (base.size (entries c), c).

(** The timer of [scheduleCleanup] fires. *)
Definition timerFires (now : Z) (c : cache) : cache :=
  let c := cleanup now c in mkCache (entries c) (defaultTTL c) false.

(** The calls on a cache, each with the reading of the clock it makes.
    [getOrSet] is a [Get] and, once the function has resolved, a [Set]:
    other calls may come in between. *)
Inductive call :=
| Set_ (key : jsstring) (v : value) (ttl : option Z) (now : Z)
| Get (key : jsstring) (now : Z)
| Has (key : jsstring) (now : Z)
| Delete (key : jsstring)
| Clear
| Size (now : Z)
| TimerFires (now : Z).

Definition step (c : cache) (call : call) : cache :=
  match call with
  | Set_ key v ttl now => set key v ttl now c
  | Get key now => snd (get key now c)
  | Has key now => snd (has key now c)
  | Delete key => snd (delete key c)
  | Clear => clear c
  | Size now => snd (size now c)
  | TimerFires now => timerFires now c
  end.

Definition after (defaultTTL : Z) (calls : list call) : cache :=
  fold_left step calls (new defaultTTL).

End Cache.

(** The clock readings of a sequence of calls, in order. *)
Definition readings (calls : list Cache.call) : list Z :=
  omap (fun call => match call with
                    | Cache.Set_ _ _ _ now | Cache.Get _ now | Cache.Has _ now
                    | Cache.Size now | Cache.TimerFires now => Some now
                    | Cache.Delete _ | Cache.Clear => None
                    end) calls.

(** The clock never goes back, and [now] is not before its last
    reading. *)
Fixpoint clockUpTo (now : Z) (times : list Z) : Prop :=
  match times with
  | [] => True
  | t :: times' =>
      match times' with
      | [] => (t <= now)%Z
      | t' :: _ => (t <= t')%Z /\ clockUpTo now times'
      end
  end.

(** What was stored last under each key and not deleted since, whether
    expired or not. *)
Definition stored (defaultTTL : Z) (calls : list Cache.call) : gmap (list N) Cache.entry :=
  fold_left (fun m call =>
               match call with
               | Cache.Set_ key v ttl now =>
                   <[key := Cache.mkEntry v (now + default defaultTTL ttl)%Z]> m
               | Cache.Delete key => delete key m
               | Cache.Clear => ∅
               | _ => m
               end) calls ∅.

(** The entries an observer at the time [now] counts as live. *)
Definition live (now : Z) (m : gmap (list N) Cache.entry) : gmap (list N) Cache.entry :=
  filter (fun kv => (now <= Cache.expiresAt (snd kv))%Z) m.

(** The cache agrees with what was stored, up to entries that had expired
    before [now]. *)
Definition tracks (d now : Z) (c : Cache.cache) (m : gmap (list N) Cache.entry) : Prop :=
  Cache.defaultTTL c = d
  /\ (forall key e, Cache.entries c !! key = Some e -> m !! key = Some e)
  /\ (forall key e, m !! key = Some e -> Cache.entries c !! key = None ->
                    (Cache.expiresAt e < now)%Z).

(** Two values are stored, one is read after its expiry and one before. *)
Definition sampleCalls : list Cache.call :=
  [Cache.Set_ (js "a") (Cache.Value 1) (Some 10%Z) 0%Z;
   Cache.Set_ (js "b") (Cache.Value 2) None 5%Z;
   Cache.Get (js "a") 20%Z;
   Cache.TimerFires 30%Z;
   Cache.Set_ (js "a") (Cache.Value 3) (Some 100%Z) 40%Z].

(** ** The Mercurial engine ([Hg]) *)

Module Hg.

Record hg := mkHg {
  root : jsstring;
  zeroPage : ZeroPage
}.

(** [Hg.readFile]: [None] is the error [Failed to read file]. *)
Definition readFile (h : hg) (path : jsstring) : option (list N) :=
  match zeroPage_readFile (zeroPage h) (root h ++ js "/" ++ path) with
  | Some content => Some (List.map (fun c => c mod 256) content)
  | None => None
  end.

Record branch := mkBranch {
  name : jsstring;
  id : jsstring
}.

(** [parts[2] || parts[1]], kept when it is a non-empty string. *)
Definition branchName (parts : list jsstring) : option jsstring :=
  match parts !! 2%nat with
  | Some (c :: s) => Some (c :: s)
  | _ =>
      match parts !! 1%nat with
      | Some (c :: s) => Some (c :: s)
      | _ => None
      end
  end.

Definition branchOfLine (line : jsstring) : option branch :=
  let parts := split 32 line in
  match branchName parts with
  | Some name => Some (mkBranch name (hd [] parts))
  | None => None
  end.

(** [loadBranchList(file, shift)]: a failure to read gives the empty
    list. *)
Definition loadBranchList (h : hg) (file : jsstring) (shift : bool) : list branch :=
  match readFile h file with
  | Some content =>
      let lines := split 10 (arrayToString (ofBytes content)) in
      let lines := if shift then tl lines else lines in
      omap branchOfLine lines
  | None => []
  end.

(** [arr.findIndex(predicate)], [None] for -1. *)
Fixpoint findIndex {A} (predicate : A -> bool) (arr : list A) : option nat :=
  match arr with
  | [] => None
  | x :: arr' =>
      if predicate x then Some 0%nat
      else match findIndex predicate arr' with
           | Some i => Some (S i)
           | None => None
           end
  end.

Definition sameBranch (a b : branch) : bool :=
  jsstring_eqb (name b) (name a) && jsstring_eqb (id b) (id a).

(** The [filter] of [getBranchList]: an element stays when it is the
    first one with its name and id. *)
Definition firstOccurrences (arr : list branch) : list branch :=
  List.map snd
    (List.filter (fun entry =>
                    match findIndex (sameBranch (snd entry)) arr with
                    | Some i => Nat.eqb i (fst entry)
                    | None => false
                    end)
                 (combine (seq 0 (length arr)) arr)).

(** [names.sort()]: strings in the order of their code units. *)
Fixpoint insertName (x : jsstring) (sorted : list jsstring) : list jsstring :=
  match sorted with
  | [] => [x]
  | y :: sorted' =>
      if (codeUnitCompare x y <=? 0)%Z then x :: y :: sorted'
      else y :: insertName x sorted'
  end.

Fixpoint sortNames (names : list jsstring) : list jsstring :=
  match names with
  | [] => []
  | x :: names' => insertName x (sortNames names')
  end.

(** [getBranchList()] *)
Definition getBranchList (h : hg) : list jsstring :=
  let branches := loadBranchList h (js "cache/branch2-visible") true in
  sortNames (List.map name (firstOccurrences branches)).

End Hg.

(** The branch cache as the format has it: a head line, then one line for
    each head, its fields separated by single spaces.  The name of a line
    is its third field, or its second when the third is missing or
    empty; a line with neither has no name.  The id is the first
    field. *)
Definition lineName (fields : list (list N)) : option (list N) :=
  match nth_error fields 2, nth_error fields 1 with
  | Some (c :: third), _ => Some (c :: third)
  | _, Some (c :: second) => Some (c :: second)
  | _, _ => None
  end.

Definition lineBranch (fields : list (list N)) : option Hg.branch :=
  match lineName fields with
  | Some name => Some (Hg.mkBranch name (nth 0 fields []))
  | None => None
  end.

Definition cacheBranches (table : list (list (list N))) : list Hg.branch :=
  flat_map (fun fields => match lineBranch fields with
                          | Some b => [b]
                          | None => []
                          end) table.

Definition cacheFile (head : list N) (table : list (list (list N))) : list N :=
  join [10] (head :: List.map (join [32]) table).

(** A field has no space and no line feed, and its code units are
    bytes. *)
Definition fieldb (field : list N) : bool :=
  forallb (fun c => negb (c =? 32) && negb (c =? 10) && (c <? 256)) field.

Definition cacheb (head : list N) (table : list (list (list N))) : bool :=
  forallb (fun c => negb (c =? 10) && (c <? 256)) head
  && forallb (forallb fieldb) table.

Definition sampleCache : list (list (list N)) :=
  [[js "aa11"; js "o"; js "default"];
   [js "bb22"; js "o"; js "default"];
   [js "aa11"; js "o"; js "default"];
   [js "cc33"; js "stable"];
   [js "dd44"];
   [js "ee55"; js "c"; js "new"; js "ui"]].

Definition cachedHg : Hg.hg :=
  Hg.mkHg (js "repo")
    (mkZeroPage
       (list_to_map [(js "repo/cache/branch2-visible", cacheFile (js "aa11 7") sampleCache)])
       ∅).

(** ** Relative dates ([formatDate] of [ZeroPage] and [UIManager]) *)

(** [`${n}`] for an integer below 10^21 in magnitude. *)
Definition integerToString (n : Z) : jsstring :=
  js (DecimalString.NilZero.string_of_int (Z.to_int n)).

(** The value of a double: the double nearest to an integer below 2^54
    in magnitude.  Up to 2^53 every integer is a double; beyond, every
    second one is, and an odd integer, half way between two doubles,
    goes to the one whose significand is even, a multiple of 4. *)
Definition nearestDouble (z : Z) : Z :=
  if (Z.abs z <=? 2 ^ 53)%Z then z
  else if Z.even z then z
  else if ((z + 1) mod 4 =? 0)%Z then (z + 1)%Z else (z - 1)%Z.

(** [Math.floor(a / b)] for doubles [a >= 0] and [b > 0] of integer
    value with a quotient below 2^52.  The division rounds the quotient
    to the nearest double; the floor is one more than the integer
    quotient exactly when the quotient is at least half way from the
    double below the next integer [k] to [k], which has an even
    significand.  That double is [k - 2 / s]. *)
Definition floorOfQuotient (a b : Z) : Z :=
  let q := (a / b)%Z in
  let k := (q + 1)%Z in
  let e := (Z.log2 (2 * k - 1) - 1)%Z in
  let s := (2 ^ (53 - e))%Z in
  if ((k * s - 1) * b <=? a * s)%Z then k else q.

(** [formatDate(timestamp)] for an integer timestamp, read when the
    clock says [now], a time value.  A timestamp beyond the range of
    [Date] gives an invalid date: the difference is [NaN], no comparison
    holds and the last line answers.  The difference and the quotients
    are those of doubles. *)
Definition formatDate (timestamp now : Z) : jsstring :=
  if (Z.abs timestamp <=? 8640000000000000)%Z then
    let diff := nearestDouble (now - timestamp) in
    let minute := (60 * 1000)%Z in
    let hour := (60 * minute)%Z in
    let day := (24 * hour)%Z in
    let week := (7 * day)%Z in
    let month := (30 * day)%Z in
    let year := (365 * day)%Z in
    if (diff <? minute)%Z then js "just now"
    else if (diff <? hour)%Z then
      integerToString (floorOfQuotient diff minute) ++ js " minutes ago"
    else if (diff <? day)%Z then
      integerToString (floorOfQuotient diff hour) ++ js " hours ago"
    else if (diff <? week)%Z then
      integerToString (floorOfQuotient diff day) ++ js " days ago"
    else if (diff <? month)%Z then
      integerToString (floorOfQuotient diff week) ++ js " weeks ago"
    else if (diff <? year)%Z then
      integerToString (floorOfQuotient diff month) ++ js " months ago"
    else integerToString (floorOfQuotient diff year) ++ js " years ago"
  else js "NaN years ago".

(** ** Parsing commits ([Git.parseCommit]) *)

Record commitRecord := mkCommitRecord {
  cr_tree : jsstring;
  cr_parents : list (list N);
  cr_author : jsstring;
  cr_committer : jsstring;
  cr_message : jsstring
}.

(** [arrayToString(object.content)] in [parseCommit]: the array read from
    the store gives its text; the record of a content parsed before has no
    elements and gives the empty text. *)
Definition contentText (c : content) : jsstring :=
  match c with
  | Arr l => arrayToString l
  | _ => []
  end.

(** A code unit that some numeric literal in a string has: white space,
    a digit, a sign, the point, the exponent mark, the marks and digits
    of the binary, octal and hexadecimal forms, and the letters of
    [Infinity]. *)
Definition numericChar (c : N) : bool :=
  isWhiteSpace c
  || (48 <=? c) && (c <=? 57)
  || (c =? 43) || (c =? 45) || (c =? 46)
  || (65 <=? c) && (c <=? 70) || (97 <=? c) && (c <=? 102)
  || (c =? 120) || (c =? 88) || (c =? 111) || (c =? 79)
  || (c =? 73) || (c =? 110) || (c =? 105) || (c =? 116) || (c =? 121).

(** The text has a code unit that no numeric literal has. *)
Definition readsAsNoNumber (text : jsstring) : bool :=
  existsb (fun c => negb (numericChar c)) text.

Section ParsingCommits.

(** What the call makes of a text that may read as a number other than
    zero: an array of that many zero bytes, decoded, or the fallback when
    the length is refused.  This is left open. *)
Variable decodeNumericText : jsstring -> jsstring.

(** [decodeUTF8] given a string, not an array of bytes: the string is
    the length of [new Uint8Array(string)], read as a number.  White
    space alone reads as zero, and a text that is no numeric literal
    reads as [NaN], which is zero as a length: the array is empty and so
    is the decoded text. *)
Definition decodeUTF8String (text : jsstring) : jsstring :=
  if forallb isWhiteSpace text then []
  else if forallb numericChar text then decodeNumericText text
  else [].

(** One header line: the key before the first space selects the field,
    the value is the rest. *)
Definition headerLine (line : jsstring) (commit : commitRecord) : commitRecord :=
  let parts := split 32 line in
  let key := hd [] parts in
  let value := join [32] (tl parts) in
  if jsstring_eqb key (js "tree") then
    mkCommitRecord value (cr_parents commit) (cr_author commit)
                   (cr_committer commit) (cr_message commit)
  else if jsstring_eqb key (js "parent") then
    mkCommitRecord (cr_tree commit) (cr_parents commit ++ [value]) (cr_author commit)
                   (cr_committer commit) (cr_message commit)
  else if jsstring_eqb key (js "author") then
    mkCommitRecord (cr_tree commit) (cr_parents commit) (decodeUTF8String value)
                   (cr_committer commit) (cr_message commit)
  else if jsstring_eqb key (js "committer") then
    mkCommitRecord (cr_tree commit) (cr_parents commit) (cr_author commit)
                   (decodeUTF8String value) (cr_message commit)
  else commit.

(** The loop over the lines: it stops after the first empty line and
    gives the index where the message starts, which stays 0 when no line
    is empty. *)
Fixpoint parseHeader (lines : list jsstring) (i : nat) (commit : commitRecord)
    : commitRecord * nat :=
  match lines with
  | [] => (commit, 0%nat)
  | [] :: _ => (commit, S i)
  | line :: lines' => parseHeader lines' (S i) (headerLine line commit)
  end.

(** [Git.parseCommit] *)
Definition parseCommit (o : object) : commitRecord :=
  let lines := split 10 (contentText (obj_content o)) in
  let parsed := parseHeader lines 0 (mkCommitRecord [] [] [] [] []) in
  let commit := fst parsed in
  let messageStart := snd parsed in
  mkCommitRecord (cr_tree commit) (cr_parents commit) (cr_author commit)
                 (cr_committer commit)
                 (decodeUTF8String (join [10] (skipn messageStart lines))).

End ParsingCommits.

(** A text of ASCII characters on one line. *)
Definition asciiLine (s : jsstring) : Prop :=
  Forall (fun c => c < 128 /\ c <> 10) s.

(** A string on one line. *)
Definition oneLine (s : jsstring) : Prop :=
  Forall (fun c => c < 65536 /\ c <> 10) s.

(** A commit of the nested sample tree on top of one parent. *)
Definition sampleCommit : commitInput :=
  mkCommitInput nestedInput [sampleId] (js "me <me@zeroid.bit> 0 +0000")
                (js "me <me@zeroid.bit> 0 +0000") (js "update README").

(** * Properties *)

(** ** Basic facts about strings and arrays *)

Ltac bool_to_prop :=
  repeat first
    [ rewrite orb_true_iff | rewrite andb_true_iff | rewrite orb_false_iff
    | rewrite andb_false_iff | rewrite N.leb_le | rewrite N.ltb_lt
    | rewrite N.eqb_eq | rewrite N.leb_gt | rewrite N.ltb_ge
    | rewrite N.eqb_neq ].

Ltac bool_to_prop_in H :=
  repeat first
    [ rewrite orb_true_iff in H | rewrite andb_true_iff in H
    | rewrite orb_false_iff in H | rewrite andb_false_iff in H
    | rewrite N.leb_le in H | rewrite N.ltb_lt in H
    | rewrite N.eqb_eq in H | rewrite N.leb_gt in H | rewrite N.ltb_ge in H
    | rewrite N.eqb_neq in H ].

Lemma toUint16_code_unit c : c < 65536 -> toUint16 (VNum (Z.of_N c)) = c.
Proof.
  intros Hc. unfold toUint16. rewrite Z.mod_small by lia. apply N2Z.id.
Qed.

Lemma toUint8_byte b : b < 256 -> toUint8 (VNum (Z.of_N b)) = b.
Proof.
  intros Hb. unfold toUint8. rewrite Z.mod_small by lia. apply N2Z.id.
Qed.

Lemma arrayToString_stringToArray s :
  Forall (fun c => c < 65536) s -> arrayToString (stringToArray s) = s.
Proof.
  unfold arrayToString, stringToArray.
  induction 1 as [|c s Hc _ IH]; cbn [List.map].
  - reflexivity.
  - rewrite toUint16_code_unit by assumption. now rewrite IH.
Qed.

Lemma arrayToString_ofBytes bs :
  Forall (fun b => b < 256) bs -> arrayToString (ofBytes bs) = bs.
Proof.
  intros H. apply arrayToString_stringToArray.
  eapply List.Forall_impl; [|exact H]. simpl. intros; lia.
Qed.

Lemma toUint8_ofBytes bs :
  Forall (fun b => b < 256) bs -> List.map toUint8 (ofBytes bs) = bs.
Proof.
  unfold ofBytes. induction 1 as [|b bs Hb _ IH]; cbn [List.map].
  - reflexivity.
  - rewrite toUint8_byte by assumption. now rewrite IH.
Qed.

Lemma map_mod_256_bytes bs :
  Forall (fun b => b < 256) bs -> List.map (fun c => c mod 256) bs = bs.
Proof.
  induction 1 as [|b bs Hb _ IH]; cbn [List.map].
  - reflexivity.
  - rewrite N.mod_small by assumption. now rewrite IH.
Qed.

Lemma trimStart_head c s : isWhiteSpace c = false -> trimStart (c :: s) = c :: s.
Proof. intros H. simpl. now rewrite H. Qed.

Lemma trimStart_no_space s :
  Forall (fun c => isWhiteSpace c = false) s -> trimStart s = s.
Proof. destruct 1; [reflexivity | now apply trimStart_head]. Qed.

Lemma trim_no_space s :
  Forall (fun c => isWhiteSpace c = false) s -> trim s = s.
Proof.
  intros H. unfold trim, trimEnd. rewrite (trimStart_no_space s H).
  rewrite trimStart_no_space.
  - apply rev_involutive.
  - apply List.Forall_forall. intros c Hc. apply in_rev in Hc.
    rewrite List.Forall_forall in H. now apply H.
Qed.

Lemma isHexChar_byte c : isHexChar c = true -> c < 128.
Proof. unfold isHexChar. bool_to_prop. lia. Qed.

Lemma isHexChar_not_space c : isHexChar c = true -> isWhiteSpace c = false.
Proof.
  unfold isHexChar, isWhiteSpace. intros H. bool_to_prop_in H.
  bool_to_prop. lia.
Qed.

Lemma isSha_chars str : isSha str = true -> Forall (fun c => isHexChar c = true) str.
Proof.
  unfold isSha. rewrite andb_true_iff, forallb_forall, List.Forall_forall. tauto.
Qed.

Lemma isSha_length str : isSha str = true -> length str = 40%nat.
Proof.
  unfold isSha. rewrite andb_true_iff, Nat.eqb_eq. tauto.
Qed.

Lemma isSha_not_symbolic str : isSha str = true -> startsWith (js "ref:") str = false.
Proof.
  intros H. pose proof (isSha_chars _ H) as Hc. pose proof (isSha_length _ H) as Hl.
  destruct str as [|c str]; [discriminate|].
  inversion Hc as [|? ? Hh _]; subst.
  change (js "ref:") with [114; 101; 102; 58]. cbn [startsWith].
  apply andb_false_intro1. unfold isHexChar in Hh. bool_to_prop_in Hh.
  apply N.eqb_neq. lia.
Qed.

Lemma split_nonempty sep s : split sep s <> [].
Proof.
  destruct s as [|c s]; cbn [split]; [discriminate|].
  destruct (c =? sep); [discriminate|]. destruct (split sep s); discriminate.
Qed.

Lemma split_at_separator sep a : forall b,
  split sep (a ++ sep :: b) = split sep a ++ split sep b.
Proof.
  induction a as [|c a IH]; intros b; cbn [app split].
  - now rewrite N.eqb_refl.
  - destruct (c =? sep); [now rewrite IH|].
    rewrite IH. destruct (split sep a) as [|piece pieces] eqn:Hsplit.
    + now apply split_nonempty in Hsplit.
    + reflexivity.
Qed.

Lemma split_pieces sep s :
  Forall (fun piece => ~ In sep piece) (split sep s).
Proof.
  induction s as [|c s IH]; cbn [split].
  - repeat constructor. intros [].
  - destruct (N.eqb_spec c sep) as [->|Hne].
    + constructor; [intros [] | exact IH].
    + destruct (split sep s) as [|piece pieces]; [repeat constructor; intros [H|[]]; congruence|].
      inversion IH as [|? ? Hpiece Hrest]; subst.
      constructor; [|assumption]. intros [H|H]; [congruence | now apply Hpiece].
Qed.

Lemma split_whole sep s : ~ In sep s -> split sep s = [s].
Proof.
  induction s as [|c s IH]; intros Hnot; [reflexivity|]. cbn [split].
  destruct (N.eqb_spec c sep) as [->|Hne]; [exfalso; apply Hnot; now left|].
  rewrite IH; [reflexivity|]. intros H. apply Hnot. now right.
Qed.

Lemma readFile_stored g path stored :
  files (zeroPage g) !! fullPath g path = Some stored ->
  Forall (fun c => c < 256) stored ->
  readFile g path = Ok stored
  /\ arrayToString (ofBytes stored) = stored.
Proof.
  intros Hfile Hbytes. unfold readFile, zeroPage_readFile. rewrite Hfile.
  rewrite map_mod_256_bytes by assumption. split; [reflexivity|].
  now apply arrayToString_ofBytes.
Qed.

(** ** Hashing (C1) *)

(** C1 (evaluation of the code): writing the blob ["hello\n"] returns the
    fixed string that [sha] returns for every input, which is not the
    content hash the specification names; the id does not depend on the
    bytes hashed. *)
Theorem writeObject_hello_returns_placeholder :
  forall g : Git,
    (exists g', writeObject (js "blob") helloBlob g = Ret (js "placeholder_sha") g')
    /\ js "placeholder_sha" <> js "ce013625030ba8dba906f756967f9e9ca394464"
    /\ forall data, sha data = js "placeholder_sha".
Proof.
  intros g. split; [|split].
  - eexists. reflexivity.
  - intros H. apply (f_equal (@length N)) in H. vm_compute in H. discriminate.
  - reflexivity.
Qed.

(** Two different blobs get the same id and the same path: the second
    write replaces the first object. *)
Example writeBlob_ids_collide :
  resultOf (writeBlob helloBlob emptyGit)
  = resultOf (writeBlob (stringToArray (js "Git Center")) emptyGit)
  /\ resultOf
       (readUnknownObject 0 (js "placeholder_sha")
          (stateAfter emptyGit
             (writeBlob (stringToArray (js "Git Center"))
                (stateAfter emptyGit (writeBlob helloBlob emptyGit)))))
     = Ok (mkObject (js "blob") (Arr (stringToArray (js "Git Center")))
                    (js "placeholder_sha")).
Proof. split; vm_compute; reflexivity. Qed.

(** ** Direct refs (C10) *)

Lemma sha_code_units str :
  isSha str = true -> Forall (fun c => c < 65536) str.
Proof.
  intros H. eapply List.Forall_impl; [|exact (isSha_chars _ H)].
  simpl. intros c Hc. apply isHexChar_byte in Hc. lia.
Qed.

Lemma sha_bytes str : isSha str = true -> Forall (fun c => c < 256) str.
Proof.
  intros H. eapply List.Forall_impl; [|exact (isSha_chars _ H)].
  simpl. intros c Hc. apply isHexChar_byte in Hc. lia.
Qed.

Lemma sha_trim str : isSha str = true -> trim str = str.
Proof.
  intros H. apply trim_no_space.
  eapply List.Forall_impl; [|exact (isSha_chars _ H)].
  apply isHexChar_not_space.
Qed.

Lemma readFile_after_writeFile g path content :
  forall g', writeFile path content g = Ret tt g' ->
  readFile g' path = Ok (List.map (fun c => c mod 256) (List.map toUint16 content)).
Proof.
  intros g' H. unfold writeFile in H. injection H as <-.
  unfold readFile, zeroPage_readFile, zeroPage_writeFile, fullPath. simpl.
  now rewrite lookup_insert_eq.
Qed.

(** C10: after [setRef(ref, id)] with a 40-character lowercase hexadecimal
    id, [getRef(ref)] returns exactly that id, with no further hop. *)
Theorem setRef_getRef_roundtrip (fuel : nat) (g : Git) (ref commit : jsstring) :
  isSha commit = true ->
  exists g', setRef ref commit g = Ret tt g' /\ getRef (S fuel) g' ref = Ok commit.
Proof.
  intros Hsha. eexists. split; [reflexivity|].
  cbn [getRef]. erewrite readFile_after_writeFile by reflexivity.
  fold (arrayToString (stringToArray commit)).
  rewrite (arrayToString_stringToArray commit (sha_code_units _ Hsha)).
  rewrite (map_mod_256_bytes commit (sha_bytes _ Hsha)).
  rewrite (arrayToString_ofBytes commit (sha_bytes _ Hsha)).
  rewrite (sha_trim _ Hsha), (isSha_not_symbolic _ Hsha). reflexivity.
Qed.

Lemma setRef_getRef_roundtrip_witness :
  exists g', setRef (js "refs/heads/master") sampleId emptyGit = Ret tt g'
             /\ getRef 1 g' (js "refs/heads/master") = Ok sampleId.
Proof.
  apply (setRef_getRef_roundtrip 0 emptyGit (js "refs/heads/master") sampleId).
  reflexivity.
Defined.

(** ** Symbolic refs (C2) *)

Lemma refChain_not_Diverge g ref n r : refChain g ref n r -> r <> Diverge.
Proof. induction 1; congruence. Qed.

Lemma getRef_of_chain g ref n r :
  refChain g ref n r -> forall fuel, (n < fuel)%nat -> getRef fuel g ref = r.
Proof.
  induction 1 as [ref e Hread | ref content Hread Hdirect
                 | ref content n r Hread Hsym _ IH]; intros fuel Hfuel;
    (destruct fuel as [|fuel]; [lia|]); cbn [getRef]; rewrite Hread.
  - reflexivity.
  - now rewrite Hdirect.
  - rewrite Hsym. apply IH. lia.
Qed.

Lemma chain_of_getRef fuel : forall g ref r,
  getRef fuel g ref = r -> r <> Diverge ->
  exists n, (n < fuel)%nat /\ refChain g ref n r.
Proof.
  induction fuel as [|fuel IH]; intros g ref r Hget Hr; cbn [getRef] in Hget.
  - congruence.
  - destruct (readFile g ref) as [content|e|] eqn:Hread.
    + destruct (startsWith (js "ref:") (trim (arrayToString (ofBytes content))))
        eqn:Hsym.
      * destruct (IH _ _ _ Hget Hr) as (n & Hn & Hchain).
        exists (S n). split; [lia|]. eapply chain_hop; eassumption.
      * subst r. exists 0%nat. split; [lia|]. now apply chain_direct.
    + subst r. exists 0%nat. split; [lia|]. eapply chain_missing; eassumption.
    + unfold readFile in Hread. destruct (zeroPage_readFile _ _); discriminate.
Qed.

(** Once [getRef] has settled, more fuel does not change its answer. *)
Corollary getRef_fuel_monotone fuel fuel' g ref r :
  getRef fuel g ref = r -> r <> Diverge -> (fuel <= fuel')%nat ->
  getRef fuel' g ref = r.
Proof.
  intros Hget Hr Hle. destruct (chain_of_getRef fuel g ref r Hget Hr) as (n & Hn & Hchain).
  apply (getRef_of_chain g ref n r Hchain). lia.
Qed.

(** C2 (amended): [getRef] follows symbolic refs with no bound on the
    number of hops and no record of the names seen.  With enough fuel it
    returns [r] exactly when the chain from [ref] reaches, after some
    number of hops, a file with direct content ([r] is that content,
    trimmed) or a name without a file ([r] is the error naming it). *)
Theorem getRef_follows_chain (fuel : nat) (g : Git) (ref : jsstring) (r : res jsstring) :
  (exists n, (n < fuel)%nat /\ refChain g ref n r)
  <-> (getRef fuel g ref = r /\ r <> Diverge).
Proof.
  split.
  - intros (n & Hn & Hchain). split.
    + eapply getRef_of_chain; eassumption.
    + eapply refChain_not_Diverge; eassumption.
  - intros [Hget Hr]. eapply chain_of_getRef; eassumption.
Qed.

(** A chain of twelve hops, longer than any small bound, resolves. *)
Example getRef_twelve_hops : getRef 13 longChainGit (hopName 0) = Ok sampleId.
Proof. vm_compute. reflexivity. Qed.

Lemma getRef_self_reference_step fuel :
  getRef (S fuel) selfRefGit (js "refs/heads/loop")
  = getRef fuel selfRefGit (js "refs/heads/loop").
Proof.
  cbn [getRef].
  replace (readFile selfRefGit (js "refs/heads/loop"))
    with (@Ok (list N) (js "ref: refs/heads/loop")) by (vm_compute; reflexivity).
  replace (trim (arrayToString (ofBytes (js "ref: refs/heads/loop"))))
    with (js "ref: refs/heads/loop") by (vm_compute; reflexivity).
  replace (startsWith (js "ref:") (js "ref: refs/heads/loop")) with true
    by (vm_compute; reflexivity).
  replace (trim (substr 4 (js "ref: refs/heads/loop")))
    with (js "refs/heads/loop") by (vm_compute; reflexivity).
  reflexivity.
Qed.

(** C2 (counterexample): on a ref whose content points at itself, no
    amount of fuel makes [getRef] settle, neither with a value nor with an
    error. *)
Lemma getRef_self_reference_never_settles :
  ~ exists fuel, getRef fuel selfRefGit (js "refs/heads/loop") <> Diverge.
Proof.
  intros [fuel H]. apply H. clear H.
  induction fuel as [|fuel IH]; [reflexivity|].
  now rewrite getRef_self_reference_step.
Qed.

(** ** The friendly entry point (C5) *)

(** C5 (amended): a full hexadecimal id is returned unchanged whatever the
    store holds; the empty name is replaced by the branch that [HEAD]
    names; any other name is resolved as [refs/heads/<name>], then as
    [refs/tags/<name>], and when both fail the call fails with
    [CouldNotFindBranch]: the packed-ref table is not consulted. *)
Theorem getBranchCommit_resolution (fuel : nat) (g : Git) (branch : jsstring) :
  (isSha branch = true -> getBranchCommit fuel g branch = Ok branch)
  /\ (isSha branch = false -> branch = [] ->
      getBranchCommit (S fuel) g branch
      = match getHead g with
        | Ok head => getBranchCommit fuel g head
        | Err e => Err e
        | Diverge => Diverge
        end)
  /\ (isSha branch = false -> branch <> [] ->
      (forall v, getRef fuel g (js "refs/heads/" ++ branch) = Ok v ->
                 getBranchCommit (S fuel) g branch = Ok v)
      /\ (forall e v, getRef fuel g (js "refs/heads/" ++ branch) = Err e ->
                      getRef fuel g (js "refs/tags/" ++ branch) = Ok v ->
                      getBranchCommit (S fuel) g branch = Ok v)
      /\ (forall e e', getRef fuel g (js "refs/heads/" ++ branch) = Err e ->
                       getRef fuel g (js "refs/tags/" ++ branch) = Err e' ->
                       getBranchCommit (S fuel) g branch
                       = Err (CouldNotFindBranch branch)))
  /\ (isSha branch = false -> branch <> [] ->
      files (zeroPage g) !! fullPath g (js "refs/heads/" ++ branch) = None ->
      files (zeroPage g) !! fullPath g (js "refs/tags/" ++ branch) = None ->
      getBranchCommit (S (S fuel)) g branch = Err (CouldNotFindBranch branch)).
Proof.
  split; [|split; [|split]].
  - intros Hsha. destruct fuel; cbn [getBranchCommit]; now rewrite Hsha.
  - intros Hsha ->. cbn [getBranchCommit]. now rewrite Hsha.
  - intros Hsha Hne. destruct branch as [|c branch]; [congruence|].
    cbn [getBranchCommit]. rewrite Hsha.
    repeat split.
    + intros v ->. reflexivity.
    + intros e v -> ->. reflexivity.
    + intros e e' -> ->. reflexivity.
  - intros Hsha Hne Hheads Htags. destruct branch as [|c branch]; [congruence|].
    cbn [getBranchCommit getRef]. rewrite Hsha.
    unfold readFile, zeroPage_readFile. now rewrite Hheads, Htags.
Qed.

(** C5 (counterexample): branch [main] is listed in the packed-ref table
    and has no loose file; the listing shows it, the resolution fails. *)
Lemma getBranchCommit_skips_packed_refs :
  In (js "refs/heads/main") (getRefList packedOnlyGit)
  /\ getBranchCommit 2 packedOnlyGit (js "main")
     = Err (CouldNotFindBranch (js "main")).
Proof. split; vm_compute; auto. Qed.

(** ** Publishing a commit (C8) *)

(** C8 (amended): the publish step of [saveFile] is not a
    compare-and-set.  It takes no expected parent and reads nothing: it
    is the one write of the new commit id to the ref file.  Over a store
    that accepts the write, the ref file holds the new commit id
    afterwards whatever it held before, and no other file changes. *)
Theorem saveFilePublish_unconditional (g : Git) (branch commitId : jsstring) :
  saveFilePublish branch commitId g
  = writeFile (js "refs/heads/" ++ branch) (stringToArray commitId) g
  /\ exists g',
       saveFilePublish branch commitId g = Ret tt g'
       /\ files (zeroPage g') !! fullPath g (js "refs/heads/" ++ branch)
          = Some (arrayToString (stringToArray commitId))
       /\ (forall path, path <> fullPath g (js "refs/heads/" ++ branch) ->
                        files (zeroPage g') !! path = files (zeroPage g) !! path).
Proof.
  split; [reflexivity|].
  eexists. split; [reflexivity|]. cbn. split.
  - now rewrite lookup_insert_eq.
  - intros path Hne. now rewrite lookup_insert_ne.
Qed.

(** C8 (counterexample): [saveFile] reads the parent [sampleId] and writes
    its commit; another writer then moves the branch to [otherId]; the
    publish step, its write accepted, still returns normally and replaces
    the branch.  No conflict is raised and the ref does not keep its
    value. *)
Lemma saveFilePublish_overwrites_moved_ref :
  resultOf racePrepare = Ok (sampleId, raceCommitId)
  /\ getRef 1 raceMovedGit (js "refs/heads/master") = Ok otherId
  /\ otherId <> sampleId
  /\ resultOf racePublish = Ok tt
  /\ getRef 1 (stateAfter raceMovedGit racePublish) (js "refs/heads/master")
     = Ok raceCommitId
  /\ raceCommitId <> otherId.
Proof.
  split; [vm_compute; reflexivity|].
  split; [vm_compute; reflexivity|].
  split; [vm_compute; discriminate|].
  split; [vm_compute; reflexivity|].
  split; [vm_compute; reflexivity|].
  vm_compute; discriminate.
Qed.

(** ** Listing refs (C9) *)

Lemma includes_In x l : includes x l = true <-> In x l.
Proof.
  unfold includes, jsstring_eqb. rewrite existsb_exists. split.
  - intros (y & Hy & Heq). apply bool_decide_eq_true in Heq. now subst.
  - intros H. exists x. split; [assumption|]. now apply bool_decide_eq_true.
Qed.

Lemma addPackedRefs_extends lines : forall refs,
  exists extra,
    addPackedRefs lines refs = refs ++ extra
    /\ List.NoDup extra
    /\ (forall r, In r extra -> ~ In r refs)
    /\ (forall r, In r extra -> In r (packedNamesOf lines))
    /\ (forall r, In r (packedNamesOf lines) -> In r refs \/ In r extra).
Proof.
  induction lines as [|line lines IH]; intros refs; cbn [addPackedRefs packedNamesOf flat_map].
  - exists []. rewrite app_nil_r.
    split; [reflexivity|]. split; [constructor|].
    repeat split; intros r [].
  - fold (packedNamesOf lines). destruct (packedRefOfLine line) as [ref|].
    + destruct (includes ref refs) eqn:Hinc.
      * destruct (IH refs) as (extra & -> & Hnd & Hfresh & Hsub & Hcov).
        exists extra. repeat split; auto.
        -- intros r Hr. apply in_or_app. right. now apply Hsub.
        -- intros r Hr. apply in_app_or in Hr as [[<-|[]]|Hr].
           ++ left. now apply includes_In.
           ++ now apply Hcov.
      * destruct (IH (refs ++ [ref])) as (extra & -> & Hnd & Hfresh & Hsub & Hcov).
        exists (ref :: extra). rewrite <- app_assoc. repeat split; auto.
        -- apply List.NoDup_cons; [|assumption].
           intros Hr. apply (Hfresh ref Hr). apply in_or_app. right. now left.
        -- intros r [<-|Hr] Hin.
           ++ apply includes_In in Hin. congruence.
           ++ apply (Hfresh r Hr). apply in_or_app. now left.
        -- intros r [<-|Hr]; apply in_or_app; [left; now left | right; now apply Hsub].
        -- intros r Hr. apply in_app_or in Hr as [[<-|[]]|Hr].
           ++ right. now left.
           ++ destruct (Hcov r Hr) as [Hin|Hin]; [|right; now right].
              apply in_app_or in Hin as [Hin|[<-|[]]]; [now left | right; now left].
    + destruct (IH refs) as (extra & -> & Hnd & Hfresh & Hsub & Hcov).
      exists extra. repeat split; auto.
Qed.

Lemma split_join sep parts :
  Forall (fun part => ~ In sep part) parts ->
  split sep (join [sep] parts) = match parts with [] => [[]] | _ => parts end.
Proof.
  induction 1 as [|part parts Hpart Hparts IH]; [reflexivity|].
  destruct parts as [|part' parts'].
  - cbn [join]. now apply split_whole.
  - change (join [sep] (part :: part' :: parts'))
      with (part ++ sep :: join [sep] (part' :: parts')).
    rewrite split_at_separator, IH, split_whole by assumption. reflexivity.
Qed.

Lemma join_bytes sep parts :
  Forall (fun c => c < 256) sep ->
  Forall (Forall (fun c => c < 256)) parts ->
  Forall (fun c => c < 256) (join sep parts).
Proof.
  intros Hsep. induction 1 as [|part parts Hpart Hparts IH]; [constructor|].
  destruct parts as [|part' parts']; [exact Hpart|].
  change (join sep (part :: part' :: parts'))
    with (part ++ sep ++ join sep (part' :: parts')).
  apply Forall_app. split; [exact Hpart|]. apply Forall_app. now split.
Qed.

Lemma trimStart_keeps c : forall s,
  In c s -> isWhiteSpace c = false -> In c (trimStart s).
Proof.
  induction s as [|a s IH]; intros Hin Hc; [destruct Hin|]. cbn [trimStart].
  destruct (isWhiteSpace a) eqn:Ha; [|exact Hin].
  destruct Hin as [->|Hin]; [congruence | now apply IH].
Qed.

Lemma trim_keeps c s : In c s -> isWhiteSpace c = false -> In c (trim s).
Proof.
  intros Hin Hc. unfold trim, trimEnd. apply in_rev. rewrite rev_involutive.
  apply trimStart_keeps; [|exact Hc]. apply -> in_rev. now apply trimStart_keeps.
Qed.

Lemma wordb_spec s :
  wordb s = true ->
  s <> [] /\ Forall (fun c => isWhiteSpace c = false /\ c < 256) s.
Proof.
  unfold wordb. intros H. apply andb_true_iff in H as [Hlen Hall]. split.
  - intros ->. discriminate.
  - apply List.Forall_forall. intros c Hc. rewrite forallb_forall in Hall.
    specialize (Hall c Hc). apply andb_true_iff in Hall as [Hw Hb].
    apply negb_true_iff in Hw. apply N.ltb_lt in Hb. now split.
Qed.

Lemma word_free c s :
  isWhiteSpace c = true ->
  Forall (fun c => isWhiteSpace c = false /\ c < 256) s -> ~ In c s.
Proof.
  intros Hc Hs Hin. rewrite List.Forall_forall in Hs.
  destruct (Hs c Hin) as [Hw _]. congruence.
Qed.

(** An entry line gives its name; a comment, a peeled id or a blank line
    gives nothing. *)
Lemma packedRefOfLine_line l :
  packedLineb l = true ->
  packedRefOfLine (packedFileLine l)
  = match l with EntryLine _ name => Some name | _ => None end.
Proof.
  destruct l as [text|id name|id|]; cbn [packedLineb packedFileLine]; intros Hl.
  - unfold packedRefOfLine. change (startsWith (js "#") (js "#" ++ text)) with true.
    now destruct (trim (js "#" ++ text)).
  - apply andb_true_iff in Hl as [Hl Hname]. apply andb_true_iff in Hl as [Hid Hmark].
    apply negb_true_iff in Hmark.
    apply wordb_spec in Hid as [Hid Hidw]. apply wordb_spec in Hname as [Hname Hnamew].
    destruct id as [|c id]; [congruence|]. destruct name as [|d name]; [congruence|].
    unfold packedRefOfLine.
    assert (Hc : isWhiteSpace c = false) by (inversion Hidw as [|? ? [H _] _]; exact H).
    assert (Htrim : In c (trim ((c :: id) ++ js " " ++ d :: name)))
      by (apply trim_keeps; [now left | exact Hc]).
    destruct (trim ((c :: id) ++ js " " ++ d :: name)) as [|t ts]; [destruct Htrim|].
    assert (Hstart : startsWith (js "#") ((c :: id) ++ js " " ++ d :: name) = false).
    { cbn in Hmark |- *. exact Hmark. }
    rewrite Hstart.
    change ((c :: id) ++ js " " ++ d :: name) with ((c :: id) ++ 32 :: d :: name).
    rewrite split_at_separator.
    rewrite (split_whole 32 (c :: id)) by (now apply word_free).
    rewrite (split_whole 32 (d :: name)) by (now apply word_free).
    reflexivity.
  - apply wordb_spec in Hl as [Hid Hidw]. unfold packedRefOfLine.
    rewrite (split_whole 32 (js "^" ++ id)).
    + now destruct (trim (js "^" ++ id)), (startsWith (js "#") (js "^" ++ id)).
    + intros [H|H]; [discriminate|]. revert H. now apply word_free.
  - reflexivity.
Qed.

Lemma packedFileLine_chars l :
  packedLineb l = true ->
  ~ In 10 (packedFileLine l) /\ Forall (fun c => c < 256) (packedFileLine l).
Proof.
  assert (Hword : forall s, wordb s = true ->
            ~ In 10 s /\ Forall (fun c => c < 256) s).
  { intros s Hs. apply wordb_spec in Hs as [_ Hs]. split.
    - now apply word_free.
    - eapply List.Forall_impl; [|exact Hs]. cbn. tauto. }
  destruct l as [text|id name|id|]; cbn [packedLineb packedFileLine]; intros Hl.
  - assert (Htext : Forall (fun c => c <> 10 /\ c < 256) text).
    { apply List.Forall_forall. intros c Hc. rewrite forallb_forall in Hl.
      specialize (Hl c Hc). apply andb_true_iff in Hl as [Hn Hb].
      apply negb_true_iff, N.eqb_neq in Hn. apply N.ltb_lt in Hb. now split. }
    split.
    + intros [H|H]; [discriminate|]. rewrite List.Forall_forall in Htext.
      now destruct (Htext 10 H).
    + constructor; [reflexivity|]. eapply List.Forall_impl; [|exact Htext]. cbn. tauto.
  - apply andb_true_iff in Hl as [Hl Hname]. apply andb_true_iff in Hl as [Hid _].
    destruct (Hword id Hid) as [Hid1 Hid2]. destruct (Hword name Hname) as [Hn1 Hn2].
    split.
    + rewrite in_app_iff. intros [H|[H|H]]; [tauto | discriminate | tauto].
    + apply Forall_app. split; [exact Hid2|]. constructor; [reflexivity | exact Hn2].
  - destruct (Hword id Hl) as [H1 H2]. split.
    + intros [H|H]; [discriminate | tauto].
    + constructor; [reflexivity | exact H2].
  - split; [intros [] | constructor].
Qed.

Lemma packedNamesOf_table table :
  forallb packedLineb table = true ->
  packedNamesOf (split 10 (packedFile table)) = packedTableNames table
  /\ Forall (fun c => c < 256) (packedFile table).
Proof.
  intros Htable. rewrite forallb_forall in Htable. split.
  - unfold packedFile. rewrite split_join.
    + assert (Hlines : packedNamesOf (List.map packedFileLine table)
                       = packedTableNames table).
      { clear -Htable. induction table as [|l table IH]; [reflexivity|].
        cbn [List.map packedNamesOf packedTableNames flat_map].
        fold (packedNamesOf (List.map packedFileLine table)).
        fold (packedTableNames table).
        rewrite (packedRefOfLine_line l) by (apply Htable; now left).
        rewrite IH by (intros l' Hl'; apply Htable; now right).
        now destruct l. }
      destruct table; [reflexivity | exact Hlines].
    + apply List.Forall_forall. intros line Hline.
      apply in_map_iff in Hline as (l & <- & Hl).
      now apply packedFileLine_chars, Htable.
  - apply join_bytes; [repeat constructor|].
    apply List.Forall_forall. intros line Hline.
    apply in_map_iff in Hline as (l & <- & Hl).
    now apply packedFileLine_chars, Htable.
Qed.

Lemma packedTableNames_In table r :
  In r (packedTableNames table) <-> exists id, In (EntryLine id r) table.
Proof.
  unfold packedTableNames. rewrite in_flat_map. split.
  - intros (l & Hl & Hr). destruct l as [text|id name|id|]; cbn in Hr; try tauto.
    destruct Hr as [<-|[]]. now exists id.
  - intros (id & Hin). exists (EntryLine id r). split; [exact Hin | now left].
Qed.



(** ** Framing of tree entries *)

Lemma skipn_length_app {A} (p rest : list A) : skipn (length p) (p ++ rest) = rest.
Proof. induction p as [|x p IH]; [reflexivity | exact IH]. Qed.

Lemma firstn_length_app {A} (a rest : list A) : firstn (length a) (a ++ rest) = a.
Proof. induction a as [|x a IH]; [reflexivity | cbn; now rewrite IH]. Qed.

Lemma indexOfFrom_found x a post i :
  Forall (fun v => isNumber x v = false) a ->
  indexOfFrom x (a ++ VNum x :: post) i = (i + Z.of_nat (length a))%Z.
Proof.
  intros H. revert i. induction H as [|v a Hv _ IH]; intros i; cbn [indexOfFrom app length].
  - unfold isNumber. rewrite Z.eqb_refl. lia.
  - rewrite Hv, IH. lia.
Qed.

Lemma indexOf_found x p a post :
  Forall (fun v => isNumber x v = false) a ->
  indexOf x (p ++ a ++ VNum x :: post) (Z.of_nat (length p))
  = (Z.of_nat (length p) + Z.of_nat (length a))%Z.
Proof.
  intros H. unfold indexOf.
  replace (Z.of_nat (length p) <? 0)%Z with false by (symmetry; apply Z.ltb_ge; lia).
  rewrite Nat2Z.id, skipn_length_app. now apply indexOfFrom_found.
Qed.

Lemma slice_middle {A} (p a post : list A) :
  slice (p ++ a ++ post) (Z.of_nat (length p))
        (Z.of_nat (length p) + Z.of_nat (length a)) = a.
Proof.
  unfold slice, relativeIndex. rewrite !length_app.
  replace (Z.of_nat (length p) <? 0)%Z with false by (symmetry; apply Z.ltb_ge; lia).
  replace (Z.of_nat (length p) + Z.of_nat (length a) <? 0)%Z with false
    by (symmetry; apply Z.ltb_ge; lia).
  rewrite !Z.min_l by lia.
  replace (Z.to_nat (Z.of_nat (length p) + Z.of_nat (length a) - Z.of_nat (length p)))
    with (length a) by lia.
  rewrite Nat2Z.id, skipn_length_app. apply firstn_length_app.
Qed.

Lemma ofBytes_app a b : ofBytes (a ++ b) = ofBytes a ++ ofBytes b.
Proof. apply List.map_app. Qed.

Lemma ofBytes_length a : length (ofBytes a) = length a.
Proof. apply List.length_map. Qed.

Lemma ofBytes_without x bs :
  Forall (fun b => b <> x) bs ->
  Forall (fun v => isNumber (Z.of_N x) v = false) (ofBytes bs).
Proof.
  unfold ofBytes. induction 1 as [|b bs Hb _ IH]; cbn [List.map]; constructor.
  - cbn. apply Z.eqb_neq. lia.
  - exact IH.
Qed.

(** One turn of the loop of [parseTree] over a well-framed entry: a mode
    without a space, a name without a zero byte and twenty id bytes. *)
Lemma parseTreeLoop_entry fuel p mode name idArr post items :
  Forall (fun b => b <> 32) mode ->
  Forall (fun b => b <> 0) name ->
  length idArr = 20%nat ->
  let entry := ofBytes mode ++ VNum 32 :: ofBytes name ++ VNum 0 :: idArr in
  parseTreeLoop (S fuel) (p ++ entry ++ post) (Z.of_nat (length p)) items
  = parseTreeLoop fuel (p ++ entry ++ post) (Z.of_nat (length (p ++ entry)))
      (items ++ [mkItem (typeOfMode (arrayToString (ofBytes mode)))
                        (decodeUTF8 (ofBytes name)) (unpackSha idArr)]).
Proof.
  intros Hmode Hname Hid entry. cbn [parseTreeLoop].
  assert (Hlen : length entry = (length mode + 1 + (length name + 1 + 20))%nat).
  { unfold entry. rewrite length_app. cbn [length]. rewrite length_app. cbn [length].
    rewrite !ofBytes_length, Hid. lia. }
  replace (Z.of_nat (length p) <? Z.of_nat (length (p ++ entry ++ post)))%Z with true
    by (symmetry; apply Z.ltb_lt; rewrite !length_app; lia).
  (* the space that ends the mode *)
  assert (E1 : p ++ entry ++ post
               = p ++ ofBytes mode ++ VNum 32 :: (ofBytes name ++ VNum 0 :: idArr ++ post)).
  { unfold entry. rewrite <- !app_assoc. cbn [app]. rewrite <- !app_assoc. reflexivity. }
  assert (Hspace : indexOf 32 (p ++ entry ++ post) (Z.of_nat (length p))
                   = (Z.of_nat (length p) + Z.of_nat (length (ofBytes mode)))%Z).
  { rewrite E1. apply (indexOf_found 32). now apply (ofBytes_without 32). }
  rewrite Hspace.
  assert (Hmodeslice : slice (p ++ entry ++ post) (Z.of_nat (length p))
                         (Z.of_nat (length p) + Z.of_nat (length (ofBytes mode)))
                       = ofBytes mode).
  { rewrite E1. apply slice_middle. }
  rewrite Hmodeslice.
  (* the zero byte that ends the name *)
  set (p1 := p ++ ofBytes mode ++ [VNum 32]).
  assert (E2 : p ++ entry ++ post = p1 ++ ofBytes name ++ VNum 0 :: (idArr ++ post)).
  { unfold p1, entry. rewrite <- !app_assoc. cbn [app]. rewrite <- !app_assoc. reflexivity. }
  assert (Hp1 : (Z.of_nat (length p) + Z.of_nat (length (ofBytes mode)) + 1)%Z
                = Z.of_nat (length p1)).
  { unfold p1. rewrite !length_app. cbn [length]. lia. }
  rewrite Hp1.
  assert (Hnull : indexOf 0 (p ++ entry ++ post) (Z.of_nat (length p1))
                  = (Z.of_nat (length p1) + Z.of_nat (length (ofBytes name)))%Z).
  { rewrite E2. apply (indexOf_found 0). now apply (ofBytes_without 0). }
  rewrite Hnull.
  assert (Hnameslice : slice (p ++ entry ++ post) (Z.of_nat (length p1))
                         (Z.of_nat (length p1) + Z.of_nat (length (ofBytes name)))
                       = ofBytes name).
  { rewrite E2. apply slice_middle. }
  rewrite Hnameslice.
  (* the twenty bytes of the id *)
  set (p2 := p1 ++ ofBytes name ++ [VNum 0]).
  assert (E3 : p ++ entry ++ post = p2 ++ idArr ++ post).
  { rewrite E2. unfold p2. rewrite <- !app_assoc. reflexivity. }
  assert (Hp2 : (Z.of_nat (length p1) + Z.of_nat (length (ofBytes name)) + 1)%Z
                = Z.of_nat (length p2)).
  { unfold p2. rewrite !length_app. cbn [length]. lia. }
  rewrite Hp2.
  assert (Hidslice : slice (p ++ entry ++ post) (Z.of_nat (length p2))
                       (Z.of_nat (length p2) + 20) = idArr).
  { rewrite E3. replace 20%Z with (Z.of_nat (length idArr)) by lia. apply slice_middle. }
  rewrite Hidslice.
  replace (Z.of_nat (length p2) + 20)%Z with (Z.of_nat (length (p ++ entry))).
  - reflexivity.
  - unfold p2, p1. rewrite !length_app. cbn [length].
    rewrite Hlen, !ofBytes_length. lia.
Qed.

Lemma parseTreeLoop_end fuel content pos items :
  (Z.of_nat (length content) <= pos)%Z ->
  parseTreeLoop fuel content pos items = Some items.
Proof.
  intros H. destruct fuel; cbn [parseTreeLoop];
    now replace (pos <? Z.of_nat (length content))%Z with false
      by (symmetry; apply Z.ltb_ge; lia).
Qed.

(** ** Modes of tree entries (C7) *)

(** C7 (amended): decoding a well-framed entry never fails on its mode.
    A mode that begins with [100] gives a blob, one that begins with [160]
    gives a submodule link, and every other mode string, whatever its
    prefix, gives a tree. *)
Theorem parseTree_mode_kinds (fuel : nat) (oid mode name idBytes : list N) :
  Forall (fun b => b < 256) mode ->
  Forall (fun b => b <> 32) mode ->
  Forall (fun b => b <> 0) name ->
  length idBytes = 20%nat ->
  exists it,
    parseTree (S fuel)
      (mkObject (js "tree") (Arr (ofBytes (mode ++ 32 :: name ++ 0 :: idBytes))) oid)
    = Some [it]
    /\ item_name it = decodeUTF8 (ofBytes name)
    /\ item_id it = unpackSha (ofBytes idBytes)
    /\ (startsWith (js "100") mode = true -> item_type it = js "blob")
    /\ (startsWith (js "100") mode = false -> startsWith (js "160") mode = true ->
        item_type it = js "submodule")
    /\ (startsWith (js "100") mode = false -> startsWith (js "160") mode = false ->
        item_type it = js "tree").
Proof.
  intros Hbytes Hmode Hname Hid.
  exists (mkItem (typeOfMode mode) (decodeUTF8 (ofBytes name)) (unpackSha (ofBytes idBytes))).
  split.
  - unfold parseTree. cbn [obj_content].
    pose proof (parseTreeLoop_entry fuel [] mode name (ofBytes idBytes) [] [] Hmode Hname)
      as Hstep.
    rewrite ofBytes_length in Hstep. specialize (Hstep Hid).
    cbn zeta in Hstep. cbn [app length] in Hstep. rewrite app_nil_r in Hstep.
    replace (ofBytes (mode ++ 32 :: name ++ 0 :: idBytes))
      with (ofBytes mode ++ VNum 32 :: ofBytes name ++ VNum 0 :: ofBytes idBytes)
      by (rewrite ofBytes_app; cbn; now rewrite ofBytes_app).
    change (Z.of_nat 0) with 0%Z in Hstep. rewrite Hstep.
    rewrite parseTreeLoop_end by lia.
    now rewrite (arrayToString_ofBytes mode Hbytes).
  - cbn [item_name item_id item_type]. unfold typeOfMode.
    repeat split.
    + now intros ->.
    + now intros -> ->.
    + now intros -> ->.
Qed.

Lemma parseTree_mode_kinds_witness :
  exists it,
    parseTree 1 (mkObject (js "tree")
                   (Arr (ofBytes (js "999999" ++ 32 :: js "x" ++ 0 :: List.repeat 171 20)))
                   sampleId)
    = Some [it]
    /\ item_name it = decodeUTF8 (ofBytes (js "x"))
    /\ item_id it = unpackSha (ofBytes (List.repeat 171 20))
    /\ (startsWith (js "100") (js "999999") = true -> item_type it = js "blob")
    /\ (startsWith (js "100") (js "999999") = false ->
        startsWith (js "160") (js "999999") = true -> item_type it = js "submodule")
    /\ (startsWith (js "100") (js "999999") = false ->
        startsWith (js "160") (js "999999") = false -> item_type it = js "tree").
Proof.
  apply (parseTree_mode_kinds 0 sampleId (js "999999") (js "x") (List.repeat 171 20)).
  - repeat constructor.
  - repeat (constructor; [discriminate|]). constructor.
  - repeat (constructor; [discriminate|]). constructor.
  - reflexivity.
Defined.

(** C7 (counterexample): an entry with mode [999999] is decoded, as a
    tree, and not rejected. *)
Lemma parseTree_accepts_unknown_mode :
  parseTree 1 oddModeTree
  = Some [mkItem (js "tree") (js "x") (js "abababababababababababababababababababab")].
Proof. vm_compute. reflexivity. Qed.

(** ** Object ids in binary and back *)

Lemma isHexChar_In c : isHexChar c = true -> In c hexChars.
Proof.
  unfold isHexChar. intros H. bool_to_prop_in H. unfold hexChars. cbn [In].
  assert (c = 48 \/ c = 49 \/ c = 50 \/ c = 51 \/ c = 52 \/ c = 53 \/ c = 54
          \/ c = 55 \/ c = 56 \/ c = 57 \/ c = 97 \/ c = 98 \/ c = 99 \/ c = 100
          \/ c = 101 \/ c = 102) as Hc by lia.
  intuition auto.
Qed.

Lemma hexPairCheck_all :
  forallb (fun a => forallb (hexPairCheck a) hexChars) hexChars = true.
Proof. vm_compute. reflexivity. Qed.

Lemma hexPair_roundtrip a b :
  isHexChar a = true -> isHexChar b = true ->
  exists n, n < 256 /\ parseInt16 [a; b] = VNum (Z.of_N n)
            /\ padStart2 (toString16 (VNum (Z.of_N n))) = [a; b].
Proof.
  intros Ha Hb. apply isHexChar_In in Ha, Hb.
  pose proof hexPairCheck_all as Hall. rewrite forallb_forall in Hall.
  specialize (Hall a Ha). rewrite forallb_forall in Hall. specialize (Hall b Hb).
  unfold hexPairCheck in Hall. destruct (parseInt16 [a; b]) as [z| |]; try discriminate.
  rewrite !andb_true_iff in Hall. destruct Hall as [[Hlo Hhi] Heq].
  apply Z.leb_le in Hlo. apply Z.ltb_lt in Hhi. apply bool_decide_eq_true in Heq.
  exists (Z.to_N z). rewrite Z2N.id by assumption. repeat split; [lia | assumption].
Qed.

Lemma packSha_hex n : forall id,
  length id = (2 * n)%nat ->
  Forall (fun c => isHexChar c = true) id ->
  exists bytes,
    packSha id = ofBytes bytes /\ length bytes = n
    /\ Forall (fun b => b < 256) bytes /\ unpackSha (ofBytes bytes) = id.
Proof.
  induction n as [|n IH]; intros id Hlen Hhex.
  - destruct id; [|discriminate]. exists []. repeat split. constructor.
  - destruct id as [|a [|b id]]; try (cbn in Hlen; lia).
    inversion Hhex as [|? ? Ha Hhex']; subst. inversion Hhex' as [|? ? Hb Hid]; subst.
    destruct (hexPair_roundtrip a b Ha Hb) as (byte & Hbyte & Hparse & Hprint).
    destruct (IH id) as (bytes & Hpack & Hn & Hbytes & Hunpack);
      [cbn in Hlen; lia | assumption |].
    exists (byte :: bytes). cbn [packSha]. rewrite Hparse, Hpack.
    repeat split.
    + cbn. now rewrite Hn.
    + now constructor.
    + unfold unpackSha in *. cbn [ofBytes List.map concat]. fold (ofBytes bytes).
      rewrite Hprint, Hunpack. reflexivity.
Qed.

Lemma packSha_sha id :
  isSha id = true ->
  exists bytes,
    packSha id = ofBytes bytes /\ length bytes = 20%nat
    /\ Forall (fun b => b < 256) bytes /\ unpackSha (ofBytes bytes) = id.
Proof.
  intros H. apply packSha_hex; [now rewrite (isSha_length _ H) | now apply isSha_chars].
Qed.

(** ** UTF-8 round trip *)

Local Ltac Zify.zify_post_hook ::= Z.to_euclidean_division_equations.

Ltac decide_cmp :=
  repeat match goal with
    | |- context [N.leb ?a ?b] =>
        first [ replace (N.leb a b) with true by (symmetry; apply N.leb_le; lia)
              | replace (N.leb a b) with false by (symmetry; apply N.leb_gt; lia) ]
    | |- context [N.ltb ?a ?b] =>
        first [ replace (N.ltb a b) with true by (symmetry; apply N.ltb_lt; lia)
              | replace (N.ltb a b) with false by (symmetry; apply N.ltb_ge; lia) ]
    | |- context [N.eqb ?a ?b] =>
        first [ replace (N.eqb a b) with true by (symmetry; apply N.eqb_eq; lia)
              | replace (N.eqb a b) with false by (symmetry; apply N.eqb_neq; lia) ]
    end;
  cbn [andb orb negb].

Lemma utf16_of_scalar_pair c d :
  isHighSurrogate c = true -> isLowSurrogate d = true ->
  utf16_of_scalar (65536 + (c - 55296) * 1024 + (d - 56320)) = [c; d].
Proof.
  unfold isHighSurrogate, isLowSurrogate, utf16_of_scalar. intros Hc Hd.
  bool_to_prop_in Hc. bool_to_prop_in Hd. decide_cmp.
  f_equal; [|f_equal]; lia.
Qed.

Lemma utf8_lead_one b : b <= 127 -> utf8_lead b = inl [b].
Proof. intros H. unfold utf8_lead. now decide_cmp. Qed.

Lemma utf8_lead_two b :
  194 <= b <= 223 -> utf8_lead b = inr (mkUtf8State (b - 192) 1 128 191).
Proof. intros H. unfold utf8_lead. now decide_cmp. Qed.

Lemma utf8_lead_three b :
  224 <= b <= 239 ->
  utf8_lead b = inr (mkUtf8State (b - 224) 2 (if b =? 224 then 160 else 128)
                                 (if b =? 237 then 159 else 191)).
Proof.
  intros H. unfold utf8_lead.
  replace (b <=? 127) with false by (symmetry; apply N.leb_gt; lia).
  replace (194 <=? b) with true by (symmetry; apply N.leb_le; lia).
  replace (b <=? 223) with false by (symmetry; apply N.leb_gt; lia).
  replace (224 <=? b) with true by (symmetry; apply N.leb_le; lia).
  replace (b <=? 239) with true by (symmetry; apply N.leb_le; lia).
  reflexivity.
Qed.

Lemma utf8_lead_four b :
  240 <= b <= 244 ->
  utf8_lead b = inr (mkUtf8State (b - 240) 3 (if b =? 240 then 144 else 128)
                                 (if b =? 244 then 143 else 191)).
Proof.
  intros H. unfold utf8_lead.
  replace (b <=? 127) with false by (symmetry; apply N.leb_gt; lia).
  replace (194 <=? b) with true by (symmetry; apply N.leb_le; lia).
  replace (b <=? 223) with false by (symmetry; apply N.leb_gt; lia).
  replace (224 <=? b) with true by (symmetry; apply N.leb_le; lia).
  replace (b <=? 239) with false by (symmetry; apply N.leb_gt; lia).
  replace (240 <=? b) with true by (symmetry; apply N.leb_le; lia).
  replace (b <=? 244) with true by (symmetry; apply N.leb_le; lia).
  reflexivity.
Qed.

Lemma utf8_decode_more code n lower upper b rest :
  lower <= b <= upper ->
  utf8_decode (Some (mkUtf8State code (S (S n)) lower upper)) (b :: rest)
  = utf8_decode (Some (mkUtf8State (code * 64 + (b - 128)) (S n) 128 191)) rest.
Proof.
  intros H. cbn [utf8_decode u_lower u_upper u_code u_needed].
  replace (lower <=? b) with true by (symmetry; apply N.leb_le; lia).
  replace (b <=? upper) with true by (symmetry; apply N.leb_le; lia).
  reflexivity.
Qed.

Lemma utf8_decode_last code lower upper b rest :
  lower <= b <= upper ->
  utf8_decode (Some (mkUtf8State code 1 lower upper)) (b :: rest)
  = utf16_of_scalar (code * 64 + (b - 128)) ++ utf8_decode None rest.
Proof.
  intros H. cbn [utf8_decode u_lower u_upper u_code u_needed].
  replace (lower <=? b) with true by (symmetry; apply N.leb_le; lia).
  replace (b <=? upper) with true by (symmetry; apply N.leb_le; lia).
  reflexivity.
Qed.

Lemma utf8_decode_lead_out b out rest :
  utf8_lead b = inl out ->
  utf8_decode None (b :: rest) = out ++ utf8_decode None rest.
Proof. intros H. cbn [utf8_decode]. now rewrite H. Qed.

Lemma utf8_decode_lead_state b st rest :
  utf8_lead b = inr st ->
  utf8_decode None (b :: rest) = utf8_decode (Some st) rest.
Proof. intros H. cbn [utf8_decode]. now rewrite H. Qed.

Lemma utf8_decode_scalar cp tail :
  cp < 1114112 -> cp < 55296 \/ 57343 < cp ->
  utf8_decode None (utf8_of_scalar cp ++ tail)
  = utf16_of_scalar cp ++ utf8_decode None tail.
Proof.
  intros Hmax Hscalar. unfold utf8_of_scalar.
  destruct (N.ltb_spec cp 128) as [H1|H1];
    [|destruct (N.ltb_spec cp 2048) as [H2|H2];
      [|destruct (N.ltb_spec cp 65536) as [H3|H3]]]; cbn [app].
  - rewrite (utf8_decode_lead_out cp [cp]) by (apply utf8_lead_one; lia).
    unfold utf16_of_scalar.
    now replace (cp <? 65536) with true by (symmetry; apply N.ltb_lt; lia).
  - erewrite utf8_decode_lead_state by (apply utf8_lead_two; lia).
    rewrite utf8_decode_last by lia.
    f_equal. f_equal. lia.
  - erewrite utf8_decode_lead_state by (apply utf8_lead_three; lia).
    rewrite utf8_decode_more.
    + rewrite utf8_decode_last by lia. f_equal. f_equal. lia.
    + destruct (N.eqb_spec (224 + cp / 4096) 224);
        destruct (N.eqb_spec (224 + cp / 4096) 237); lia.
  - erewrite utf8_decode_lead_state by (apply utf8_lead_four; lia).
    rewrite utf8_decode_more.
    + rewrite utf8_decode_more by lia.
      rewrite utf8_decode_last by lia. f_equal. f_equal. lia.
    + destruct (N.eqb_spec (240 + cp / 262144) 240);
        destruct (N.eqb_spec (240 + cp / 262144) 244); lia.
Qed.

Lemma wellFormed_ind (P : list N -> Prop) :
  P [] ->
  (forall c rest,
      isHighSurrogate c = false -> isLowSurrogate c = false -> c < 65536 ->
      wellFormed rest = true -> P rest -> P (c :: rest)) ->
  (forall c d rest,
      isHighSurrogate c = true -> isLowSurrogate d = true ->
      wellFormed rest = true -> P rest -> P (c :: d :: rest)) ->
  forall s, wellFormed s = true -> P s.
Proof.
  intros Hnil Hone Hpair s.
  remember (length s) as n eqn:Hn. revert s Hn.
  induction n as [n IH] using lt_wf_ind. intros s Hn Hwf.
  destruct s as [|c rest]; [exact Hnil|].
  cbn [wellFormed] in Hwf. destruct (isHighSurrogate c) eqn:Hhigh.
  - destruct rest as [|d rest]; [discriminate|].
    apply andb_true_iff in Hwf as [Hlow Hwf].
    apply Hpair; try assumption.
    apply (IH (length rest)); [cbn in Hn; lia | reflexivity | assumption].
  - rewrite !andb_true_iff in Hwf. destruct Hwf as [[Hlow Hunit] Hwf].
    apply negb_true_iff in Hlow. apply N.ltb_lt in Hunit.
    apply Hone; try assumption.
    apply (IH (length rest)); [cbn in Hn; lia | reflexivity | assumption].
Qed.

Lemma encodeUTF8_unit c rest :
  isHighSurrogate c = false -> isLowSurrogate c = false ->
  encodeUTF8 (c :: rest) = utf8_of_scalar c ++ encodeUTF8 rest.
Proof. intros Hh Hl. cbn [encodeUTF8]. now rewrite Hh, Hl. Qed.

Lemma encodeUTF8_pair c d rest :
  isHighSurrogate c = true -> isLowSurrogate d = true ->
  encodeUTF8 (c :: d :: rest)
  = utf8_of_scalar (65536 + (c - 55296) * 1024 + (d - 56320)) ++ encodeUTF8 rest.
Proof. intros Hh Hl. cbn [encodeUTF8]. now rewrite Hh, Hl. Qed.

Lemma surrogate_bounds c :
  isHighSurrogate c = false -> isLowSurrogate c = false -> c < 55296 \/ 57343 < c.
Proof.
  unfold isHighSurrogate, isLowSurrogate. intros Hh Hl.
  bool_to_prop_in Hh. bool_to_prop_in Hl. lia.
Qed.

Lemma pair_bounds c d :
  isHighSurrogate c = true -> isLowSurrogate d = true ->
  65536 <= 65536 + (c - 55296) * 1024 + (d - 56320) < 1114112.
Proof.
  unfold isHighSurrogate, isLowSurrogate. intros Hh Hl.
  bool_to_prop_in Hh. bool_to_prop_in Hl. lia.
Qed.

(** Decoding what [TextEncoder] produced gives the string back. *)
Lemma utf8_decode_encodeUTF8 : forall s,
  wellFormed s = true ->
  forall tail, utf8_decode None (encodeUTF8 s ++ tail) = s ++ utf8_decode None tail.
Proof.
  apply (wellFormed_ind (fun s => forall tail,
    utf8_decode None (encodeUTF8 s ++ tail) = s ++ utf8_decode None tail));
    [|intros c rest Hh Hl Hc _ IH|intros c d rest Hh Hl _ IH]; intros tail.
  - reflexivity.
  - rewrite encodeUTF8_unit by assumption. rewrite <- app_assoc.
    rewrite utf8_decode_scalar by (try apply surrogate_bounds; trivial; lia).
    rewrite IH. unfold utf16_of_scalar.
    now replace (c <? 65536) with true by (symmetry; apply N.ltb_lt; lia).
  - rewrite encodeUTF8_pair by assumption. rewrite <- app_assoc.
    pose proof (pair_bounds c d Hh Hl) as Hb.
    rewrite utf8_decode_scalar by lia.
    rewrite IH, utf16_of_scalar_pair by assumption. reflexivity.
Qed.

Lemma utf8_of_scalar_bytes cp :
  cp < 1114112 ->
  Forall (fun b => b < 256 /\ (cp <> 0 -> b <> 0)) (utf8_of_scalar cp).
Proof.
  intros Hmax. unfold utf8_of_scalar.
  destruct (N.ltb_spec cp 128); [|destruct (N.ltb_spec cp 2048);
                                  [|destruct (N.ltb_spec cp 65536)]];
    repeat (constructor; [lia|]); constructor.
Qed.

Lemma encodeUTF8_bytes : forall s,
  wellFormed s = true ->
  Forall (fun b => b < 256) (encodeUTF8 s)
  /\ (Forall (fun c => c <> 0) s -> Forall (fun b => b <> 0) (encodeUTF8 s)).
Proof.
  apply (wellFormed_ind (fun s =>
    Forall (fun b => b < 256) (encodeUTF8 s)
    /\ (Forall (fun c => c <> 0) s -> Forall (fun b => b <> 0) (encodeUTF8 s))));
    [|intros c rest Hh Hl Hc _ IH|intros c d rest Hh Hl _ IH].
  - split; constructor.
  - rewrite encodeUTF8_unit by assumption. destruct IH as [IH1 IH2].
    pose proof (utf8_of_scalar_bytes c ltac:(lia)) as Hb. split.
    + apply Forall_app. split; [|assumption].
      eapply List.Forall_impl; [|exact Hb]. cbn. tauto.
    + intros Hnz. inversion Hnz as [|? ? Hc0 Hrest]; subst.
      apply Forall_app. split; [|auto].
      eapply List.Forall_impl; [|exact Hb]. cbn. tauto.
  - rewrite encodeUTF8_pair by assumption. destruct IH as [IH1 IH2].
    pose proof (pair_bounds c d Hh Hl) as Hbound.
    pose proof (utf8_of_scalar_bytes _ (proj2 Hbound)) as Hb. split.
    + apply Forall_app. split; [|assumption].
      eapply List.Forall_impl; [|exact Hb]. cbn. tauto.
    + intros Hnz. inversion Hnz as [|? ? _ Hnz']; subst.
      inversion Hnz' as [|? ? _ Hrest]; subst.
      apply Forall_app. split; [|auto].
      eapply List.Forall_impl; [|exact Hb]. cbn. intros b [_ Hb0]. apply Hb0. lia.
Qed.

Lemma encodeUTF8_ascii_app a s :
  Forall (fun c => c < 128) a -> encodeUTF8 (a ++ s) = a ++ encodeUTF8 s.
Proof.
  induction 1 as [|c a Hc _ IH]; [reflexivity|].
  cbn [app]. rewrite encodeUTF8_unit.
  - rewrite IH. unfold utf8_of_scalar.
    now replace (c <? 128) with true by (symmetry; apply N.ltb_lt; lia).
  - unfold isHighSurrogate. apply andb_false_intro1. apply N.leb_gt. lia.
  - unfold isLowSurrogate. apply andb_false_intro1. apply N.leb_gt. lia.
Qed.

Lemma portableName_spec name :
  portableName name = true ->
  wellFormed name = true /\ Forall (fun c => c <> 0) name
  /\ startsWith [65279] name = false.
Proof.
  unfold portableName. rewrite !andb_true_iff, negb_true_iff, forallb_forall.
  intros [[Hwf Hnz] Hbom]. repeat split; try assumption.
  apply List.Forall_forall. intros c Hc. specialize (Hnz c Hc).
  apply negb_true_iff, N.eqb_neq in Hnz. assumption.
Qed.

(** A portable name comes back from the bytes of its entry. *)
Lemma decodeUTF8_encodeUTF8 name :
  portableName name = true -> decodeUTF8 (ofBytes (encodeUTF8 name)) = name.
Proof.
  intros H. destruct (portableName_spec name H) as (Hwf & _ & Hbom).
  unfold decodeUTF8, textDecode.
  rewrite toUint8_ofBytes by (apply encodeUTF8_bytes; assumption).
  rewrite <- (app_nil_r (encodeUTF8 name)), utf8_decode_encodeUTF8 by assumption.
  cbn [utf8_decode]. rewrite app_nil_r.
  destruct name as [|c name]; [reflexivity|].
  cbn [startsWith] in Hbom. rewrite andb_true_r in Hbom. apply N.eqb_neq in Hbom.
  destruct c as [|p]; [reflexivity|].
  destruct (N.eq_dec (N.pos p) 65279) as [E|E]; [congruence|].
  clear -E. repeat (destruct p as [p|p|]; try reflexivity); congruence.
Qed.

(** ** The order of tree entries (C3) *)

Section SortFacts.

Variable localeCompare : list N -> list N -> Z.
Variable univ : list item.

Local Abbreviation le := (precedes localeCompare).

Hypothesis le_total : forall a b, In a univ -> In b univ -> le a b \/ le b a.
Hypothesis le_trans :
  forall a b c, In a univ -> In b univ -> In c univ -> le a b -> le b c -> le a c.
Hypothesis le_antisym : forall a b, In a univ -> In b univ -> le a b -> le b a -> a = b.

Lemma insertItem_permutation x l :
  Permutation (insertItem localeCompare x l) (x :: l).
Proof.
  induction l as [|y l IH]; cbn [insertItem]; [reflexivity|].
  destruct (compareItems localeCompare x y <=? 0)%Z; [reflexivity|].
  rewrite IH. apply perm_swap.
Qed.

Lemma sortItems_permutation l : Permutation (sortItems localeCompare l) l.
Proof.
  induction l as [|x l IH]; cbn [sortItems]; [reflexivity|].
  rewrite insertItem_permutation. now apply perm_skip.
Qed.

Lemma insertItem_sorted x l :
  In x univ -> incl l univ ->
  StronglySorted le l -> StronglySorted le (insertItem localeCompare x l).
Proof.
  intros Hx Hl Hs. induction Hs as [|y l Hs IH Hy]; cbn [insertItem].
  - repeat constructor.
  - assert (Hyu : In y univ) by (apply Hl; now left).
    assert (Hlu : incl l univ) by (intros z Hz; apply Hl; now right).
    destruct (compareItems localeCompare x y <=? 0)%Z eqn:Hcmp.
    + apply Z.leb_le in Hcmp. constructor; [now constructor|].
      constructor; [exact Hcmp|].
      rewrite List.Forall_forall in Hy |- *. intros z Hz.
      apply (le_trans x y z); auto.
    + apply Z.leb_gt in Hcmp. constructor; [now apply IH|].
      assert (Hyx : le y x).
      { destruct (le_total x y Hx Hyu) as [H|H]; [unfold precedes in H; lia | exact H]. }
      rewrite List.Forall_forall in Hy |- *. intros z Hz.
      apply (Permutation_in _ (insertItem_permutation x l)) in Hz.
      destruct Hz as [<-|Hz]; auto.
Qed.

Lemma sortItems_sorted l :
  incl l univ -> StronglySorted le (sortItems localeCompare l).
Proof.
  induction l as [|x l IH]; intros Hl; cbn [sortItems]; [constructor|].
  apply insertItem_sorted.
  - apply Hl. now left.
  - intros z Hz. apply (Permutation_in _ (sortItems_permutation l)) in Hz.
    apply Hl. now right.
  - apply IH. intros z Hz. apply Hl. now right.
Qed.

Lemma sorted_unique l1 : forall l2,
  incl l1 univ -> StronglySorted le l1 -> StronglySorted le l2 ->
  Permutation l1 l2 -> l1 = l2.
Proof.
  induction l1 as [|a l1 IH]; intros l2 Hu Hs1 Hs2 Hp.
  - apply Permutation_nil in Hp. now subst.
  - destruct l2 as [|b l2]; [apply Permutation_sym, Permutation_nil in Hp; discriminate|].
    apply StronglySorted_inv in Hs1 as [Hs1 Ha]. apply StronglySorted_inv in Hs2 as [Hs2 Hb].
    rewrite List.Forall_forall in Ha, Hb.
    assert (Hau : In a univ) by (apply Hu; now left).
    assert (Hbu : In b univ).
    { apply Hu. apply (Permutation_in _ (Permutation_sym Hp)). now left. }
    assert (Hab : a = b).
    { assert (Hin1 : In a (b :: l2)) by (apply (Permutation_in _ Hp); now left).
      assert (Hin2 : In b (a :: l1))
        by (apply (Permutation_in _ (Permutation_sym Hp)); now left).
      destruct Hin1 as [->|Hin1]; [reflexivity|].
      destruct Hin2 as [->|Hin2]; [reflexivity|].
      apply le_antisym; auto. }
    subst b. f_equal. apply Permutation_cons_inv in Hp.
    apply IH; auto. intros z Hz. apply Hu. now right.
Qed.

Lemma sortItems_order_independent l l' :
  incl l univ -> Permutation l l' ->
  sortItems localeCompare l = sortItems localeCompare l'.
Proof.
  intros Hl Hp.
  assert (Hl' : incl l' univ).
  { intros z Hz. apply Hl. apply (Permutation_in _ (Permutation_sym Hp) Hz). }
  apply sorted_unique.
  - intros z Hz. apply Hl. apply (Permutation_in _ (sortItems_permutation l) Hz).
  - now apply sortItems_sorted.
  - now apply sortItems_sorted.
  - rewrite !sortItems_permutation. exact Hp.
Qed.

Lemma insertItem_filter_out (p : item -> bool) x l :
  p x = false ->
  List.filter p (insertItem localeCompare x l) = List.filter p l.
Proof.
  intros Hx. induction l as [|y l IH]; cbn [insertItem List.filter].
  - now rewrite Hx.
  - destruct (compareItems localeCompare x y <=? 0)%Z; cbn [List.filter].
    + now rewrite Hx.
    + now rewrite IH.
Qed.

Lemma insertItem_filter_tie z x l :
  In z univ -> In x univ -> incl l univ ->
  le z x -> le x z ->
  List.filter (fun y => tiesb localeCompare (sortName z) (sortName y))
              (insertItem localeCompare x l)
  = x :: List.filter (fun y => tiesb localeCompare (sortName z) (sortName y)) l.
Proof.
  intros Hz Hx Hl Hzx Hxz.
  assert (Htie : tiesb localeCompare (sortName z) (sortName x) = true).
  { unfold tiesb. apply andb_true_iff. split; now apply Z.leb_le. }
  induction l as [|y l IH]; cbn [insertItem List.filter].
  - now rewrite Htie.
  - assert (Hy : In y univ) by (apply Hl; now left).
    assert (Hl' : incl l univ) by (intros w Hw; apply Hl; now right).
    destruct (compareItems localeCompare x y <=? 0)%Z eqn:Hcmp; cbn [List.filter].
    + now rewrite Htie.
    + apply Z.leb_gt in Hcmp.
      assert (Hout : tiesb localeCompare (sortName z) (sortName y) = false).
      { apply not_true_is_false. intros Ht. unfold tiesb in Ht.
        apply andb_true_iff in Ht as [Hzy _]. apply Z.leb_le in Hzy.
        pose proof (le_trans x z y Hx Hz Hy Hxz Hzy) as Hxy.
        unfold precedes in Hxy. lia. }
      rewrite Hout. now apply IH.
Qed.

Lemma sortItems_stable z l :
  In z univ -> incl l univ ->
  List.filter (fun y => tiesb localeCompare (sortName z) (sortName y))
              (sortItems localeCompare l)
  = List.filter (fun y => tiesb localeCompare (sortName z) (sortName y)) l.
Proof.
  intros Hz. induction l as [|x l IH]; intros Hl; [reflexivity|].
  assert (Hx : In x univ) by (apply Hl; now left).
  assert (Hl' : incl l univ) by (intros w Hw; apply Hl; now right).
  cbn [sortItems List.filter].
  destruct (tiesb localeCompare (sortName z) (sortName x)) eqn:Htie.
  - unfold tiesb in Htie. apply andb_true_iff in Htie as [Hzx Hxz].
    apply Z.leb_le in Hzx, Hxz.
    rewrite insertItem_filter_tie; auto.
    + now rewrite IH.
    + intros w Hw. apply Hl'. apply (Permutation_in _ (sortItems_permutation l) Hw).
  - rewrite insertItem_filter_out by exact Htie. now apply IH.
Qed.

End SortFacts.

(** The key of the claim is the name that [writeTree] compares. *)
Lemma entryKey_sortName it : entryKey it = sortName it.
Proof.
  unfold entryKey, sortName, isTree.
  destruct (jsstring_eqb (item_type it) (js "tree")); [reflexivity | apply app_nil_r].
Qed.

Lemma consistentb_spec cmp keys :
  consistentb cmp keys = true ->
  (forall a b, In a keys -> In b keys -> (cmp a b <= 0)%Z \/ (cmp b a <= 0)%Z)
  /\ (forall a b c, In a keys -> In b keys -> In c keys ->
                    (cmp a b <= 0)%Z -> (cmp b c <= 0)%Z -> (cmp a c <= 0)%Z).
Proof.
  unfold consistentb. rewrite forallb_forall. intros H.
  assert (Hab : forall a b, In a keys -> In b keys ->
            ((cmp a b <=? 0)%Z || (cmp b a <=? 0)%Z) = true
            /\ forall c, In c keys ->
                 implb ((cmp a b <=? 0)%Z && (cmp b c <=? 0)%Z) (cmp a c <=? 0)%Z = true).
  { intros a b Ha Hb. specialize (H a Ha). rewrite forallb_forall in H.
    specialize (H b Hb). apply andb_true_iff in H as [Ht Htr].
    rewrite forallb_forall in Htr. now split. }
  split.
  - intros a b Ha Hb. destruct (Hab a b Ha Hb) as (Ht & _).
    apply orb_true_iff in Ht. rewrite !Z.leb_le in Ht. exact Ht.
  - intros a b c Ha Hb Hc H1 H2. destruct (Hab a b Ha Hb) as (_ & Htr).
    specialize (Htr c Hc). apply Z.leb_le in H1, H2. rewrite H1, H2 in Htr.
    now apply Z.leb_le.
Qed.

Lemma untiedb_spec cmp (f : item -> list N) l :
  untiedb cmp (List.map f l) = true ->
  forall a b, In a l -> In b l ->
              (cmp (f a) (f b) <= 0)%Z -> (cmp (f b) (f a) <= 0)%Z -> a = b.
Proof.
  induction l as [|x l IH]; intros Hu a b Ha Hb Hab Hba; [destruct Ha|].
  cbn [List.map untiedb] in Hu. apply andb_true_iff in Hu as [Hx Hu].
  rewrite forallb_forall in Hx.
  assert (Hnot : forall y, In y l ->
            ~ ((cmp (f x) (f y) <= 0)%Z /\ (cmp (f y) (f x) <= 0)%Z)).
  { intros y Hy [H1 H2]. specialize (Hx (f y) (in_map f l y Hy)).
    apply negb_true_iff in Hx. unfold tiesb in Hx.
    apply Z.leb_le in H1, H2. rewrite H1, H2 in Hx. discriminate. }
  destruct Ha as [<-|Ha], Hb as [<-|Hb]; auto.
  - exfalso. now apply (Hnot b).
  - exfalso. now apply (Hnot a).
Qed.




(** ** Tree round trip (C4) *)

Lemma modeOf_typeOfMode it :
  jsstring_eqb (item_type it) (js "blob") || jsstring_eqb (item_type it) (js "tree") = true ->
  typeOfMode (modeOf it) = item_type it.
Proof.
  unfold modeOf, isTree. intros H.
  destruct (jsstring_eqb (item_type it) (js "tree")) eqn:Ht.
  - apply bool_decide_eq_true in Ht. now rewrite Ht.
  - rewrite orb_false_r in H. apply bool_decide_eq_true in H. now rewrite H.
Qed.

Lemma modeOf_ascii it :
  Forall (fun c => c < 128) (modeOf it ++ js " ")
  /\ Forall (fun c => c <> 32) (modeOf it) /\ Forall (fun c => c < 256) (modeOf it).
Proof.
  unfold modeOf. destruct (isTree it);
    repeat split; repeat (constructor; [reflexivity || discriminate|]); constructor.
Qed.

(** The record of a plain entry: mode, space, name in UTF-8, zero byte,
    twenty bytes of id. *)
Lemma treeEntry_framed it :
  plainEntry it = true ->
  exists idBytes,
    treeEntry it
    = ofBytes (modeOf it) ++ VNum 32 :: ofBytes (encodeUTF8 (item_name it))
      ++ VNum 0 :: ofBytes idBytes
    /\ length idBytes = 20%nat
    /\ Forall (fun b => b < 256) idBytes
    /\ unpackSha (ofBytes idBytes) = item_id it.
Proof.
  unfold plainEntry. rewrite !andb_true_iff. intros [[Hty Hname] Hsha].
  destruct (packSha_sha _ Hsha) as (idBytes & Hpack & Hlen & Hbytes & Hunpack).
  exists idBytes. repeat split; try assumption.
  unfold treeEntry. rewrite Hpack.
  replace (modeOf it ++ js " " ++ item_name it)
    with ((modeOf it ++ js " ") ++ item_name it) by now rewrite <- app_assoc.
  rewrite encodeUTF8_ascii_app by apply (proj1 (modeOf_ascii it)).
  rewrite ofBytes_app, ofBytes_app, <- !app_assoc. reflexivity.
Qed.

Lemma parseTreeLoop_entries items : forall fuel p post acc,
  Forall (fun it => plainEntry it = true) items ->
  parseTreeLoop (length items + fuel)
    (p ++ concat (List.map treeEntry items) ++ post) (Z.of_nat (length p)) acc
  = parseTreeLoop fuel
      (p ++ concat (List.map treeEntry items) ++ post)
      (Z.of_nat (length (p ++ concat (List.map treeEntry items)))) (acc ++ items).
Proof.
  induction items as [|it items IH]; intros fuel p post acc Hok.
  - cbn [List.map concat length Nat.add]. now rewrite !app_nil_r.
  - inversion Hok as [|? ? Hit Hrest]; subst.
    destruct (treeEntry_framed it Hit) as (idBytes & Hentry & Hlen & Hbytes & Hunpack).
    pose proof Hit as Hit'. unfold plainEntry in Hit'. rewrite !andb_true_iff in Hit'.
    destruct Hit' as [[Hty Hname] _].
    destruct (portableName_spec _ Hname) as (Hwf & Hnz & _).
    cbn [List.map concat length Nat.add].
    replace (p ++ (treeEntry it ++ concat (List.map treeEntry items)) ++ post)
      with (p ++ treeEntry it ++ (concat (List.map treeEntry items) ++ post))
      by now rewrite <- !app_assoc.
    rewrite Hentry.
    rewrite (parseTreeLoop_entry (length items + fuel) p (modeOf it)
               (encodeUTF8 (item_name it)) (ofBytes idBytes));
      [| apply (modeOf_ascii it) | now apply encodeUTF8_bytes
       | now rewrite ofBytes_length ].
    rewrite <- Hentry.
    rewrite (arrayToString_ofBytes (modeOf it)) by apply (modeOf_ascii it).
    rewrite modeOf_typeOfMode, decodeUTF8_encodeUTF8, Hunpack by assumption.
    replace (mkItem (item_type it) (item_name it) (item_id it)) with it
      by now destruct it.
    replace (p ++ treeEntry it ++ concat (List.map treeEntry items) ++ post)
      with ((p ++ treeEntry it) ++ concat (List.map treeEntry items) ++ post)
      by now rewrite <- !app_assoc.
    rewrite IH by assumption.
    rewrite <- !app_assoc. reflexivity.
Qed.

(** Decoding the concatenated records of plain entries gives the entries
    back, in the same order. *)
Lemma parseTreeLoop_records items fuel :
  Forall (fun it => plainEntry it = true) items ->
  (length items <= fuel)%nat ->
  parseTreeLoop fuel (concat (List.map treeEntry items)) 0 [] = Some items.
Proof.
  intros Hok Hfuel.
  replace fuel with (length items + (fuel - length items))%nat by lia.
  pose proof (parseTreeLoop_entries items (fuel - length items) [] [] [] Hok) as H.
  cbn [app length] in H. rewrite !app_nil_r in H. change (Z.of_nat 0) with 0%Z in H.
  rewrite H. apply parseTreeLoop_end. lia.
Qed.

Lemma ofBytes_cons b bs : ofBytes (b :: bs) = VNum (Z.of_N b) :: ofBytes bs.
Proof. reflexivity. Qed.

Ltac flatten_bytes :=
  repeat first [ rewrite ofBytes_app | rewrite ofBytes_cons
               | rewrite <- app_assoc | rewrite <- app_comm_cons ].

Lemma stored_bytes bs :
  Forall (fun b => b < 256) bs ->
  List.map (fun c => c mod 256) (List.map toUint16 (ofBytes bs)) = bs.
Proof.
  intros H. fold (arrayToString (ofBytes bs)).
  rewrite arrayToString_ofBytes by assumption. now apply map_mod_256_bytes.
Qed.

Lemma uint_digits d :
  Forall (fun c => 48 <= c <= 57) (js (DecimalString.NilEmpty.string_of_uint d)).
Proof.
  induction d; cbn [DecimalString.NilEmpty.string_of_uint]; unfold js in *;
    cbn [list_ascii_of_string List.map]; try constructor; try assumption;
    cbn; lia.
Qed.

Lemma lengthToString_digits n : Forall (fun c => 48 <= c <= 57) (lengthToString n).
Proof.
  unfold lengthToString, DecimalString.NilZero.string_of_uint.
  destruct (Nat.to_uint n); try apply uint_digits.
  repeat constructor; cbn; lia.
Qed.

Lemma slice_suffix {A} (p a : list A) : sliceFrom (p ++ a) (Z.of_nat (length p)) = a.
Proof.
  unfold sliceFrom. pose proof (slice_middle p a []) as H.
  rewrite app_nil_r in H. now rewrite length_app, Nat2Z.inj_add.
Qed.

(** An object of byte content, once written, is read back from the store
    with its type and content.  The type is a word without space or zero
    byte, as the four type names are. *)
Lemma readUnpackedObject_after_writeObject g type bytes :
  Forall (fun c => c < 256 /\ c <> 32 /\ c <> 0) type ->
  Forall (fun b => b < 256) bytes ->
  exists id g',
    writeObject type (ofBytes bytes) g = Ret id g'
    /\ root g' = root g /\ objectCache g' = objectCache g
    /\ packedIndex g' = packedIndex g
    /\ readUnpackedObject g' id = Ok (mkObject type (Arr (ofBytes bytes)) id).
Proof.
  intros Htype Hbytes.
  set (digits := lengthToString (length (ofBytes bytes))).
  set (id := sha (stringToArray (type ++ js " " ++ digits) ++ [VNum 0] ++ ofBytes bytes)).
  eexists id, _. split; [reflexivity|]. repeat split.
  unfold readUnpackedObject.
  erewrite readFile_after_writeFile by reflexivity.
  unfold deflate, inflate. fold digits.
  assert (Hdigits : Forall (fun c => 48 <= c <= 57) digits) by apply lengthToString_digits.
  assert (Hdata : stringToArray (type ++ js " " ++ digits) ++ [VNum 0] ++ ofBytes bytes
                  = ofBytes (type ++ 32 :: digits ++ 0 :: bytes)).
  { change stringToArray with ofBytes. change (js " ") with [32].
    flatten_bytes. reflexivity. }
  rewrite Hdata.
  assert (Hall : Forall (fun b => b < 256) (type ++ 32 :: digits ++ 0 :: bytes)).
  { apply Forall_app. split.
    - eapply List.Forall_impl; [|exact Htype]. cbn. tauto.
    - constructor; [lia|]. apply Forall_app. split.
      + eapply List.Forall_impl; [|exact Hdigits]. cbn. lia.
      + constructor; [lia | assumption]. }
  rewrite stored_bytes by assumption.
  (* the first space ends the type *)
  assert (Hspace : indexOf 32 (ofBytes (type ++ 32 :: digits ++ 0 :: bytes)) 0
                   = Z.of_nat (length (ofBytes type))).
  { rewrite ofBytes_app.
    change (ofBytes (32 :: digits ++ 0 :: bytes))
      with (VNum 32 :: ofBytes (digits ++ 0 :: bytes)).
    pose proof (indexOf_found 32 [] (ofBytes type) (ofBytes (digits ++ 0 :: bytes))) as H.
    cbn [app length] in H. change (Z.of_nat 0) with 0%Z in H. rewrite H; [lia|].
    apply (ofBytes_without 32).
    eapply List.Forall_impl; [|exact Htype]. cbn. tauto. }
  rewrite Hspace.
  assert (Htypeslice : slice (ofBytes (type ++ 32 :: digits ++ 0 :: bytes)) 0
                         (Z.of_nat (length (ofBytes type))) = ofBytes type).
  { rewrite ofBytes_app.
    pose proof (slice_middle [] (ofBytes type) (ofBytes (32 :: digits ++ 0 :: bytes))) as H.
    cbn [app length] in H. change (Z.of_nat 0) with 0%Z in H. exact H. }
  rewrite Htypeslice.
  (* the first zero byte ends the header *)
  set (header := type ++ 32 :: digits).
  assert (Hsplit : ofBytes (type ++ 32 :: digits ++ 0 :: bytes)
                   = ofBytes header ++ VNum 0 :: ofBytes bytes).
  { unfold header. flatten_bytes. reflexivity. }
  assert (Hnull : indexOf 0 (ofBytes (type ++ 32 :: digits ++ 0 :: bytes)) 0
                  = Z.of_nat (length (ofBytes header))).
  { rewrite Hsplit.
    pose proof (indexOf_found 0 [] (ofBytes header) (ofBytes bytes)) as H.
    cbn [app length] in H. change (Z.of_nat 0) with 0%Z in H. rewrite H; [lia|].
    apply (ofBytes_without 0). unfold header. apply Forall_app. split.
    - eapply List.Forall_impl; [|exact Htype]. cbn. tauto.
    - constructor; [lia|]. eapply List.Forall_impl; [|exact Hdigits]. cbn. lia. }
  rewrite Hnull, Hsplit.
  replace (ofBytes header ++ VNum 0 :: ofBytes bytes)
    with ((ofBytes header ++ [VNum 0]) ++ ofBytes bytes) by now rewrite <- app_assoc.
  replace (Z.of_nat (length (ofBytes header)) + 1)%Z
    with (Z.of_nat (length (ofBytes header ++ [VNum 0])))
    by (rewrite length_app; cbn [length]; lia).
  rewrite slice_suffix.
  now rewrite (arrayToString_ofBytes type)
    by (eapply List.Forall_impl; [|exact Htype]; cbn; tauto).
Qed.

Lemma records_bytes items :
  Forall (fun it => plainEntry it = true) items ->
  exists bytes,
    concat (List.map treeEntry items) = ofBytes bytes
    /\ Forall (fun b => b < 256) bytes.
Proof.
  induction 1 as [|it items Hit _ (bytes & Hcat & Hbytes)].
  - exists []. split; [reflexivity | constructor].
  - destruct (treeEntry_framed it Hit) as (idBytes & Hentry & _ & Hid & _).
    pose proof Hit as Hit'. unfold plainEntry in Hit'. rewrite !andb_true_iff in Hit'.
    destruct Hit' as [[_ Hname] _].
    destruct (portableName_spec _ Hname) as (Hwf & _ & _).
    exists ((modeOf it ++ 32 :: encodeUTF8 (item_name it) ++ 0 :: idBytes) ++ bytes).
    split.
    + cbn [List.map concat]. rewrite Hentry, Hcat. flatten_bytes. reflexivity.
    + apply Forall_app. split; [|assumption].
      apply Forall_app. split; [apply (modeOf_ascii it)|].
      constructor; [lia|]. apply Forall_app. split.
      * now apply encodeUTF8_bytes.
      * constructor; [lia | assumption].
Qed.

Lemma sortItems_plain localeCompare items :
  Forall (fun it => plainEntry it = true) items ->
  Forall (fun it => plainEntry it = true) (sortItems localeCompare items).
Proof.
  intros H. eapply Permutation_Forall; [|exact H].
  apply Permutation_sym, sortItems_permutation.
Qed.

(** C4 (amended): for every list of entries that are blobs or trees, with
    portable names and full hexadecimal ids, decoding what [writeTree]
    encoded yields the same entries, each with its name, kind and id, in
    the order [writeTree] sorted them into; this holds for [parseTree] on
    the payload and for [readUnknownObject] on the object once written,
    when its id is not cached yet. *)
Theorem writeTree_parseTree_roundtrip
    (localeCompare : list N -> list N -> Z) (items : list item)
    (fuel : nat) (g : Git) :
  Forall (fun it => plainEntry it = true) items ->
  (length items <= fuel)%nat ->
  exists id g1,
    writeTree localeCompare items g = Ret id g1
    /\ parseTree fuel (mkObject (js "tree") (Arr (treeContent localeCompare items)) id)
       = Some (sortItems localeCompare items)
    /\ Permutation (sortItems localeCompare items) items
    /\ (objectCache g !! id = None -> includes id (packedIndex g) = false ->
        exists o g2,
          readUnknownObject fuel id g1 = Ret o g2
          /\ obj_type o = js "tree"
          /\ obj_content o = Arr (List.map VObj (sortItems localeCompare items))).
Proof.
  intros Hplain Hfuel.
  pose proof (sortItems_plain localeCompare items Hplain) as Hsorted.
  assert (Hlen : (length (sortItems localeCompare items) <= fuel)%nat).
  { now rewrite (Permutation_length (sortItems_permutation localeCompare items)). }
  destruct (records_bytes _ Hsorted) as (bytes & Hcat & Hbytes).
  destruct (readUnpackedObject_after_writeObject g (js "tree") bytes)
    as (id & g1 & Hwrite & Hroot & Hcache & Hpacked & Hread);
    [repeat (constructor; [repeat split; (reflexivity || discriminate)|]); constructor
    | assumption |].
  assert (Hparse : parseTree fuel (mkObject (js "tree")
                                     (Arr (treeContent localeCompare items)) id)
                   = Some (sortItems localeCompare items)).
  { unfold parseTree, treeContent. cbn [obj_content].
    now apply parseTreeLoop_records. }
  exists id, g1. unfold writeTree, treeContent in Hparse |- *.
  rewrite Hcat in Hparse |- *.
  split; [exact Hwrite|]. split; [exact Hparse|].
  split; [apply sortItems_permutation|].
  intros Hmiss Hnotpacked.
  eexists _, _. unfold readUnknownObject, bind, readObject.
  rewrite Hcache, Hmiss, Hpacked, Hnotpacked, Hread.
  cbn [obj_type]. change (jsstring_eqb (js "tree") (js "blob")) with false.
  change (jsstring_eqb (js "tree") (js "tree")) with true. cbn iota.
  rewrite Hparse. split; [reflexivity|]. split; reflexivity.
Qed.

Lemma writeTree_parseTree_roundtrip_witness :
  exists id g1,
    writeTree codeUnitCompare sampleItems emptyGit = Ret id g1
    /\ parseTree 3 (mkObject (js "tree") (Arr (treeContent codeUnitCompare sampleItems)) id)
       = Some (sortItems codeUnitCompare sampleItems)
    /\ Permutation (sortItems codeUnitCompare sampleItems) sampleItems
    /\ (objectCache emptyGit !! id = None -> includes id (packedIndex emptyGit) = false ->
        exists o g2,
          readUnknownObject 3 id g1 = Ret o g2
          /\ obj_type o = js "tree"
          /\ obj_content o = Arr (List.map VObj (sortItems codeUnitCompare sampleItems))).
Proof.
  apply (writeTree_parseTree_roundtrip codeUnitCompare sampleItems 3 emptyGit).
  - repeat (constructor; [vm_compute; reflexivity|]). constructor.
  - vm_compute. lia.
Defined.

(** C4 (counterexample): two blobs given in the order [b], [a] are decoded
    in the order [a], [b]; a submodule link, which the writer gives the
    mode of a regular file, is decoded as a blob; a name that starts with
    a byte-order mark is decoded without it.  In each case the list that
    comes back is not the list that went in. *)
Lemma writeTree_parseTree_reorders :
  parseTree 2 (mkObject (js "tree")
                 (Arr (treeContent codeUnitCompare
                         [blobItem (js "b") sampleId; blobItem (js "a") otherId]))
                 (js "placeholder_sha"))
  = Some [blobItem (js "a") otherId; blobItem (js "b") sampleId]
  /\ [blobItem (js "a") otherId; blobItem (js "b") sampleId]
     <> [blobItem (js "b") sampleId; blobItem (js "a") otherId]
  /\ parseTree 1 (mkObject (js "tree")
                    (Arr (treeContent codeUnitCompare
                            [mkItem (js "submodule") (js "lib") sampleId]))
                    (js "placeholder_sha"))
     = Some [blobItem (js "lib") sampleId]
  /\ parseTree 1 (mkObject (js "tree")
                    (Arr (treeContent codeUnitCompare
                            [blobItem (65279 :: js "a") sampleId]))
                    (js "placeholder_sha"))
     = Some [blobItem (js "a") sampleId].
Proof.
  split; [vm_compute; reflexivity|].
  split; [vm_compute; discriminate|].
  split; vm_compute; reflexivity.
Qed.

(** ** Tree lookup (C6) *)

(** Given what [readUnknownObject] returns for the current object, the
    navigation is the one the specification describes. *)
Lemma readTreeItemPath_step fuel tree segment path g :
  readTreeItemPath fuel tree (segment :: path) g
  = match readUnknownObject fuel tree g with
    | Ret treeObject g' =>
        if jsstring_eqb (obj_type treeObject) (js "tree") then
          match findNamed segment (contentArray (obj_content treeObject)) with
          | Some file => readTreeItemPath fuel (item_id file) path g'
          | None => Throw (NoObjectNamed tree segment) g'
          end
        else Throw (NotATree tree) g'
    | Throw e g' => Throw e g'
    | Loop => Loop
    end.
Proof.
  cbn [readTreeItemPath]. unfold bind.
  destruct (readUnknownObject fuel tree g) as [treeObject g'| |]; try reflexivity.
  destruct (jsstring_eqb (obj_type treeObject) (js "tree")); [|reflexivity].
  now destruct (findNamed segment (contentArray (obj_content treeObject))).
Qed.

(** *** A tree that was parsed once

    After [readUnknownObject] the cached tree holds its items where its
    bytes were.  The lemmas below follow [parseTree] over such a content:
    no element is the number 32 or 0, so both searches answer -1. *)

Lemma indexOfFrom_objects x items i : indexOfFrom x (List.map VObj items) i = (-1)%Z.
Proof.
  revert i. induction items as [|it items IH]; intros i; cbn [List.map indexOfFrom isNumber].
  - reflexivity.
  - apply IH.
Qed.

Lemma indexOf_objects x items : indexOf x (List.map VObj items) 0 = (-1)%Z.
Proof.
  unfold indexOf. cbn [Z.ltb Z.compare]. change (Z.to_nat 0) with 0%nat.
  cbn [skipn]. apply indexOfFrom_objects.
Qed.

Lemma slice_but_last {A} (l : list A) : slice l 0 (-1) = firstn (length l - 1) l.
Proof.
  unfold slice, relativeIndex. cbn [Z.ltb Z.compare].
  rewrite Z.min_l by lia. change (Z.to_nat 0) with 0%nat. cbn [skipn].
  f_equal. lia.
Qed.

Lemma slice_first_twenty {A} (l : list A) :
  (length l <= 20)%nat -> slice l 0 20 = l.
Proof.
  intros H. unfold slice, relativeIndex. cbn [Z.ltb Z.compare].
  rewrite (Z.min_l 0) by lia. rewrite (Z.min_r 20) by lia.
  change (Z.to_nat 0) with 0%nat. cbn [skipn].
  rewrite Z.sub_0_r, Nat2Z.id. apply firstn_all.
Qed.

Lemma arrayToString_objects k items :
  arrayToString (firstn k (List.map VObj items))
  = List.repeat 0 (Nat.min k (length items)).
Proof.
  unfold arrayToString. revert k. induction items as [|it items IH]; intros [|k];
    cbn [List.map firstn length Nat.min List.repeat]; try reflexivity.
  cbn [toUint16]. f_equal. apply IH.
Qed.

Lemma toUint8_objects k items :
  List.map toUint8 (firstn k (List.map VObj items))
  = List.repeat 0 (Nat.min k (length items)).
Proof.
  revert k. induction items as [|it items IH]; intros [|k];
    cbn [List.map firstn length Nat.min List.repeat]; try reflexivity.
  cbn [toUint8]. f_equal. apply IH.
Qed.

Lemma textDecode_zeros k : textDecode (List.repeat 0 k) = List.repeat 0 k.
Proof.
  unfold textDecode.
  assert (H : utf8_decode None (List.repeat 0 k) = List.repeat 0 k).
  { induction k as [|k IH]; [reflexivity|].
    cbn [List.repeat]. rewrite (utf8_decode_lead_out 0 [0]) by reflexivity.
    now rewrite IH. }
  rewrite H. destruct k; reflexivity.
Qed.

Lemma typeOfMode_zeros k : typeOfMode (List.repeat 0 k) = js "tree".
Proof. destruct k; reflexivity. Qed.

Lemma unpackSha_objects items :
  unpackSha (List.map VObj items)
  = concat (List.map (fun _ => js "[object Object]") items).
Proof.
  unfold unpackSha. rewrite List.map_map. reflexivity.
Qed.

(** Parsing again a tree of one to twenty items gives a single entry that
    is none of them: a tree whose name is a run of zero code units. *)
Lemma parseTree_of_parsed_items fuel ty oid items :
  (1 <= length items <= 20)%nat ->
  parseTree (S fuel) (mkObject ty (Arr (List.map VObj items)) oid)
  = Some [mkItem (js "tree") (List.repeat 0 (length items - 1))
                 (concat (List.map (fun _ => js "[object Object]") items))].
Proof.
  intros Hlen. unfold parseTree. cbn [obj_content parseTreeLoop].
  rewrite List.length_map.
  replace (0 <? Z.of_nat (length items))%Z with true
    by (symmetry; apply Z.ltb_lt; lia).
  rewrite indexOf_objects. change (-1 + 1)%Z with 0%Z.
  rewrite indexOf_objects. change (-1 + 1)%Z with 0%Z. change (0 + 20)%Z with 20%Z.
  rewrite slice_but_last, List.length_map.
  rewrite slice_first_twenty by (rewrite List.length_map; lia).
  unfold decodeUTF8. rewrite arrayToString_objects, toUint8_objects.
  replace (Nat.min (length items - 1) (length items)) with (length items - 1)%nat by lia.
  rewrite textDecode_zeros, typeOfMode_zeros, unpackSha_objects.
  rewrite parseTreeLoop_end by (rewrite List.length_map; lia).
  reflexivity.
Qed.

Lemma indexOf_objects_from x items k :
  indexOf x (List.map VObj items) (Z.of_nat k) = (-1)%Z.
Proof.
  unfold indexOf.
  replace (Z.of_nat k <? 0)%Z with false by (symmetry; apply Z.ltb_ge; lia).
  rewrite Nat2Z.id, List.skipn_map. apply indexOfFrom_objects.
Qed.

(** With more than twenty items the loop comes back to position 20 for
    ever: parsing such a tree again never ends. *)
Lemma parseTree_of_many_parsed_items fuel ty oid items :
  (20 < length items)%nat ->
  parseTree fuel (mkObject ty (Arr (List.map VObj items)) oid) = None.
Proof.
  intros Hlen. unfold parseTree. cbn [obj_content].
  assert (Hloop : forall n acc, parseTreeLoop n (List.map VObj items) 20 acc = None).
  { induction n as [|n IH]; intros acc; cbn [parseTreeLoop]; rewrite List.length_map;
      replace (20 <? Z.of_nat (length items))%Z with true
        by (symmetry; apply Z.ltb_lt; lia); [reflexivity|].
    change 20%Z with (Z.of_nat 20) at 1.
    rewrite (indexOf_objects_from 32 items 20). change (-1 + 1)%Z with 0%Z.
    rewrite indexOf_objects. change (-1 + 1 + 20)%Z with 20%Z. apply IH. }
  destruct fuel as [|fuel]; cbn [parseTreeLoop]; rewrite List.length_map;
    replace (0 <? Z.of_nat (length items))%Z with true
      by (symmetry; apply Z.ltb_lt; lia); [reflexivity|].
  rewrite indexOf_objects. change (-1 + 1)%Z with 0%Z.
  rewrite indexOf_objects. change (-1 + 1 + 20)%Z with 20%Z. apply Hloop.
Qed.

(** So every lookup through a tree that was read before fails, whatever
    the store holds: the name asked for is not a run of zero code
    units. *)
Lemma readTreeItemPath_through_parsed_tree fuel g tree o items segment path :
  objectCache g !! tree = Some o ->
  obj_type o = js "tree" ->
  obj_content o = Arr (List.map VObj items) ->
  (1 <= length items <= 20)%nat ->
  segment <> List.repeat 0 (length items - 1) ->
  exists g',
    readTreeItemPath (S fuel) tree (segment :: path) g
    = Throw (NoObjectNamed tree segment) g'.
Proof.
  intros Hcache Hty Hcontent Hlen Hseg.
  rewrite readTreeItemPath_step.
  unfold readUnknownObject, bind, readObject. rewrite Hcache, Hty.
  change (jsstring_eqb (js "tree") (js "blob")) with false.
  change (jsstring_eqb (js "tree") (js "tree")) with true. cbn iota.
  destruct o as [ty c oid]. cbn [obj_type obj_content] in Hty, Hcontent. subst ty c.
  rewrite parseTree_of_parsed_items by assumption.
  cbn [setContent obj_type obj_content List.map contentArray findNamed item_name].
  change (jsstring_eqb (js "tree") (js "tree")) with true. cbn iota.
  destruct (jsstring_eqb (List.repeat 0 (length items - 1)) segment) eqn:Heq.
  - apply bool_decide_eq_true in Heq. congruence.
  - eexists. reflexivity.
Qed.

(** C6 (evaluation of the code): the first lookup of [README.md] returns
    the blob the stored entry names.  It leaves the tree in the cache with
    its content replaced by the parsed items, and the second lookup, which
    parses that content again, fails with [NoObjectNamed] although the
    store is unchanged and the stored tree still has the entry. *)
Theorem readTreeItem_second_lookup_fails :
  resultOf (readTreeItem 1 rootTreeId (js "README.md") browseGit)
  = Ok (mkObject (js "blob") (Arr (stringToArray (js "Git Center"))) otherId)
  /\ zeroPage browsedOnceGit = zeroPage browseGit
  /\ resultOf (readTreeItem 1 rootTreeId (js "README.md") browsedOnceGit)
     = Err (NoObjectNamed rootTreeId (js "README.md")).
Proof. repeat split; vm_compute; reflexivity. Qed.

(** * Further properties *)

(** ** [unpackInt32] *)

Lemma shiftLeft_byte b k :
  (0 <= b < 256)%Z -> k = 8%Z \/ k = 16%Z -> shiftLeft b k = (b * 2 ^ k)%Z.
Proof.
  intros Hb Hk. unfold shiftLeft, toInt32.
  replace ((b + 2147483648) mod 4294967296 - 2147483648)%Z with b by lia.
  destruct Hk as [-> | ->].
  - change (8 mod 32)%Z with 8%Z. rewrite Z.shiftl_mul_pow2 by lia.
    change (2 ^ 8)%Z with 256%Z. lia.
  - change (16 mod 32)%Z with 16%Z. rewrite Z.shiftl_mul_pow2 by lia.
    change (2 ^ 16)%Z with 65536%Z. lia.
Qed.

Lemma shiftLeft_top b :
  (0 <= b < 256)%Z ->
  shiftLeft b 24 = (if b <? 128 then b * 16777216 else b * 16777216 - 4294967296)%Z.
Proof.
  intros Hb. unfold shiftLeft, toInt32.
  change (24 mod 32)%Z with 24%Z.
  replace ((b + 2147483648) mod 4294967296 - 2147483648)%Z with b by lia.
  rewrite Z.shiftl_mul_pow2 by lia. change (2 ^ 24)%Z with 16777216%Z.
  destruct (Z.ltb_spec b 128); lia.
Qed.

(** X1: four bytes are read as a big-endian number, but through 32-bit
    signed arithmetic: with a first byte of 128 or more the result is the
    big-endian value minus 2^32, a negative number.  Fewer than four bytes
    give [NaN]. *)
Theorem unpackInt32_big_endian (b0 b1 b2 b3 : N) (rest : list N) :
  b0 < 256 -> b1 < 256 -> b2 < 256 -> b3 < 256 ->
  let value := (Z.of_N b0 * 16777216 + Z.of_N b1 * 65536
                + Z.of_N b2 * 256 + Z.of_N b3)%Z in
  unpackInt32 (b0 :: b1 :: b2 :: b3 :: rest)
  = VNum (if (b0 <? 128)%N then value else value - 4294967296)%Z
  /\ (forall buffer, (length buffer < 4)%nat -> unpackInt32 buffer = VNaN).
Proof.
  intros H0 H1 H2 H3 value. split.
  - unfold unpackInt32.
    rewrite shiftLeft_top by lia.
    rewrite (shiftLeft_byte (Z.of_N b1) 16), (shiftLeft_byte (Z.of_N b2) 8)
      by (auto; lia).
    change (2 ^ 16)%Z with 65536%Z. change (2 ^ 8)%Z with 256%Z.
    f_equal. unfold value.
    destruct (Z.ltb_spec (Z.of_N b0) 128), (N.ltb_spec b0 128); lia.
  - intros buffer Hlen.
    destruct buffer as [|? [|? [|? [|? ?]]]]; try reflexivity. cbn in Hlen. lia.
Qed.

Lemma unpackInt32_big_endian_witness :
  unpackInt32 [255; 255; 255; 254]
  = VNum (if (255 <? 128)%N
          then (Z.of_N 255 * 16777216 + Z.of_N 255 * 65536 + Z.of_N 255 * 256 + Z.of_N 254)
          else (Z.of_N 255 * 16777216 + Z.of_N 255 * 65536 + Z.of_N 255 * 256 + Z.of_N 254)
               - 4294967296)%Z
  /\ (forall buffer, (length buffer < 4)%nat -> unpackInt32 buffer = VNaN).
Proof.
  apply (unpackInt32_big_endian 255 255 255 254 []); reflexivity.
Defined.

(** ** Ids in binary, both ways *)

(** X2: packing an even-length string of lowercase hexadecimal digits and
    unpacking the result gives the string back, one value per two digits. *)
Theorem unpackSha_packSha (n : nat) (id : list N) :
  length id = (2 * n)%nat ->
  Forall (fun c => isHexChar c = true) id ->
  unpackSha (packSha id) = id /\ length (packSha id) = n.
Proof.
  intros Hlen Hhex.
  destruct (packSha_hex n id Hlen Hhex) as (bytes & -> & Hn & _ & Hunpack).
  split; [exact Hunpack | now rewrite ofBytes_length].
Qed.

Lemma unpackSha_packSha_witness :
  unpackSha (packSha sampleId) = sampleId /\ length (packSha sampleId) = 20%nat.
Proof.
  apply (unpackSha_packSha 20 sampleId).
  - reflexivity.
  - repeat (constructor; [reflexivity|]). constructor.
Defined.

Lemma byteHexCheck_all : forallb byteHexCheck allBytes = true.
Proof. vm_compute. reflexivity. Qed.

Lemma byte_In_allBytes b : b < 256 -> In b allBytes.
Proof.
  intros Hb. unfold allBytes. apply in_map_iff. exists (N.to_nat b).
  split; [apply N2Nat.id | apply in_seq; lia].
Qed.

Lemma byte_hex b :
  b < 256 ->
  exists h l,
    padStart2 (toString16 (VNum (Z.of_N b))) = [h; l]
    /\ isHexChar h = true /\ isHexChar l = true
    /\ parseInt16 [h; l] = VNum (Z.of_N b).
Proof.
  intros Hb. pose proof byteHexCheck_all as Hall. rewrite forallb_forall in Hall.
  specialize (Hall b (byte_In_allBytes b Hb)). unfold byteHexCheck in Hall.
  destruct (padStart2 (toString16 (VNum (Z.of_N b)))) as [|h [|l [|? ?]]];
    try discriminate.
  rewrite !andb_true_iff in Hall. destruct Hall as [[Hh Hl] Hparse].
  exists h, l. repeat split; try assumption.
  destruct (parseInt16 [h; l]) as [z| |]; try discriminate.
  apply Z.eqb_eq in Hparse. now subst.
Qed.

(** X3: unpacking an array of bytes gives two lowercase hexadecimal digits
    per byte, so twenty bytes give a string that [isSha] accepts, and
    packing that string gives the bytes back. *)
Theorem packSha_unpackSha (bytes : list N) :
  Forall (fun b => b < 256) bytes ->
  packSha (unpackSha (ofBytes bytes)) = ofBytes bytes
  /\ length (unpackSha (ofBytes bytes)) = (2 * length bytes)%nat
  /\ Forall (fun c => isHexChar c = true) (unpackSha (ofBytes bytes))
  /\ (length bytes = 20%nat -> isSha (unpackSha (ofBytes bytes)) = true).
Proof.
  intros Hbytes.
  assert (H : packSha (unpackSha (ofBytes bytes)) = ofBytes bytes
              /\ length (unpackSha (ofBytes bytes)) = (2 * length bytes)%nat
              /\ Forall (fun c => isHexChar c = true) (unpackSha (ofBytes bytes))).
  { induction Hbytes as [|b bytes Hb _ (IH1 & IH2 & IH3)].
    - repeat split. constructor.
    - destruct (byte_hex b Hb) as (h & l & Hprint & Hh & Hl & Hparse).
      unfold unpackSha in *. cbn [ofBytes List.map concat]. fold (ofBytes bytes).
      rewrite Hprint. cbn [app packSha length]. rewrite Hparse, IH1, IH2.
      repeat split; [lia | now repeat constructor]. }
  destruct H as (H1 & H2 & H3). repeat split; try assumption.
  intros Hlen. unfold isSha. rewrite H2, Hlen. cbn [Nat.eqb Nat.mul Nat.add andb].
  apply forallb_forall. now apply List.Forall_forall.
Qed.

Lemma packSha_unpackSha_witness :
  packSha (unpackSha (ofBytes (List.repeat 171 20))) = ofBytes (List.repeat 171 20)
  /\ length (unpackSha (ofBytes (List.repeat 171 20)))
     = (2 * length (List.repeat 171 20))%nat
  /\ Forall (fun c => isHexChar c = true) (unpackSha (ofBytes (List.repeat 171 20)))
  /\ (length (List.repeat 171 20) = 20%nat ->
      isSha (unpackSha (ofBytes (List.repeat 171 20))) = true).
Proof.
  apply (packSha_unpackSha (List.repeat 171 20)).
  repeat (constructor; [reflexivity|]). constructor.
Defined.

(** ** Text in UTF-8 *)

Lemma textDecode_withoutMark bytes :
  textDecode bytes = withoutMark (utf8_decode None bytes).
Proof.
  unfold textDecode, withoutMark.
  destruct (utf8_decode None bytes) as [|c s]; [reflexivity|].
  destruct c as [|p]; [reflexivity|].
  repeat (destruct p as [p|p|]; try reflexivity).
Qed.

(** X4: a string without lone surrogates comes back from [encodeUTF8]
    followed by [decodeUTF8], except that a leading byte-order mark is
    lost; the bytes in between are below 256. *)
Theorem decodeUTF8_encodeUTF8_text (str : list N) :
  wellFormed str = true ->
  decodeUTF8 (ofBytes (encodeUTF8 str)) = withoutMark str
  /\ Forall (fun b => b < 256) (encodeUTF8 str).
Proof.
  intros Hwf. split; [|now apply encodeUTF8_bytes].
  unfold decodeUTF8.
  rewrite toUint8_ofBytes by (now apply encodeUTF8_bytes).
  rewrite textDecode_withoutMark.
  rewrite <- (app_nil_r (encodeUTF8 str)), utf8_decode_encodeUTF8 by assumption.
  cbn [utf8_decode]. now rewrite app_nil_r.
Qed.

Lemma decodeUTF8_encodeUTF8_text_witness :
  decodeUTF8 (ofBytes (encodeUTF8 [233; 8364; 55357; 56832]))
  = withoutMark [233; 8364; 55357; 56832]
  /\ Forall (fun b => b < 256) (encodeUTF8 [233; 8364; 55357; 56832]).
Proof.
  apply (decodeUTF8_encodeUTF8_text [233; 8364; 55357; 56832]). reflexivity.
Defined.

(** ** Files *)

Lemma fullPath_injective g p q : fullPath g p = fullPath g q -> p = q.
Proof.
  unfold fullPath. intros H. apply app_inv_head in H. now apply app_inv_head in H.
Qed.


(** ** Objects in the store and in the cache *)

Lemma writeObject_state g type content :
  exists g',
    writeObject type content g = Ret (js "placeholder_sha") g'
    /\ root g' = root g /\ objectCache g' = objectCache g
    /\ packedIndex g' = packedIndex g
    /\ dirs (zeroPage g') = dirs (zeroPage g)
    /\ (forall path, path <> fullPath g (objectPath (js "placeholder_sha")) ->
                     files (zeroPage g') !! path = files (zeroPage g) !! path).
Proof.
  eexists. split; [reflexivity|]. cbn. repeat split.
  intros path Hne. now rewrite lookup_insert_ne.
Qed.

Lemma readObject_miss g id o :
  objectCache g !! id = None ->
  includes id (packedIndex g) = false ->
  readUnpackedObject g id = Ok o ->
  readObject id g = Ret o (cacheSet id o g).
Proof. intros Hmiss Hpacked Hread. unfold readObject. now rewrite Hmiss, Hpacked, Hread. Qed.

(** X6: an object of byte content that was written is read back, from an
    empty cache entry, with its type and its content, and is then held by
    the cache.  The type is a word of bytes without space or zero byte. *)
Theorem writeObject_then_readObject (g : Git) (type bytes : list N) :
  Forall (fun c => c < 256 /\ c <> 32 /\ c <> 0) type ->
  Forall (fun b => b < 256) bytes ->
  exists id g1,
    writeObject type (ofBytes bytes) g = Ret id g1
    /\ (objectCache g !! id = None -> includes id (packedIndex g) = false ->
        exists g2,
          readObject id g1 = Ret (mkObject type (Arr (ofBytes bytes)) id) g2
          /\ objectCache g2 !! id = Some (mkObject type (Arr (ofBytes bytes)) id)
          /\ zeroPage g2 = zeroPage g1).
Proof.
  intros Htype Hbytes.
  destruct (readUnpackedObject_after_writeObject g type bytes Htype Hbytes)
    as (id & g1 & Hwrite & _ & Hcache & Hpacked & Hread).
  exists id, g1. split; [exact Hwrite|]. intros Hmiss Hnot.
  eexists. split.
  - apply readObject_miss; [now rewrite Hcache | now rewrite Hpacked | exact Hread].
  - split; [cbn; now rewrite lookup_insert_eq | reflexivity].
Qed.

Lemma writeObject_then_readObject_witness :
  exists id g1,
    writeObject (js "blob") (ofBytes (js "Git Center")) emptyGit = Ret id g1
    /\ (objectCache emptyGit !! id = None -> includes id (packedIndex emptyGit) = false ->
        exists g2,
          readObject id g1
          = Ret (mkObject (js "blob") (Arr (ofBytes (js "Git Center"))) id) g2
          /\ objectCache g2 !! id
             = Some (mkObject (js "blob") (Arr (ofBytes (js "Git Center"))) id)
          /\ zeroPage g2 = zeroPage g1).
Proof.
  apply (writeObject_then_readObject emptyGit (js "blob") (js "Git Center")).
  - repeat (constructor; [repeat split; (reflexivity || discriminate)|]). constructor.
  - repeat (constructor; [reflexivity|]). constructor.
Defined.



(** X8: with nothing cached under the id, a lookup below a root that the
    store does not hold fails with [FailedToReadObject] naming the root,
    whatever the path, and leaves the engine as it was; an id listed in
    the packed index fails likewise, since packed objects are not read. *)
Theorem readTreeItem_missing_root (fuel : nat) (g : Git) (id path : list N) :
  objectCache g !! id = None ->
  (includes id (packedIndex g) = false ->
   files (zeroPage g) !! fullPath g (objectPath id) = None ->
   readTreeItem fuel id path g
   = Throw (FailedToReadObject id (FailedToReadFile (objectPath id))) g)
  /\ (includes id (packedIndex g) = true ->
      readTreeItem fuel id path g = Throw (FailedToReadObject id PackedNotImplemented) g).
Proof.
  intros Hmiss.
  assert (Hstep : forall e, readObject id g = Throw e g ->
                            readTreeItem fuel id path g = Throw e g).
  { intros e He. unfold readTreeItem.
    destruct (splitPath path) as [|segment segments];
      cbn [readTreeItemPath]; unfold readUnknownObject, bind; now rewrite He. }
  split; intros Hpacked.
  - intros Hfile. apply Hstep. unfold readObject, readUnpackedObject, readFile,
      zeroPage_readFile. now rewrite Hmiss, Hpacked, Hfile.
  - apply Hstep. unfold readObject, readPackedObject. now rewrite Hmiss, Hpacked.
Qed.

Lemma readTreeItem_missing_root_witness :
  (includes sampleId (packedIndex emptyGit) = false ->
   files (zeroPage emptyGit) !! fullPath emptyGit (objectPath sampleId) = None ->
   readTreeItem 1 sampleId (js "src/main.js") emptyGit
   = Throw (FailedToReadObject sampleId (FailedToReadFile (objectPath sampleId))) emptyGit)
  /\ (includes sampleId (packedIndex emptyGit) = true ->
      readTreeItem 1 sampleId (js "src/main.js") emptyGit
      = Throw (FailedToReadObject sampleId PackedNotImplemented) emptyGit).
Proof.
  apply (readTreeItem_missing_root 1 emptyGit sampleId (js "src/main.js")).
  reflexivity.
Defined.

Lemma setContent_same o : setContent o (obj_content o) = o.
Proof. now destruct o. Qed.

Lemma cacheSet_twice id o g : cacheSet id o (cacheSet id o g) = cacheSet id o g.
Proof. unfold cacheSet. cbn. now rewrite insert_insert_eq. Qed.

(** X9: reading a blob again changes nothing: the second
    [readUnknownObject] returns the same object and leaves the state it
    found. *)
Theorem readUnknownObject_blob_again (fuel fuel' : nat) (id : list N)
    (g g1 : Git) (o : object) :
  readUnknownObject fuel id g = Ret o g1 ->
  obj_type o = js "blob" ->
  readUnknownObject fuel' id g1 = Ret o g1.
Proof.
  intros Hfirst Hblob. unfold readUnknownObject, bind in Hfirst.
  destruct (readObject id g) as [o0 g0| |]; try discriminate.
  assert (Hshape : o = o0 /\ g1 = cacheSet id o0 g0).
  { destruct (jsstring_eqb (obj_type o0) (js "blob")) eqn:Hb.
    - unfold parseBlob in Hfirst. rewrite setContent_same in Hfirst.
      now injection Hfirst as <- <-.
    - exfalso. assert (Hty : obj_type o = obj_type o0).
      { destruct (jsstring_eqb (obj_type o0) (js "tree")).
        - destruct (parseTree fuel o0); [|discriminate]. now injection Hfirst as <- _.
        - destruct (jsstring_eqb (obj_type o0) (js "commit"));
            [now injection Hfirst as <- _|].
          destruct (jsstring_eqb (obj_type o0) (js "tag")); now injection Hfirst as <- _. }
      rewrite Hblob in Hty. rewrite <- Hty in Hb.
      apply bool_decide_eq_false in Hb. now apply Hb. }
  destruct Hshape as [<- ->].
  unfold readUnknownObject, bind, readObject.
  cbn [objectCache cacheSet]. rewrite lookup_insert_eq, Hblob.
  change (jsstring_eqb (js "blob") (js "blob")) with true. cbn iota.
  unfold parseBlob. rewrite setContent_same.
  change (mkGit (root g0) (zeroPage g0) (packedIndex g0) (<[id:=o]> (objectCache g0)))
    with (cacheSet id o g0).
  now rewrite cacheSet_twice.
Qed.

Lemma readUnknownObject_blob_again_witness :
  readUnknownObject 5 otherId
    (stateAfter browseGit (readUnknownObject 0 otherId browseGit))
  = Ret (mkObject (js "blob") (Arr (stringToArray (js "Git Center"))) otherId)
        (stateAfter browseGit (readUnknownObject 0 otherId browseGit)).
Proof.
  apply (readUnknownObject_blob_again 0 5 otherId browseGit).
  - vm_compute. reflexivity.
  - reflexivity.
Defined.

(** ** Trees without separators *)

Lemma indexOfFrom_absent x l : forall i,
  Forall (fun v => isNumber x v = false) l -> indexOfFrom x l i = (-1)%Z.
Proof.
  induction l as [|v l IH]; intros i H; cbn [indexOfFrom]; [reflexivity|].
  inversion H as [|? ? Hv Hl]; subst. rewrite Hv. now apply IH.
Qed.

Lemma Forall_skipn {A} (P : A -> Prop) (l : list A) k :
  Forall P l -> Forall P (skipn k l).
Proof.
  revert k. induction l as [|x l IH]; intros [|k] H; cbn [skipn]; auto.
  inversion H; subst. now apply IH.
Qed.

Lemma indexOf_absent x l k :
  Forall (fun v => isNumber x v = false) l ->
  indexOf x l (Z.of_nat k) = (-1)%Z.
Proof.
  intros H. unfold indexOf.
  replace (Z.of_nat k <? 0)%Z with false by (symmetry; apply Z.ltb_ge; lia).
  rewrite Nat2Z.id. apply indexOfFrom_absent. now apply Forall_skipn.
Qed.

(** X10: on a content in which no element is the number 32 or 0, both
    searches of [parseTree] answer -1 and the position restarts from 0.
    With at most twenty elements the whole content becomes one entry; with
    more than twenty the loop returns to position 20 for ever and
    [parseTree] never ends. *)
Theorem parseTree_without_separators (ty oid : list N) (content : list jsval) :
  Forall (fun v => isNumber 32 v = false) content ->
  Forall (fun v => isNumber 0 v = false) content ->
  ((1 <= length content <= 20)%nat ->
   forall fuel,
     parseTree (S fuel) (mkObject ty (Arr content) oid)
     = Some [mkItem (typeOfMode (arrayToString (firstn (length content - 1) content)))
                    (decodeUTF8 (firstn (length content - 1) content))
                    (unpackSha content)])
  /\ ((20 < length content)%nat ->
      forall fuel, parseTree fuel (mkObject ty (Arr content) oid) = None).
Proof.
  intros Hspace Hnull.
  pose proof (indexOf_absent 32 content 0 Hspace) as Hs0.
  pose proof (indexOf_absent 0 content 0 Hnull) as Hn0.
  pose proof (indexOf_absent 32 content 20 Hspace) as Hs20.
  change (Z.of_nat 0) with 0%Z in Hs0, Hn0. change (Z.of_nat 20) with 20%Z in Hs20.
  split; intros Hlen fuel; unfold parseTree; cbn [obj_content].
  - cbn [parseTreeLoop].
    replace (0 <? Z.of_nat (length content))%Z with true
      by (symmetry; apply Z.ltb_lt; lia).
    rewrite Hs0. change (-1 + 1)%Z with 0%Z. rewrite Hn0.
    change (-1 + 1)%Z with 0%Z. change (0 + 20)%Z with 20%Z.
    rewrite slice_but_last, slice_first_twenty by lia.
    now rewrite parseTreeLoop_end by lia.
  - assert (Hloop : forall n acc, parseTreeLoop n content 20 acc = None).
    { induction n as [|n IH]; intros acc; cbn [parseTreeLoop];
        replace (20 <? Z.of_nat (length content))%Z with true
          by (symmetry; apply Z.ltb_lt; lia); [reflexivity|].
      rewrite Hs20. change (-1 + 1)%Z with 0%Z. rewrite Hn0.
      change (-1 + 1 + 20)%Z with 20%Z. apply IH. }
    destruct fuel as [|fuel]; cbn [parseTreeLoop];
      replace (0 <? Z.of_nat (length content))%Z with true
        by (symmetry; apply Z.ltb_lt; lia); [reflexivity|].
    rewrite Hs0. change (-1 + 1)%Z with 0%Z. rewrite Hn0.
    change (-1 + 1 + 20)%Z with 20%Z. apply Hloop.
Qed.

Lemma parseTree_without_separators_witness :
  ((1 <= length (ofBytes (List.repeat 97%N 21)) <= 20)%nat ->
   forall fuel,
     parseTree (S fuel) (mkObject (js "tree") (Arr (ofBytes (List.repeat 97%N 21))) sampleId)
     = Some [mkItem
               (typeOfMode (arrayToString
                  (firstn (length (ofBytes (List.repeat 97%N 21)) - 1)
                          (ofBytes (List.repeat 97%N 21)))))
               (decodeUTF8 (firstn (length (ofBytes (List.repeat 97%N 21)) - 1)
                                   (ofBytes (List.repeat 97%N 21))))
               (unpackSha (ofBytes (List.repeat 97%N 21)))])
  /\ ((20 < length (ofBytes (List.repeat 97%N 21)))%nat ->
      forall fuel,
        parseTree fuel (mkObject (js "tree") (Arr (ofBytes (List.repeat 97%N 21))) sampleId)
        = None).
Proof.
  apply (parseTree_without_separators (js "tree") sampleId (ofBytes (List.repeat 97%N 21))).
  - repeat (constructor; [reflexivity|]). constructor.
  - repeat (constructor; [reflexivity|]). constructor.
Defined.

(** ** Paths *)

(** X11: the path of a lookup is cut at every slash and the empty pieces
    are dropped: a slash joins the segments of the two sides, so leading,
    trailing and repeated slashes change nothing; every segment is
    non-empty and free of slashes, and a non-empty name without slash is
    its own single segment. *)
Theorem splitPath_segments :
  (forall a b, splitPath (a ++ 47 :: b) = splitPath a ++ splitPath b)
  /\ (forall path segment, In segment (splitPath path) ->
                           segment <> [] /\ ~ In 47 segment)
  /\ (forall name, name <> [] -> ~ In 47 name -> splitPath name = [name])
  /\ splitPath [] = [].
Proof.
  repeat split.
  - intros a b. unfold splitPath. now rewrite split_at_separator, List.filter_app.
  - unfold splitPath in H. apply filter_In in H as [_ H].
    intros ->. discriminate.
  - unfold splitPath in H. apply filter_In in H as [H _].
    pose proof (split_pieces 47 path) as Hp. rewrite List.Forall_forall in Hp.
    now apply Hp.
  - intros name Hne Hslash. unfold splitPath. rewrite split_whole by assumption.
    destruct name; [congruence | reflexivity].
Qed.

(** ** HEAD and branches *)

Lemma trimStart_spaces ws s :
  Forall (fun c => isWhiteSpace c = true) ws -> trimStart (ws ++ s) = trimStart s.
Proof. induction 1 as [|c ws Hc _ IH]; [reflexivity|]. cbn. now rewrite Hc. Qed.

Lemma js_bytes s : Forall (fun c => c < 256) (js s).
Proof.
  unfold js. apply List.Forall_forall. intros c Hc.
  apply in_map_iff in Hc as (a & <- & _).
  pose proof (N_ascii_bounded a). lia.
Qed.

Lemma stripHeadPrefix_symbolic ws name :
  Forall (fun c => isWhiteSpace c = true) ws ->
  stripHeadPrefix (js "ref:" ++ ws ++ js "refs/heads/" ++ name) = name.
Proof.
  intros Hws. unfold stripHeadPrefix.
  replace (startsWith (js "ref:") (js "ref:" ++ ws ++ js "refs/heads/" ++ name))
    with true by reflexivity.
  replace (substr 4 (js "ref:" ++ ws ++ js "refs/heads/" ++ name))
    with (ws ++ js "refs/heads/" ++ name) by reflexivity.
  rewrite trimStart_spaces by assumption.
  replace (trimStart (js "refs/heads/" ++ name)) with (js "refs/heads/" ++ name)
    by reflexivity.
  replace (startsWith (js "refs/heads/") (js "refs/heads/" ++ name))
    with true by reflexivity.
  reflexivity.
Qed.

(** X12: [getHead] names the branch of a symbolic HEAD: for a file
    [ref:], any white space, [refs/heads/] and a name, it returns the
    name trimmed; with no HEAD file it fails with [NoHeadRef]. *)
Theorem getHead_symbolic (g : Git) (ws name : list N) :
  Forall (fun c => isWhiteSpace c = true /\ c < 256) ws ->
  Forall (fun c => c < 256) name ->
  (files (zeroPage g) !! fullPath g (js "HEAD")
   = Some (js "ref:" ++ ws ++ js "refs/heads/" ++ name) ->
   getHead g = Ok (trim name))
  /\ (files (zeroPage g) !! fullPath g (js "HEAD") = None ->
      getHead g = Err NoHeadRef).
Proof.
  intros Hws Hname. split; intros Hfile.
  - assert (Hbytes : Forall (fun c => c < 256)
                       (js "ref:" ++ ws ++ js "refs/heads/" ++ name)).
    { repeat (apply Forall_app; split); try apply js_bytes; [|assumption].
      eapply List.Forall_impl; [|exact Hws]. cbn. tauto. }
    destruct (readFile_stored g _ _ Hfile Hbytes) as [Hread Hstr].
    unfold getHead. rewrite Hread, Hstr. f_equal. f_equal.
    apply stripHeadPrefix_symbolic.
    eapply List.Forall_impl; [|exact Hws]. cbn. tauto.
  - unfold getHead, readFile, zeroPage_readFile. now rewrite Hfile.
Qed.

Lemma getHead_symbolic_witness :
  (files (zeroPage (gitOver [(js "repo/HEAD", js "ref: refs/heads/master")] []))
     !! fullPath (gitOver [(js "repo/HEAD", js "ref: refs/heads/master")] []) (js "HEAD")
   = Some (js "ref:" ++ [32] ++ js "refs/heads/" ++ js "master") ->
   getHead (gitOver [(js "repo/HEAD", js "ref: refs/heads/master")] [])
   = Ok (trim (js "master")))
  /\ (files (zeroPage (gitOver [(js "repo/HEAD", js "ref: refs/heads/master")] []))
        !! fullPath (gitOver [(js "repo/HEAD", js "ref: refs/heads/master")] []) (js "HEAD")
      = None ->
      getHead (gitOver [(js "repo/HEAD", js "ref: refs/heads/master")] []) = Err NoHeadRef).
Proof.
  apply (getHead_symbolic (gitOver [(js "repo/HEAD", js "ref: refs/heads/master")] [])
           [32] (js "master")).
  - repeat constructor.
  - apply js_bytes.
Defined.

(** X13: when HEAD names no branch ([getHead] returns the empty string),
    resolving the default branch asks [getHead] again and again:
    [getBranchCommit('')] never settles, and neither does
    [readBranchCommit('')]. *)
Theorem getBranchCommit_blank_head (g : Git) :
  getHead g = Ok [] ->
  forall fuel, getBranchCommit fuel g [] = Diverge
               /\ readBranchCommit fuel [] g = Loop.
Proof.
  intros Hhead.
  assert (H : forall fuel, getBranchCommit fuel g [] = Diverge).
  { induction fuel as [|fuel IH]; cbn [getBranchCommit];
      change (isSha []) with false; cbn iota; [reflexivity|]. now rewrite Hhead. }
  intros fuel. split; [apply H|].
  unfold readBranchCommit, bind, lift. now rewrite H.
Qed.

Lemma getBranchCommit_blank_head_witness :
  getBranchCommit 1000 blankHeadGit [] = Diverge
  /\ readBranchCommit 1000 [] blankHeadGit = Loop.
Proof.
  apply (getBranchCommit_blank_head blankHeadGit); vm_compute; reflexivity.
Defined.

Lemma getRef_direct g ref stored fuel :
  files (zeroPage g) !! fullPath g ref = Some stored ->
  Forall (fun c => c < 256) stored ->
  startsWith (js "ref:") (trim stored) = false ->
  getRef (S fuel) g ref = Ok (trim stored).
Proof.
  intros Hfile Hbytes Hdirect. destruct (readFile_stored g _ _ Hfile Hbytes) as [Hread Hstr].
  cbn [getRef]. now rewrite Hread, Hstr, Hdirect.
Qed.

Lemma getRef_missing g ref fuel :
  files (zeroPage g) !! fullPath g ref = None ->
  getRef (S fuel) g ref = Err (UnknownRef ref).
Proof.
  intros Hfile. cbn [getRef]. unfold readFile, zeroPage_readFile. now rewrite Hfile.
Qed.

Lemma setRef_state g ref commit :
  exists g',
    setRef ref commit g = Ret tt g'
    /\ root g' = root g /\ objectCache g' = objectCache g
    /\ packedIndex g' = packedIndex g
    /\ dirs (zeroPage g') = dirs (zeroPage g)
    /\ files (zeroPage g') !! fullPath g ref = Some (arrayToString (stringToArray commit))
    /\ (forall path, path <> fullPath g ref ->
                     files (zeroPage g') !! path = files (zeroPage g) !! path).
Proof.
  eexists. split; [reflexivity|]. cbn. repeat split.
  - now rewrite lookup_insert_eq.
  - intros path Hne. now rewrite lookup_insert_ne.
Qed.

Lemma heads_not_tags branch : js "refs/heads/" ++ branch <> js "refs/tags/" ++ branch.
Proof. discriminate. Qed.

(** X14: a branch name that is set is the one resolved: after
    [setRef('refs/heads/' + branch, id)] with a 40-character hexadecimal
    id, [getBranchCommit(branch)] returns the id, whatever a tag of the
    same name holds; after [setRef('refs/tags/' + branch, id)] it returns
    the id when no branch file of that name exists. *)
Theorem setRef_then_getBranchCommit (fuel : nat) (g : Git) (branch commit : list N) :
  isSha commit = true -> isSha branch = false -> branch <> [] ->
  (exists g', setRef (js "refs/heads/" ++ branch) commit g = Ret tt g'
              /\ getBranchCommit (S (S fuel)) g' branch = Ok commit)
  /\ (files (zeroPage g) !! fullPath g (js "refs/heads/" ++ branch) = None ->
      exists g', setRef (js "refs/tags/" ++ branch) commit g = Ret tt g'
                 /\ getBranchCommit (S (S fuel)) g' branch = Ok commit).
Proof.
  intros Hsha Hname Hne.
  assert (Hstored : arrayToString (stringToArray commit) = commit)
    by (apply arrayToString_stringToArray, sha_code_units, Hsha).
  assert (Hstep : forall g', getBranchCommit (S (S fuel)) g' branch
                  = match getRef (S fuel) g' (js "refs/heads/" ++ branch) with
                    | Ok v => Ok v
                    | Diverge => Diverge
                    | Err _ =>
                        match getRef (S fuel) g' (js "refs/tags/" ++ branch) with
                        | Ok v => Ok v
                        | Diverge => Diverge
                        | Err _ => Err (CouldNotFindBranch branch)
                        end
                    end).
  { intros g'. cbn [getBranchCommit]. rewrite Hname.
    destruct branch; [congruence | reflexivity]. }
  split.
  - destruct (setRef_state g (js "refs/heads/" ++ branch) commit)
      as (g' & Hset & Hroot & _ & _ & _ & Hfile & _).
    exists g'. split; [exact Hset|]. rewrite Hstep.
    rewrite (getRef_direct g' _ commit).
    + now rewrite (sha_trim _ Hsha).
    + unfold fullPath in *. now rewrite Hroot, Hfile, Hstored.
    + now apply sha_bytes.
    + rewrite (sha_trim _ Hsha). now apply isSha_not_symbolic.
  - intros Hnone.
    destruct (setRef_state g (js "refs/tags/" ++ branch) commit)
      as (g' & Hset & Hroot & _ & _ & _ & Hfile & Hothers).
    exists g'. split; [exact Hset|]. rewrite Hstep.
    rewrite getRef_missing.
    + rewrite (getRef_direct g' _ commit).
      * now rewrite (sha_trim _ Hsha).
      * unfold fullPath in *. now rewrite Hroot, Hfile, Hstored.
      * now apply sha_bytes.
      * rewrite (sha_trim _ Hsha). now apply isSha_not_symbolic.
    + replace (fullPath g' (js "refs/heads/" ++ branch))
        with (fullPath g (js "refs/heads/" ++ branch))
        by (unfold fullPath; now rewrite Hroot).
      rewrite Hothers; [exact Hnone|].
      intros Heq. apply fullPath_injective in Heq. discriminate.
Qed.

Lemma setRef_then_getBranchCommit_witness :
  (exists g', setRef (js "refs/heads/" ++ js "dev") sampleId emptyGit = Ret tt g'
              /\ getBranchCommit 2 g' (js "dev") = Ok sampleId)
  /\ (files (zeroPage emptyGit) !! fullPath emptyGit (js "refs/heads/" ++ js "dev") = None ->
      exists g', setRef (js "refs/tags/" ++ js "dev") sampleId emptyGit = Ret tt g'
                 /\ getBranchCommit 2 g' (js "dev") = Ok sampleId).
Proof.
  apply (setRef_then_getBranchCommit 0 emptyGit (js "dev") sampleId).
  - reflexivity.
  - reflexivity.
  - discriminate.
Defined.

(** ** Writing commits *)

Lemma sameExcept_refl paths g : sameExcept paths g g.
Proof. unfold sameExcept. auto. Qed.

Lemma sameExcept_trans ps qs g g1 g2 :
  sameExcept ps g g1 -> sameExcept qs g1 g2 -> sameExcept (ps ++ qs) g g2.
Proof.
  intros (Hr1 & Hc1 & Hp1 & Hf1) (Hr2 & Hc2 & Hp2 & Hf2).
  unfold sameExcept. repeat split; try congruence.
  intros p Hp. rewrite List.map_app, in_app_iff in Hp.
  rewrite Hf2, Hf1; [reflexivity| |]; intros Hin; apply Hp; [now left|right].
  unfold fullPath in *. now rewrite <- Hr1.
Qed.

Lemma sameExcept_same p g g1 g2 :
  sameExcept [p] g g1 -> sameExcept [p] g1 g2 -> sameExcept [p] g g2.
Proof.
  intros H1 H2. pose proof (sameExcept_trans _ _ _ _ _ H1 H2) as (Hr & Hc & Hp & Hf).
  unfold sameExcept. repeat split; try assumption.
  intros q Hq. apply Hf. cbn in *. tauto.
Qed.

Lemma writeObject_sameExcept g type content :
  exists g',
    writeObject type content g = Ret (js "placeholder_sha") g'
    /\ sameExcept [objectPath (js "placeholder_sha")] g g'.
Proof.
  destruct (writeObject_state g type content) as (g' & Hw & Hr & Hc & Hp & Hd & Hf).
  exists g'. split; [exact Hw|]. unfold sameExcept. repeat split; try assumption.
  intros p Hp'. apply Hf. intros ->. apply Hp'. now left.
Qed.

Section WritingFacts.

Variable localeCompare : list N -> list N -> Z.

Lemma processItem_sameExcept : forall (x : treeInput) (g : Git),
  exists it g',
    processItem localeCompare x g = Ret it g'
    /\ sameExcept [objectPath (js "placeholder_sha")] g g'.
Proof.
  fix IH 1. intros [name children|name blob|it] g.
  - cbn [processItem].
    assert (Hall : forall g0, exists its g1,
      (fix processAll (l : list treeInput) : M (list item) :=
         match l with
         | [] => ret []
         | c :: l' =>
             let* it := processItem localeCompare c in
             let* rest := processAll l' in
             ret (it :: rest)
         end) children g0 = Ret its g1
      /\ sameExcept [objectPath (js "placeholder_sha")] g0 g1).
    { induction children as [|c children IHc]; intros g0.
      - exists [], g0. split; [reflexivity | apply sameExcept_refl].
      - destruct (IH c g0) as (it & g1 & Hit & H1).
        destruct (IHc g1) as (its & g2 & Hits & H2).
        exists (it :: its), g2. split.
        + unfold bind at 1. rewrite Hit. unfold bind at 1. now rewrite Hits.
        + eapply sameExcept_same; eassumption. }
    destruct (Hall g) as (its & g1 & Hits & H1).
    destruct (writeObject_sameExcept g1 (js "tree") (treeContent localeCompare its))
      as (g2 & Hw & H2).
    exists (mkItem (js "tree") name (js "placeholder_sha")), g2. split.
    + unfold bind at 1. rewrite Hits. unfold bind, writeTree. now rewrite Hw.
    + eapply sameExcept_same; eassumption.
  - destruct (writeObject_sameExcept g (js "blob") blob) as (g1 & Hw & H1).
    exists (mkItem (js "blob") name (js "placeholder_sha")), g1. split; [|exact H1].
    cbn [processItem]. unfold bind, writeBlob. now rewrite Hw.
  - exists it, g. split; [reflexivity | apply sameExcept_refl].
Qed.

Lemma processItems_sameExcept items : forall g,
  exists its g',
    processItems localeCompare items g = Ret its g'
    /\ sameExcept [objectPath (js "placeholder_sha")] g g'.
Proof.
  induction items as [|x items IH]; intros g.
  - exists [], g. split; [reflexivity | apply sameExcept_refl].
  - destruct (processItem_sameExcept x g) as (it & g1 & Hit & H1).
    destruct (IH g1) as (its & g2 & Hits & H2).
    exists (it :: its), g2. split.
    + cbn [processItems]. unfold bind at 1. rewrite Hit. unfold bind at 1. now rewrite Hits.
    + eapply sameExcept_same; eassumption.
Qed.

Lemma writeTreeRecursive_sameExcept items g :
  exists g',
    writeTreeRecursive localeCompare items g = Ret (js "placeholder_sha") g'
    /\ sameExcept [objectPath (js "placeholder_sha")] g g'.
Proof.
  destruct (processItems_sameExcept items g) as (its & g1 & Hits & H1).
  destruct (writeObject_sameExcept g1 (js "tree") (treeContent localeCompare its))
    as (g2 & Hw & H2).
  exists g2. split.
  - unfold writeTreeRecursive, bind, writeTree. now rewrite Hits, Hw.
  - eapply sameExcept_same; eassumption.
Qed.

Lemma writeCommit_sameExcept commit g :
  exists g',
    writeCommit localeCompare commit g = Ret (js "placeholder_sha") g'
    /\ sameExcept [objectPath (js "placeholder_sha")] g g'.
Proof.
  destruct (writeTreeRecursive_sameExcept (c_tree commit) g) as (g1 & Ht & H1).
  destruct (writeObject_sameExcept g1 (js "commit")
              (ofBytes (encodeUTF8 (commitText (js "placeholder_sha") commit))))
    as (g2 & Hw & H2).
  exists g2. split.
  - unfold writeCommit, bind. now rewrite Ht, Hw.
  - eapply sameExcept_same; eassumption.
Qed.

End WritingFacts.

Lemma encodeUTF8_code_units : forall n s,
  (length s <= n)%nat ->
  Forall (fun c => c < 65536) s -> Forall (fun b => b < 256) (encodeUTF8 s).
Proof.
  assert (Hscalar : forall cp, cp < 1114112 ->
                               Forall (fun b => b < 256) (utf8_of_scalar cp)).
  { intros cp Hcp. eapply List.Forall_impl; [|exact (utf8_of_scalar_bytes cp Hcp)].
    cbn. tauto. }
  induction n as [|n IH]; intros [|c rest] Hlen Hs; cbn [encodeUTF8];
    try constructor; cbn [length] in Hlen; [lia|].
  inversion Hs as [|? ? Hc Hrest]; subst.
  destruct (isHighSurrogate c) eqn:Hh.
  - destruct rest as [|d rest']; [apply Hscalar; lia|].
    inversion Hrest as [|? ? Hd Hrest']; subst. cbn [length] in Hlen.
    destruct (isLowSurrogate d) eqn:Hl; apply Forall_app; split.
    + apply Hscalar. apply (pair_bounds c d Hh Hl).
    + apply IH; [lia | assumption].
    + apply Hscalar. lia.
    + apply IH; [cbn [length]; lia | assumption].
  - destruct (isLowSurrogate c); apply Forall_app; split;
      try (apply Hscalar; lia); apply IH; try assumption; lia.
Qed.

Lemma code_units_check s :
  forallb (fun c => c <? 65536) s = true -> Forall (fun c => c < 65536) s.
Proof.
  rewrite forallb_forall, List.Forall_forall. intros H c Hc.
  apply N.ltb_lt. now apply H.
Qed.



(** ** Saving a file *)

(** X16: [saveFile] writes nothing when the branch cannot be resolved:
    the error of [getBranchCommit] is thrown and the engine and the store
    are as before.  In particular a name with neither a branch file nor a
    tag file fails with [CouldNotFindBranch], so [saveFile] cannot start a
    new branch. *)
Theorem saveFile_unresolved_branch (localeCompare : list N -> list N -> Z)
    (fuel : nat) (g : Git) (author path : list N) (blob : list jsval)
    (branch message : list N) :
  (forall e, getBranchCommit fuel g branch = Err e ->
             saveFile localeCompare fuel author path blob branch message g = Throw e g)
  /\ (isSha branch = false -> branch <> [] ->
      files (zeroPage g) !! fullPath g (js "refs/heads/" ++ branch) = None ->
      files (zeroPage g) !! fullPath g (js "refs/tags/" ++ branch) = None ->
      saveFile localeCompare (S (S fuel)) author path blob branch message g
      = Throw (CouldNotFindBranch branch) g).
Proof.
  assert (Hfail : forall n e, getBranchCommit n g branch = Err e ->
            saveFile localeCompare n author path blob branch message g = Throw e g).
  { intros n e He. unfold saveFile, saveFilePrepare, bind, lift. now rewrite He. }
  split; [apply Hfail|].
  intros Hname Hne Hheads Htags. apply Hfail.
  cbn [getBranchCommit]. rewrite Hname.
  destruct branch as [|c branch]; [congruence|].
  now rewrite (getRef_missing g _ fuel Hheads), (getRef_missing g _ fuel Htags).
Qed.

Lemma placeholder_direct :
  arrayToString (stringToArray (js "placeholder_sha")) = js "placeholder_sha"
  /\ trim (js "placeholder_sha") = js "placeholder_sha"
  /\ startsWith (js "ref:") (trim (js "placeholder_sha")) = false.
Proof. repeat split; vm_compute; reflexivity. Qed.



(** ** Initialisation *)

Lemma getHead_stored g stored :
  files (zeroPage g) !! fullPath g (js "HEAD") = Some stored ->
  Forall (fun c => c < 256) stored ->
  getHead g = Ok (trim (stripHeadPrefix stored)).
Proof.
  intros Hfile Hbytes. destruct (readFile_stored g _ _ Hfile Hbytes) as [Hread Hstr].
  unfold getHead. now rewrite Hread, Hstr.
Qed.

Lemma stored_literal s : arrayToString (stringToArray (js s)) = js s.
Proof.
  apply arrayToString_stringToArray.
  eapply List.Forall_impl; [|apply js_bytes]. cbn. intros; lia.
Qed.

Lemma configText_bytes : Forall (fun c => c < 256) configText.
Proof.
  apply List.Forall_forall. intros c Hc.
  assert (H : forallb (fun c => c <? 256) configText = true) by (vm_compute; reflexivity).
  rewrite forallb_forall in H. apply N.ltb_lt. now apply H.
Qed.

(** X18: over a store that accepts the writes, [Git.init] returns and
    sets up a repository whose HEAD names the branch [master] and whose
    branch [master], hence the default branch, resolves to the id of the
    initial commit; description and configuration read back as written;
    the engine starts with an empty cache and no packed index; and no
    file of the store is touched but HEAD, description, config, the
    commit's object file and the branch file. *)
Theorem gitInit_repository (localeCompare : list N -> list N -> Z)
    (dir : list N) (store : ZeroPage) (name email seconds tz : list N) :
  exists g,
    gitInit localeCompare dir store name email seconds tz = Ret tt g
    /\ root g = dir /\ objectCache g = ∅ /\ packedIndex g = []
    /\ getHead g = Ok (js "master")
    /\ (forall n, getRef (S n) g (js "refs/heads/master") = Ok (js "placeholder_sha"))
    /\ (forall n, getBranchCommit (S (S (S n))) g [] = Ok (js "placeholder_sha"))
    /\ readFile g (js "description") = Ok (js "Git Center repository")
    /\ readFile g (js "config") = Ok configText
    /\ (forall p,
          ~ In p (List.map (fullPath (newGit dir store))
                    [js "HEAD"; js "description"; js "config";
                     objectPath (js "placeholder_sha"); js "refs/heads/master"]) ->
          files (zeroPage g) !! p = files store !! p).
Proof.
  remember (mkGit dir
                (zeroPage_writeFile
                   (zeroPage_writeFile
                      (zeroPage_writeFile store (fullPath (newGit dir store) (js "HEAD"))
                         (arrayToString (stringToArray (js "ref: refs/heads/master"))))
                      (fullPath (newGit dir store) (js "description"))
                      (arrayToString (stringToArray (js "Git Center repository"))))
                   (fullPath (newGit dir store) (js "config"))
                   (arrayToString (stringToArray configText)))
                [] ∅) as g3 eqn:Hg3.
  pose (author := name ++ js " <" ++ email ++ js "> " ++ seconds ++ js " " ++ tz).
  destruct (writeCommit_sameExcept localeCompare
              (mkCommitInput [] [] author author (js "Initial commit")) g3)
    as (g4 & Hcommit & Hroot4 & Hcache4 & Hpacked4 & Hothers4).
  destruct (setRef_state g4 (js "refs/heads/master") (js "placeholder_sha"))
    as (g5 & Hset & Hroot5 & Hcache5 & Hpacked5 & Hdirs5 & Hfile5 & Hothers5).
  destruct placeholder_direct as (Hstored & Htrim & Hdirect).
  assert (Hroot3 : root g3 = dir) by (rewrite Hg3; reflexivity).
  assert (Hroot : root g5 = dir) by (rewrite Hroot5, Hroot4; exact Hroot3).
  assert (Hpath3 : forall q, fullPath g3 q = dir ++ js "/" ++ q)
    by (intros q; unfold fullPath; now rewrite Hroot3).
  assert (Hpath : forall q, fullPath g5 q = dir ++ js "/" ++ q)
    by (intros q; unfold fullPath; now rewrite Hroot).
  assert (Hpath4 : forall q, fullPath g4 q = dir ++ js "/" ++ q)
    by (intros q; unfold fullPath; now rewrite Hroot4, Hroot3).
  assert (Hkeep : forall q,
            q <> js "refs/heads/master" -> q <> objectPath (js "placeholder_sha") ->
            files (zeroPage g5) !! (dir ++ js "/" ++ q)
            = files (zeroPage g3) !! (dir ++ js "/" ++ q)).
  { intros q Hq1 Hq2. rewrite Hothers5, Hothers4; [reflexivity| |].
    - cbn [List.map In]. rewrite Hpath3. intros [Heq|[]]. apply Hq2.
      apply app_inv_head in Heq. now apply app_inv_head in Heq.
    - rewrite Hpath4. intros Heq. apply Hq1.
      apply app_inv_head in Heq. now apply app_inv_head in Heq. }
  assert (Hget : forall n, getRef (S n) g5 (js "refs/heads/master")
                           = Ok (js "placeholder_sha")).
  { intros n.
    pose proof (getRef_direct g5 (js "refs/heads/master") (js "placeholder_sha") n)
      as Hget.
    rewrite Htrim in Hget. apply Hget.
    - rewrite Hpath, <- Hpath4. now rewrite Hfile5, Hstored.
    - apply js_bytes.
    - rewrite <- Htrim. exact Hdirect. }
  assert (Hhead : getHead g5 = Ok (js "master")).
  { rewrite (getHead_stored g5 (js "ref: refs/heads/master")).
    - reflexivity.
    - rewrite Hpath, Hkeep by discriminate. subst g3. cbn [zeroPage files zeroPage_writeFile].
      rewrite !lookup_insert_ne by (unfold fullPath; cbn; intros Heq;
        apply app_inv_head in Heq; discriminate).
      rewrite lookup_insert_eq. now rewrite stored_literal.
    - apply js_bytes. }
  exists g5. repeat split.
  - change (gitInit localeCompare dir store name email seconds tz)
      with (bind (writeCommit localeCompare
                    (mkCommitInput [] [] author author (js "Initial commit")))
                 (fun commitId => setRef (js "refs/heads/master") commitId)
                 (mkGit dir
                    (zeroPage_writeFile
                       (zeroPage_writeFile
                          (zeroPage_writeFile store
                             (fullPath (newGit dir store) (js "HEAD"))
                             (arrayToString (stringToArray (js "ref: refs/heads/master"))))
                          (fullPath (newGit dir store) (js "description"))
                          (arrayToString (stringToArray (js "Git Center repository"))))
                       (fullPath (newGit dir store) (js "config"))
                       (arrayToString (stringToArray configText)))
                    [] ∅)).
    unfold bind. rewrite <- Hg3, Hcommit. exact Hset.
  - exact Hroot.
  - now rewrite Hcache5, Hcache4, Hg3.
  - now rewrite Hpacked5, Hpacked4, Hg3.
  - exact Hhead.
  - exact Hget.
  - intros n. cbn [getBranchCommit]. change (isSha []) with false. cbn iota.
    rewrite Hhead. change (isSha (js "master")) with false. cbn iota.
    change (js "master") with (109 :: js "aster"). cbn iota.
    change (js "refs/heads/" ++ 109 :: js "aster") with (js "refs/heads/master").
    now rewrite Hget.
  - apply readFile_stored; [|apply js_bytes].
    rewrite Hpath, Hkeep by discriminate. subst g3. cbn [zeroPage files zeroPage_writeFile].
    rewrite lookup_insert_ne by (unfold fullPath; cbn; intros Heq;
      apply app_inv_head in Heq; discriminate).
    rewrite lookup_insert_eq. now rewrite stored_literal.
  - apply readFile_stored; [|apply configText_bytes].
    rewrite Hpath, Hkeep by discriminate. subst g3. cbn [zeroPage files zeroPage_writeFile].
    rewrite lookup_insert_eq. reflexivity.
  - intros p Hp. cbn [List.map In] in Hp.
    rewrite Hothers5, Hothers4.
    + subst g3. cbn [zeroPage files zeroPage_writeFile].
      rewrite !lookup_insert_ne by (intros Heq; apply Hp; rewrite Heq; tauto).
      reflexivity.
    + cbn [List.map In]. rewrite Hpath3. intros [Heq|[]]. apply Hp. rewrite <- Heq.
      unfold fullPath. cbn [root newGit]. tauto.
    + rewrite Hpath4. intros ->. apply Hp. unfold fullPath. cbn [root newGit]. tauto.
Qed.

(** ** Mercurial file names *)

Lemma encodeCharCheck_all : forallb encodeCharCheck allBytes = true.
Proof. vm_compute. reflexivity. Qed.

Lemma encodeCharCheck_byte c : c < 256 -> encodeCharCheck c = true.
Proof.
  intros Hc. pose proof encodeCharCheck_all as Hall. rewrite forallb_forall in Hall.
  apply Hall. now apply byte_In_allBytes.
Qed.

(** The three shapes of the encoding of a byte. *)
Lemma encodeChar_shape c :
  c < 256 ->
  HgFileName.encodeChar c = [c]
  \/ exists x tl, HgFileName.encodeChar c = x :: tl
                  /\ (x = 126 \/ x = 95) /\ Forall (fun y => y <> 46) tl.
Proof.
  intros Hc. pose proof (encodeCharCheck_byte c Hc) as H. unfold encodeCharCheck in H.
  apply andb_true_iff in H as [_ H].
  destruct (HgFileName.encodeChar c) as [|x [|y [|z [|? ?]]]]; try discriminate.
  - left. apply andb_true_iff in H as [H _]. apply N.eqb_eq in H. now subst.
  - right. exists x, [y]. apply andb_true_iff in H as [H _].
    apply andb_true_iff in H as [Hx Hy]. apply orb_true_iff in Hx.
    rewrite !N.eqb_eq in Hx. apply negb_true_iff, N.eqb_neq in Hy.
    repeat split; [assumption|]. now repeat constructor.
  - right. exists x, [y; z]. apply andb_true_iff in H as [H _].
    apply andb_true_iff in H as [H Hz]. apply andb_true_iff in H as [Hx Hy].
    apply orb_true_iff in Hx. rewrite !N.eqb_eq in Hx.
    apply negb_true_iff, N.eqb_neq in Hy. apply negb_true_iff, N.eqb_neq in Hz.
    repeat split; [assumption|]. now repeat constructor.
Qed.

Lemma decode_encodeChar c rest :
  c < 256 ->
  HgFileName.decode (HgFileName.encodeChar c ++ rest)
  = option_map (cons c) (HgFileName.decode rest).
Proof.
  intros Hc. pose proof (encodeCharCheck_byte c Hc) as H. unfold encodeCharCheck in H.
  apply andb_true_iff in H as [_ H].
  destruct (HgFileName.encodeChar c) as [|x [|y [|z [|? ?]]]]; try discriminate;
    cbn [app HgFileName.decode].
  - apply andb_true_iff in H as [_ H].
    destruct (HgFileName.dmap !! [x]) as [code|]; [|discriminate].
    apply N.eqb_eq in H. now subst.
  - apply andb_true_iff in H as [_ H].
    destruct (HgFileName.dmap !! [x]); [discriminate|].
    destruct (HgFileName.dmap !! [x; y]) as [code|]; [|discriminate].
    apply N.eqb_eq in H. now subst.
  - apply andb_true_iff in H as [_ H].
    destruct (HgFileName.dmap !! [x]); [discriminate|].
    destruct (HgFileName.dmap !! [x; y]); [discriminate|].
    destruct (HgFileName.dmap !! [x; y; z]) as [code|]; [|discriminate].
    apply N.eqb_eq in H. now subst.
Qed.

Lemma decode_encodeChars name :
  Forall (fun c => c < 256) name ->
  HgFileName.decode (concat (List.map HgFileName.encodeChar name)) = Some name.
Proof.
  induction 1 as [|c name Hc _ IH]; [reflexivity|].
  cbn [List.map concat]. now rewrite decode_encodeChar, IH.
Qed.

Lemma replaceFirst_absent pattern replacement s :
  occursIn pattern s = false -> replaceFirst pattern replacement s = s.
Proof.
  induction s as [|c s IH]; cbn [occursIn replaceFirst]; intros H;
    apply orb_false_iff in H as [Hstart Hrest]; rewrite Hstart; [reflexivity|].
  now rewrite IH.
Qed.

(** A text free of [~] and [_] that starts the encoded name starts the
    name. *)
Lemma startsWith_encodeChars pattern : forall name,
  Forall (fun q => q <> 126 /\ q <> 95) pattern ->
  Forall (fun c => c < 256) name ->
  startsWith pattern (concat (List.map HgFileName.encodeChar name)) = true ->
  startsWith pattern name = true.
Proof.
  induction pattern as [|q pattern IH]; intros name Hplain Hbytes Hstart;
    [reflexivity|].
  inversion Hplain as [|? ? [Hq1 Hq2] Hplain']; subst.
  destruct Hbytes as [|c name Hc Hbytes]; [discriminate|].
  cbn [List.map concat] in Hstart.
  destruct (encodeChar_shape c Hc) as [Hself|(x & tl & Henc & Hx & _)].
  - rewrite Hself in Hstart. cbn [app startsWith] in Hstart |- *.
    apply andb_true_iff in Hstart as [Hqc Hstart]. rewrite Hqc. cbn [andb].
    now apply IH.
  - rewrite Henc in Hstart. cbn [app startsWith] in Hstart.
    apply andb_true_iff in Hstart as [Hqx _]. apply N.eqb_eq in Hqx.
    destruct Hx; congruence.
Qed.

Lemma occursIn_after_plain pattern tl s :
  Forall (fun y => y <> 46) tl ->
  occursIn (46 :: pattern) (tl ++ s) = occursIn (46 :: pattern) s.
Proof.
  induction 1 as [|y tl Hy _ IH]; [reflexivity|].
  cbn [app]. cbn [occursIn startsWith].
  replace (46 =? y) with false by (symmetry; apply N.eqb_neq; congruence).
  cbn [andb orb]. exact IH.
Qed.

Lemma occursIn_encodeChars pattern name :
  Forall (fun q => q <> 126 /\ q <> 95) (46 :: pattern) ->
  Forall (fun c => c < 256) name ->
  occursIn (46 :: pattern) name = false ->
  occursIn (46 :: pattern) (concat (List.map HgFileName.encodeChar name)) = false.
Proof.
  intros Hplain. induction 1 as [|c name Hc Hbytes IH]; intros Habsent;
    [exact Habsent|].
  cbn [occursIn] in Habsent. apply orb_false_iff in Habsent as [Hstart Hrest].
  specialize (IH Hrest).
  destruct (encodeChar_shape c Hc) as [Hself|(x & tl & Henc & Hx & Htl)].
  - destruct (startsWith (46 :: pattern)
                (concat (List.map HgFileName.encodeChar (c :: name)))) eqn:Hs.
    + apply startsWith_encodeChars in Hs; [congruence | assumption |].
      now constructor.
    + cbn [List.map concat] in Hs |- *. rewrite Hself in Hs |- *.
      cbn [app] in Hs |- *. cbn [occursIn]. now rewrite Hs, IH.
  - cbn [List.map concat]. rewrite Henc. cbn [app]. cbn [occursIn startsWith].
    replace (46 =? x) with false
      by (symmetry; apply N.eqb_neq; destruct Hx; subst; discriminate).
    cbn [andb orb]. now rewrite occursIn_after_plain.
Qed.

Lemma decode_encode_plain name :
  Forall (fun c => c < 256) name ->
  occursIn (js ".hg/") name = false ->
  occursIn (js ".i/") name = false ->
  occursIn (js ".d/") name = false ->
  HgFileName.decode (HgFileName.encode name) = Some name.
Proof.
  intros Hbytes Hhg Hi Hd. unfold HgFileName.encode.
  rewrite (replaceFirst_absent (js ".hg/")).
  2:{ apply (occursIn_encodeChars (js "hg/")); try assumption.
      repeat (constructor; [split; discriminate|]). constructor. }
  rewrite (replaceFirst_absent (js ".i/")).
  2:{ apply (occursIn_encodeChars (js "i/")); try assumption.
      repeat (constructor; [split; discriminate|]). constructor. }
  rewrite (replaceFirst_absent (js ".d/")).
  2:{ apply (occursIn_encodeChars (js "d/")); try assumption.
      repeat (constructor; [split; discriminate|]). constructor. }
  now apply decode_encodeChars.
Qed.

(** X19: [decode] undoes [encode] on every name of Latin-1 characters
    (code units below 256) in which none of [.hg/], [.i/] and [.d/]
    occurs: capital letters, underscores, control and reserved characters
    all come back.  Hence two such names with the same encoding are the
    same name. *)
Theorem HgFileName_decode_encode (name : list N) :
  Forall (fun c => c < 256) name ->
  occursIn (js ".hg/") name = false ->
  occursIn (js ".i/") name = false ->
  occursIn (js ".d/") name = false ->
  HgFileName.decode (HgFileName.encode name) = Some name
  /\ (forall other,
        Forall (fun c => c < 256) other ->
        occursIn (js ".hg/") other = false ->
        occursIn (js ".i/") other = false ->
        occursIn (js ".d/") other = false ->
        HgFileName.encode other = HgFileName.encode name -> other = name).
Proof.
  intros Hbytes Hhg Hi Hd. split; [now apply decode_encode_plain|].
  intros other Hbytes' Hhg' Hi' Hd' Hsame.
  pose proof (decode_encode_plain other Hbytes' Hhg' Hi' Hd') as Hother.
  rewrite Hsame, decode_encode_plain in Hother by assumption. congruence.
Qed.

Lemma HgFileName_decode_encode_witness :
  HgFileName.decode (HgFileName.encode (js "Data/My_File:1.txt" ++ [7; 233]))
  = Some (js "Data/My_File:1.txt" ++ [7; 233])
  /\ (forall other,
        Forall (fun c => c < 256) other ->
        occursIn (js ".hg/") other = false ->
        occursIn (js ".i/") other = false ->
        occursIn (js ".d/") other = false ->
        HgFileName.encode other = HgFileName.encode (js "Data/My_File:1.txt" ++ [7; 233]) ->
        other = js "Data/My_File:1.txt" ++ [7; 233]).
Proof.
  apply (HgFileName_decode_encode (js "Data/My_File:1.txt" ++ [7; 233])).
  - apply List.Forall_forall. intros c Hc.
    assert (H : forallb (fun c => c <? 256) (js "Data/My_File:1.txt" ++ [7; 233]) = true)
      by (vm_compute; reflexivity).
    rewrite forallb_forall in H. apply N.ltb_lt. now apply H.
  - vm_compute. reflexivity.
  - vm_compute. reflexivity.
  - vm_compute. reflexivity.
Defined.

Lemma Forall_hostSafe_skipn n s :
  Forall (fun c => hostSafe c = true) s -> Forall (fun c => hostSafe c = true) (skipn n s).
Proof. apply Forall_skipn. Qed.

Lemma replaceFirst_hostSafe pattern replacement s :
  Forall (fun c => hostSafe c = true) replacement ->
  Forall (fun c => hostSafe c = true) s ->
  Forall (fun c => hostSafe c = true) (replaceFirst pattern replacement s).
Proof.
  intros Hr. induction 1 as [|c s Hc Hs IH]; cbn [replaceFirst].
  - destruct (startsWith pattern []); [|constructor].
    apply Forall_app. split; [assumption|]. apply Forall_skipn. constructor.
  - destruct (startsWith pattern (c :: s)).
    + apply Forall_app. split; [assumption|]. apply Forall_skipn. now constructor.
    + now constructor.
Qed.

(** X20: the encoding of a name of Latin-1 characters holds only
    characters that every host accepts in a file name, namely printable
    ASCII without capital letters and without the reserved characters
    backslash, colon, asterisk, question mark, double quote, angle
    brackets and bar; and an encoded name is never shorter than the
    name. *)
Theorem HgFileName_encode_hostSafe (name : list N) :
  Forall (fun c => c < 256) name ->
  Forall (fun c => hostSafe c = true) (HgFileName.encode name)
  /\ (length name <= length (concat (List.map HgFileName.encodeChar name)))%nat.
Proof.
  intros Hbytes. split.
  - unfold HgFileName.encode.
    repeat (apply replaceFirst_hostSafe;
            [apply List.Forall_forall; intros c Hc;
             repeat (destruct Hc as [<-|Hc]; [reflexivity|]); destruct Hc|]).
    induction Hbytes as [|c name Hc _ IH]; [constructor|].
    cbn [List.map concat]. apply Forall_app. split; [|exact IH].
    pose proof (encodeCharCheck_byte c Hc) as H. unfold encodeCharCheck in H.
    apply andb_true_iff in H as [H _]. rewrite forallb_forall in H.
    now apply List.Forall_forall.
  - induction Hbytes as [|c name Hc _ IH]; [reflexivity|].
    cbn [List.map concat]. rewrite length_app. cbn [length].
    destruct (encodeChar_shape c Hc) as [->|(x & tl & -> & _)]; cbn [length]; lia.
Qed.

Lemma HgFileName_encode_hostSafe_witness :
  Forall (fun c => hostSafe c = true) (HgFileName.encode (js "Data/My_File:1.i/x"))
  /\ (length (js "Data/My_File:1.i/x")
      <= length (concat (List.map HgFileName.encodeChar (js "Data/My_File:1.i/x"))))%nat.
Proof.
  apply (HgFileName_encode_hostSafe (js "Data/My_File:1.i/x")).
  apply js_bytes.
Defined.

Lemma fold_insert_lookup_values (entries : list (N * list N)) :
  forall (m : gmap (list N) N) key code,
    fold_left (fun m entry => <[snd entry := fst entry]> m) entries m !! key = Some code ->
    m !! key = Some code \/ In key (List.map snd entries).
Proof.
  induction entries as [|entry entries IH]; intros m key code H; [now left|].
  cbn [fold_left] in H. apply IH in H as [H|H]; [|right; now right].
  destruct (decide (snd entry = key)) as [<-|Hne].
  - right. now left.
  - left. now rewrite lookup_insert_ne in H.
Qed.

Lemma entries_bytes :
  forallb (forallb (fun c => c <? 256)) (List.map snd HgFileName.entries) = true.
Proof. vm_compute. reflexivity. Qed.

Lemma dmap_keys key code :
  HgFileName.dmap !! key = Some code -> Forall (fun c => c < 256) key.
Proof.
  unfold HgFileName.dmap. intros H.
  apply fold_insert_lookup_values in H as [H|H].
  - rewrite lookup_empty in H. discriminate.
  - pose proof entries_bytes as Hall.
    rewrite forallb_forall in Hall. specialize (Hall key H). clear H.
    rewrite forallb_forall in Hall. apply List.Forall_forall. intros c Hc.
    apply N.ltb_lt. exact (Hall c Hc).
Qed.

Lemma decode_rejects : forall n s,
  (length s <= n)%nat -> Exists (fun c => 256 <= c) s -> HgFileName.decode s = None.
Proof.
  induction n as [|n IH]; intros s Hlen Hbig.
  - destruct s; [inversion Hbig | cbn in Hlen; lia].
  - destruct s as [|a rest1]; [inversion Hbig|]. cbn [length] in Hlen.
    cbn [HgFileName.decode].
    destruct (HgFileName.dmap !! [a]) as [code|] eqn:H1.
    { apply dmap_keys in H1. inversion H1 as [|? ? Ha _]; subst.
      rewrite IH; [reflexivity | lia |].
      inversion Hbig as [? ? Hhead|? ? Htail]; subst; [lia | assumption]. }
    destruct rest1 as [|b rest2]; [reflexivity|]. cbn [length] in Hlen.
    destruct (HgFileName.dmap !! [a; b]) as [code|] eqn:H2.
    { apply dmap_keys in H2. inversion H2 as [|? ? Ha H2']; subst.
      inversion H2' as [|? ? Hb _]; subst.
      rewrite IH; [reflexivity | lia |].
      inversion Hbig as [? ? Hhead|? ? Htail]; subst; [lia|].
      inversion Htail as [? ? Hhead|? ? Htail']; subst; [lia | assumption]. }
    destruct rest2 as [|c rest3]; [reflexivity|]. cbn [length] in Hlen.
    destruct (HgFileName.dmap !! [a; b; c]) as [code|] eqn:H3; [|reflexivity].
    apply dmap_keys in H3. inversion H3 as [|? ? Ha H3']; subst.
    inversion H3' as [|? ? Hb H3'']; subst. inversion H3'' as [|? ? Hc _]; subst.
    rewrite IH; [reflexivity | lia |].
    inversion Hbig as [? ? Hhead|? ? Htail]; subst; [lia|].
    inversion Htail as [? ? Hhead|? ? Htail']; subst; [lia|].
    inversion Htail' as [? ? Hhead|? ? Htail'']; subst; [lia | assumption].
Qed.

Lemma fold_insert_lookup_other {V} (f : N -> V) (keys : list N) :
  forall (m : gmap N V) c,
    ~ In c keys -> fold_left (fun m i => <[i := f i]> m) keys m !! c = m !! c.
Proof.
  induction keys as [|k keys IH]; intros m c Hc; [reflexivity|].
  cbn [fold_left]. rewrite IH by (intros H; apply Hc; now right).
  apply lookup_insert_ne. intros ->. apply Hc. now left.
Qed.

Lemma allBytes_bound c : In c allBytes -> c < 256.
Proof.
  unfold allBytes. intros H. apply in_map_iff in H as (k & <- & Hk).
  apply in_seq in Hk. lia.
Qed.

Lemma encodeChar_wide c : 256 <= c -> HgFileName.encodeChar c = [c].
Proof.
  intros Hc. unfold HgFileName.encodeChar.
  assert (Hnone : HgFileName.cmap !! c = None); [|now rewrite Hnone].
  unfold HgFileName.cmap. rewrite lookup_insert_ne by lia.
  rewrite (fold_insert_lookup_other (fun i => [95; i + 32])).
  2:{ unfold HgFileName.upperCase. intros H. apply in_map_iff in H as (k & <- & Hk).
      apply in_seq in Hk. lia. }
  rewrite (fold_insert_lookup_other HgFileName.tildeHex).
  2:{ unfold HgFileName.specialChars. cbn [In]. lia. }
  assert (Hfirst : forall keys (m : gmap N (list N)),
            ~ In c keys ->
            fold_left (fun (m : gmap N (list N)) i =>
                         if (i <? 32) || (126 <=? i) then <[i := HgFileName.tildeHex i]> m
                         else <[i := [i]]> m) keys m !! c = m !! c).
  { induction keys as [|k keys IH]; intros m Hk; [reflexivity|].
    cbn [fold_left]. rewrite IH by (intros H; apply Hk; now right).
    assert (k <> c) by (intros ->; apply Hk; now left).
    destruct ((k <? 32) || (126 <=? k)); now apply lookup_insert_ne. }
  rewrite Hfirst; [reflexivity|]. intros H. apply allBytes_bound in H. lia.
Qed.

Lemma replaceFirst_keeps pattern replacement c : forall s,
  ~ In c pattern -> In c s -> In c (replaceFirst pattern replacement s).
Proof.
  assert (Hskip : forall pattern s, startsWith pattern s = true -> ~ In c pattern ->
                                    In c s -> In c (skipn (length pattern) s)).
  { induction pattern0 as [|q pattern0 IH]; intros s Hs Hq Hin; [exact Hin|].
    destruct s as [|x s]; [discriminate|]. cbn [startsWith] in Hs.
    apply andb_true_iff in Hs as [Hqx Hs]. apply N.eqb_eq in Hqx. subst x.
    cbn [length skipn]. apply IH; [assumption | intros H; apply Hq; now right|].
    destruct Hin as [->|Hin]; [exfalso; apply Hq; now left | assumption]. }
  induction s as [|x s IH]; intros Hc Hin; [destruct Hin|].
  cbn [replaceFirst]. destruct (startsWith pattern (x :: s)) eqn:Hs.
  - apply in_or_app. right. now apply Hskip.
  - destruct Hin as [->|Hin]; [now left | right; now apply IH].
Qed.

(** X21: [encode] keeps a character outside Latin-1 as it is, and
    [decode] refuses every text that holds one: the name of a file with
    such a character is encoded without error, and decoding the result
    fails with [Invalid filename]. *)
Theorem HgFileName_decode_rejects_wide (name : list N) :
  Exists (fun c => 256 <= c) name ->
  HgFileName.decode name = None
  /\ HgFileName.decode (HgFileName.encode name) = None.
Proof.
  intros Hbig. split; [now apply (decode_rejects (length name))|].
  apply (decode_rejects (length (HgFileName.encode name))); [reflexivity|].
  apply List.Exists_exists in Hbig as (c & Hin & Hc). apply List.Exists_exists.
  exists c. split; [|exact Hc].
  assert (Hplain : forall s, ~ In c (js s)).
  { intros s H. pose proof (js_bytes s) as Hb. rewrite List.Forall_forall in Hb.
    specialize (Hb c H). lia. }
  unfold HgFileName.encode. repeat (apply replaceFirst_keeps; [apply Hplain|]).
  apply in_concat. exists [c]. split; [|now left].
  apply in_map_iff. exists c. split; [now apply encodeChar_wide | assumption].
Qed.

Lemma HgFileName_decode_rejects_wide_witness :
  HgFileName.decode (js "caf" ++ [8364])  = None
  /\ HgFileName.decode (HgFileName.encode (js "caf" ++ [8364])) = None.
Proof.
  apply (HgFileName_decode_rejects_wide (js "caf" ++ [8364])).
  apply List.Exists_exists. exists 8364. split; [vm_compute; tauto | lia].
Defined.

(** ** The event emitter *)

Section EmitterFacts.

Import EventEmitter.

Lemma withArray_twice event a b m :
  withArray event a (withArray event b m) = withArray event a m.
Proof.
  destruct a, b; cbn [withArray];
    first [apply delete_delete_eq | apply delete_insert_eq
          | apply insert_delete_eq | apply insert_insert_eq].
Qed.

Lemma withArray_same event callbacks m :
  m !! event = match callbacks with [] => None | _ => Some callbacks end ->
  withArray event callbacks m = m.
Proof.
  destruct callbacks; cbn [withArray]; intros H;
    [now apply delete_id | now apply insert_id].
Qed.

Lemma closures_app a b : closures (a ++ b) = closures a ++ closures b.
Proof.
  induction a as [|[id|w wrapped] a IH]; cbn [app closures]; [reflexivity|exact IH|].
  now rewrite IH.
Qed.

Lemma closure_In w wrapped callbacks :
  In (OnceCallback w wrapped) callbacks -> In w (closures callbacks).
Proof.
  induction callbacks as [|[id|w' wrapped'] callbacks IH]; cbn [In closures].
  - tauto.
  - intros [H|H]; [discriminate | auto].
  - intros [H|H]; [injection H as -> _; now left | right; auto].
Qed.

Lemma removeFirst_absent cb callbacks :
  ~ In cb callbacks -> removeFirst cb callbacks = callbacks.
Proof.
  induction callbacks as [|c callbacks IH]; intros H; [reflexivity|].
  cbn [removeFirst]. destruct (decide (c = cb)) as [->|_].
  - exfalso. apply H. now left.
  - rewrite IH; [reflexivity|]. intros Hin. apply H. now right.
Qed.

Lemma removeFirst_here cb pre rest :
  ~ In cb pre -> removeFirst cb (pre ++ cb :: rest) = pre ++ rest.
Proof.
  induction pre as [|c pre IH]; intros H; cbn [app removeFirst].
  - now destruct (decide (cb = cb)).
  - destruct (decide (c = cb)) as [->|_]; [exfalso; apply H; now left|].
    rewrite IH; [reflexivity|]. intros Hin. apply H. now right.
Qed.

Lemma off_withArray event cb e callbacks :
  events e !! event = Some callbacks ->
  off event cb e
  = mkEmitter (withArray event (removeFirst cb callbacks) (events e)) (created e).
Proof.
  intros H. unfold off. rewrite H.
  destruct (removeFirst cb callbacks); reflexivity.
Qed.

Lemma forEach_past rounds : forall k event callbacks e log,
  (length callbacks <= k)%nat ->
  forEach rounds k event callbacks e log = (e, log).
Proof.
  induction rounds as [|rounds IH]; intros k event callbacks e log Hk; [reflexivity|].
  cbn [forEach]. rewrite (lookup_ge_None_2 callbacks k) by lia.
  apply IH. lia.
Qed.

Lemma forEach_spec event rounds : forall suf pre e log,
  (length suf <= rounds)%nat ->
  List.NoDup (closures (pre ++ suf)) ->
  events e !! event
  = match pre ++ suf with [] => None | _ => Some (pre ++ suf) end ->
  forEach rounds (length pre) event (pre ++ suf) e log
  = (mkEmitter (withArray event (pre ++ kept suf) (events e)) (created e),
     log ++ called suf).
Proof.
  assert (Hdone : forall pre e log r,
            events e !! event = match pre with [] => None | _ => Some pre end ->
            forEach r (length pre) event pre e log
            = (mkEmitter (withArray event pre (events e)) (created e), log)).
  { intros pre e log r Hmap. rewrite forEach_past by lia.
    rewrite withArray_same by assumption. now destruct e. }
  induction rounds as [|rounds IH]; intros suf pre e log Hlen Hnodup Hmap.
  - destruct suf; [|cbn in Hlen; lia]. cbn [kept called].
    rewrite !app_nil_r in *. now apply Hdone.
  - destruct suf as [|[id|w wrapped] rest].
    + cbn [kept called]. rewrite !app_nil_r in *. now apply Hdone.
    + cbn [forEach]. rewrite list_lookup_middle by reflexivity.
      cbn [kept called length] in *.
      replace (pre ++ User id :: rest) with ((pre ++ [User id]) ++ rest) in *
        by (now rewrite <- app_assoc).
      replace (S (length pre)) with (length (pre ++ [User id]))
        by (rewrite length_app; cbn; lia).
      rewrite IH by (assumption || lia).
      now rewrite <- !app_assoc.
    + cbn [forEach]. rewrite list_lookup_middle by reflexivity.
      assert (Hfresh : ~ In (OnceCallback w wrapped) pre).
      { intros Hin. apply closure_In in Hin. rewrite closures_app in Hnodup.
        cbn [closures] in Hnodup. apply List.NoDup_remove_2 in Hnodup.
        apply Hnodup. apply in_or_app. now left. }
      assert (Hsome : events e !! event = Some (pre ++ OnceCallback w wrapped :: rest)).
      { rewrite Hmap. now destruct pre. }
      rewrite Hsome, (off_withArray _ _ _ _ Hsome), removeFirst_here by assumption.
      assert (Hnodup' : List.NoDup (closures (pre ++ rest))).
      { rewrite closures_app in Hnodup |- *. cbn [closures] in Hnodup.
        now apply List.NoDup_remove_1 in Hnodup. }
      destruct rest as [|next rest'].
      * cbn [kept called]. rewrite !app_nil_r in *.
        rewrite forEach_past by lia. reflexivity.
      * cbn [kept called length] in *.
        replace (pre ++ next :: rest') with ((pre ++ [next]) ++ rest') in *
          by (now rewrite <- app_assoc).
        replace (S (length pre)) with (length (pre ++ [next]))
          by (rewrite length_app; cbn; lia).
        rewrite IH.
        -- cbn [events created]. rewrite withArray_twice. now rewrite <- !app_assoc.
        -- lia.
        -- assumption.
        -- cbn [events]. destruct ((pre ++ [next]) ++ rest') eqn:Harr.
           ++ destruct pre; discriminate.
           ++ cbn [withArray]. now rewrite lookup_insert_eq.
Qed.

Lemma closures_removeFirst cb callbacks :
  List.NoDup (closures callbacks) ->
  List.NoDup (closures (removeFirst cb callbacks))
  /\ forall w, In w (closures (removeFirst cb callbacks)) -> In w (closures callbacks).
Proof.
  induction callbacks as [|[id|w wrapped] callbacks IH]; intros Hnodup;
    cbn [removeFirst closures] in *.
  - split; [constructor | tauto].
  - destruct (decide (User id = cb)); [split; [assumption | tauto]|].
    cbn [closures]. now apply IH.
  - apply List.NoDup_cons_iff in Hnodup as [Hnew Hnodup].
    destruct (decide (OnceCallback w wrapped = cb)).
    + split; [assumption|]. intros; now right.
    + cbn [closures]. destruct (IH Hnodup) as [IH1 IH2]. split.
      * constructor; [|assumption]. intros Hin. apply Hnew. now apply IH2.
      * intros w' [->|Hin]; [now left | right; now apply IH2].
Qed.

Lemma closures_kept callbacks :
  List.NoDup (closures callbacks) ->
  List.NoDup (closures (kept callbacks))
  /\ forall w, In w (closures (kept callbacks)) -> In w (closures callbacks).
Proof.
  remember (length callbacks) as n eqn:Hn. revert callbacks Hn.
  induction n as [n IH] using lt_wf_ind. intros callbacks Hn Hnodup.
  destruct callbacks as [|[id|w wrapped] rest]; cbn [kept closures] in *.
  - split; [constructor | tauto].
  - apply (IH (length rest)); [subst; cbn; lia | reflexivity | assumption].
  - apply List.NoDup_cons_iff in Hnodup as [_ Hnodup].
    destruct rest as [|[id|w' wrapped'] rest']; cbn [closures] in *.
    + split; [apply List.NoDup_nil | intros w0 []].
    + destruct (IH (length rest')) with (callbacks := rest') as [IH1 IH2];
        [subst; cbn; lia | reflexivity | assumption |].
      split; [assumption|]. intros; right; now apply IH2.
    + apply List.NoDup_cons_iff in Hnodup as [Hnew Hnodup].
      destruct (IH (length rest')) with (callbacks := rest') as [IH1 IH2];
        [subst; cbn; lia | reflexivity | assumption |].
      split.
      * constructor; [|assumption]. intros Hin. apply Hnew. now apply IH2.
      * intros w0 [->|Hin]; [right; now left | right; right; now apply IH2].
Qed.

Lemma emit_spec event e :
  wellKept e ->
  emit event e
  = (mkEmitter (withArray event (kept (default [] (events e !! event))) (events e))
               (created e),
     called (default [] (events e !! event))).
Proof.
  intros Hkept. unfold emit.
  destruct (events e !! event) as [callbacks|] eqn:Hmap; cbn [default].
  - destruct (Hkept event callbacks Hmap) as (Hne & Hnodup & _).
    apply (forEach_spec event (length callbacks) callbacks [] e []).
    + reflexivity.
    + exact Hnodup.
    + cbn [app]. rewrite Hmap. now destruct callbacks.
  - cbn [kept called withArray]. rewrite delete_id by assumption. now destruct e.
Qed.

Lemma wellKept_withArray event callbacks e n :
  wellKept e -> (created e <= n)%nat ->
  List.NoDup (closures callbacks) ->
  Forall (fun w => (w < n)%nat) (closures callbacks) ->
  wellKept (mkEmitter (withArray event callbacks (events e)) n).
Proof.
  intros Hkept Hle Hnodup Hold event' callbacks' Hmap. cbn [events created] in *.
  assert (Hother : events e !! event' = Some callbacks' ->
                   callbacks' <> [] /\ List.NoDup (closures callbacks')
                   /\ Forall (fun w => (w < n)%nat) (closures callbacks')).
  { intros H. destruct (Hkept _ _ H) as (H1 & H2 & H3). repeat split; try assumption.
    eapply List.Forall_impl; [|exact H3]. cbn. intros; lia. }
  destruct (decide (event' = event)) as [->|Hne].
  - destruct callbacks as [|c callbacks]; cbn [withArray] in Hmap.
    + now rewrite lookup_delete_eq in Hmap.
    + rewrite lookup_insert_eq in Hmap. injection Hmap as <-.
      repeat split; [discriminate | assumption | assumption].
  - apply Hother. destruct callbacks; cbn [withArray] in Hmap;
      [now rewrite lookup_delete_ne in Hmap | now rewrite lookup_insert_ne in Hmap].
Qed.

Lemma wellKept_step e c : wellKept e -> wellKept (step e c).
Proof.
  intros Hkept.
  assert (Hget : forall event,
            List.NoDup (closures (default [] (events e !! event)))
            /\ Forall (fun w => (w < created e)%nat)
                      (closures (default [] (events e !! event)))).
  { intros event. destruct (events e !! event) as [l|] eqn:H; cbn [default closures].
    - destruct (Hkept _ _ H) as (_ & H2 & H3). now split.
    - split; constructor. }
  destruct c as [event id|event id|event id|event|event]; cbn [step].
  - destruct (Hget event) as [Hnodup Hold]. unfold on.
    assert (Hc : closures (default [] (events e !! event) ++ [User id])
                 = closures (default [] (events e !! event)))
      by (rewrite closures_app; cbn [closures]; now rewrite app_nil_r).
    rewrite <- Hc in Hnodup, Hold.
    pose proof (wellKept_withArray event _ e (created e) Hkept (le_n _) Hnodup Hold)
      as Hnew.
    destruct (default [] (events e !! event) ++ [User id]) eqn:Harr; [|exact Hnew].
    now apply app_eq_nil in Harr as [_ ?].
  - unfold off. destruct (events e !! event) as [l|] eqn:Hmap; [|exact Hkept].
    destruct (Hkept _ _ Hmap) as (_ & Hnodup & Hold).
    destruct (closures_removeFirst (User id) l Hnodup) as [Hnodup' Hsub].
    assert (Hold' : Forall (fun w => (w < created e)%nat)
                      (closures (removeFirst (User id) l))).
    { apply List.Forall_forall. intros w Hw. rewrite List.Forall_forall in Hold. auto. }
    pose proof (wellKept_withArray event _ e (created e) Hkept (le_n _) Hnodup' Hold')
      as Hnew.
    destruct (removeFirst (User id) l); exact Hnew.
  - destruct (Hget event) as [Hnodup Hold]. unfold once, on. cbn [events created].
    assert (Hnodup' : List.NoDup (closures (default [] (events e !! event)
                                            ++ [OnceCallback (created e) id]))).
    { rewrite closures_app. cbn [closures]. apply List.NoDup_app. repeat split.
      - assumption.
      - repeat constructor. intros [].
      - intros w Hw [<-|[]]. rewrite List.Forall_forall in Hold.
        specialize (Hold _ Hw). lia. }
    assert (Hold' : Forall (fun w => (w < S (created e))%nat)
                      (closures (default [] (events e !! event)
                                 ++ [OnceCallback (created e) id]))).
    { rewrite closures_app. cbn [closures]. apply Forall_app. split.
      - eapply List.Forall_impl; [|exact Hold]. cbn. intros; lia.
      - repeat constructor. }
    pose proof (wellKept_withArray event _ e (S (created e)) Hkept
                  (Nat.le_succ_diag_r _) Hnodup' Hold') as Hnew.
    destruct (default [] (events e !! event) ++ [OnceCallback (created e) id])
      eqn:Harr; [|exact Hnew].
    now apply app_eq_nil in Harr as [_ ?].
  - rewrite emit_spec by assumption. cbn [fst].
    destruct (Hget event) as [Hnodup Hold].
    destruct (closures_kept _ Hnodup) as [Hnodup' Hsub].
    apply wellKept_withArray; try assumption; try lia.
    apply List.Forall_forall. intros w Hw. rewrite List.Forall_forall in Hold. auto.
  - unfold removeAllListeners.
    destruct event as [[|c name]|].
    + intros ev l H. cbn in H. now rewrite lookup_empty in H.
    + apply (wellKept_withArray (c :: name) [] e (created e)); try assumption; try lia;
        constructor.
    + intros ev l H. cbn in H. now rewrite lookup_empty in H.
Qed.

Lemma wellKept_after calls : wellKept (after calls).
Proof.
  unfold after.
  assert (H : forall e, wellKept e -> wellKept (fold_left step calls e)).
  { induction calls as [|c calls IH]; intros e He; [exact He|].
    cbn [fold_left]. apply IH. now apply wellKept_step. }
  apply H. intros event l Hl. cbn in Hl. now rewrite lookup_empty in Hl.
Qed.

End EmitterFacts.

(** X22: whatever calls were made before, [emit] calls the functions of
    the event in the order of their subscription, except that the function
    after a closure of [once] is passed over in that round, because the
    closure removes itself from the array under the loop; the closures of
    [once] that ran are gone afterwards, the functions passed over stay,
    and the event is dropped from the map when its array ends up empty. *)
Theorem emit_calls (calls : list EventEmitter.call) (event : list N) :
  EventEmitter.emit event (EventEmitter.after calls)
  = (EventEmitter.mkEmitter
       (withArray event
          (EventEmitter.kept
             (default [] (EventEmitter.events (EventEmitter.after calls) !! event)))
          (EventEmitter.events (EventEmitter.after calls)))
       (EventEmitter.created (EventEmitter.after calls)),
     EventEmitter.called
       (default [] (EventEmitter.events (EventEmitter.after calls) !! event))).
Proof.
  pose proof (wellKept_after calls) as Hkept. unfold EventEmitter.emit.
  destruct (EventEmitter.events (EventEmitter.after calls) !! event)
    as [callbacks|] eqn:Hmap; cbn [default].
  - destruct (Hkept event callbacks Hmap) as (Hne & Hnodup & _).
    apply (forEach_spec event (length callbacks) callbacks []
             (EventEmitter.after calls) []).
    + reflexivity.
    + exact Hnodup.
    + cbn [app]. rewrite Hmap. now destruct callbacks.
  - cbn [EventEmitter.kept EventEmitter.called withArray].
    rewrite delete_id by assumption. now destruct (EventEmitter.after calls).
Qed.

(** X23: after any sequence of calls no event is left with an empty
    array: [listenerCount] of an event is positive exactly when the map
    has the event, so [eventNames] names the events that have a
    listener. *)
Theorem listenerCount_positive (calls : list EventEmitter.call) (event : list N) :
  (0 < EventEmitter.listenerCount event (EventEmitter.after calls))%nat
  <-> is_Some (EventEmitter.events (EventEmitter.after calls) !! event).
Proof.
  unfold EventEmitter.listenerCount.
  destruct (EventEmitter.events (EventEmitter.after calls) !! event) as [l|] eqn:H.
  - destruct (wellKept_after calls event l H) as (Hne & _).
    split; [eauto | intros _]. destruct l; [congruence | cbn; lia].
  - split; [lia | intros [? ?]; discriminate].
Qed.

(** ** The message channel *)

Lemma send_inOrder c to callback f :
  ordered f ->
  (Z.of_nat (length (ZeroFrame.posted f)) + 1 < 9007199254740992)%Z ->
  match callback with
  | Some closure =>
      (forall id, ZeroFrame.waitingCallbacks f !! id <> Some closure)
      /\ ~ In closure (List.map fst (ZeroFrame.settled f))
      /\ ZeroFrame.cmds f = S closure
      /\ (forall k, (k < closure)%nat ->
            In k (List.map fst (ZeroFrame.settled f))
            \/ exists id, ZeroFrame.waitingCallbacks f !! id = Some k)
      /\ (forall id k, ZeroFrame.waitingCallbacks f !! id = Some k -> (k < closure)%nat)
      /\ (forall k, In k (List.map fst (ZeroFrame.settled f)) -> (k < closure)%nat)
  | None =>
      (forall closure, (closure < ZeroFrame.cmds f)%nat ->
         In closure (List.map fst (ZeroFrame.settled f))
         \/ exists id, ZeroFrame.waitingCallbacks f !! id = Some closure)
  end ->
  inOrder (ZeroFrame.send c to callback f)
  /\ length (ZeroFrame.posted (ZeroFrame.send c to callback f))
     = S (length (ZeroFrame.posted f)).
Proof.
  intros (Hnext & Hids & Hwait & Hinj & Hnodup & Hset) Hbound Hcb.
  split; [|cbn; rewrite length_app; cbn; lia].
  unfold inOrder, ordered, ZeroFrame.send.
  cbn [ZeroFrame.nextMessageId ZeroFrame.waitingCallbacks ZeroFrame.posted
       ZeroFrame.cmds ZeroFrame.settled].
  assert (Hincr : ZeroFrame.increment (ZeroFrame.nextMessageId f)
                  = (ZeroFrame.nextMessageId f + 1)%Z).
  { unfold ZeroFrame.increment.
    replace (ZeroFrame.nextMessageId f <? 9007199254740992)%Z with true
      by (symmetry; apply Z.ltb_lt; lia). reflexivity. }
  rewrite Hincr, length_app. cbn [length].
  assert (Hids' : List.map ZeroFrame.m_id
                    (ZeroFrame.posted f ++ [ZeroFrame.mkMessage c to (ZeroFrame.nextMessageId f)])
                  = List.map Z.of_nat (seq 1 (length (ZeroFrame.posted f) + 1))).
  { rewrite List.map_app, Hids. cbn [List.map ZeroFrame.m_id].
    replace (length (ZeroFrame.posted f) + 1)%nat
      with (S (length (ZeroFrame.posted f))) by lia.
    rewrite seq_S, List.map_app. cbn [List.map]. do 2 f_equal. lia. }
  destruct callback as [closure|].
  - destruct Hcb as (Hnew & Hnotset & Hcmds & Hall & Hwlt & Hslt).
    repeat split; [lia | exact Hids' | ..].
    + destruct (decide (id = ZeroFrame.nextMessageId f)) as [->|Hne]; [lia|].
      rewrite lookup_insert_ne in H by congruence. apply Hwait in H. lia.
    + destruct (decide (id = ZeroFrame.nextMessageId f)) as [->|Hne]; [lia|].
      rewrite lookup_insert_ne in H by congruence. apply Hwait in H. lia.
    + destruct (decide (id = ZeroFrame.nextMessageId f)) as [->|Hne].
      * rewrite lookup_insert_eq in H. injection H as <-. lia.
      * rewrite lookup_insert_ne in H by congruence. apply Hwait in H. lia.
    + intros id id' k H H'.
      destruct (decide (id = ZeroFrame.nextMessageId f)) as [->|Hne];
        destruct (decide (id' = ZeroFrame.nextMessageId f)) as [->|Hne'];
        try reflexivity.
      * rewrite lookup_insert_eq in H. injection H as <-.
        rewrite lookup_insert_ne in H' by congruence. now apply Hnew in H'.
      * rewrite lookup_insert_eq in H'. injection H' as <-.
        rewrite lookup_insert_ne in H by congruence. now apply Hnew in H.
      * rewrite lookup_insert_ne in H, H' by congruence. eapply Hinj; eassumption.
    + exact Hnodup.
    + apply Hset in H. lia.
    + intros id Hid.
      destruct (decide (id = ZeroFrame.nextMessageId f)) as [->|Hne].
      * rewrite lookup_insert_eq in Hid. injection Hid as ->. now apply Hnotset.
      * rewrite lookup_insert_ne in Hid by congruence.
        apply (proj2 (Hset _ H) id Hid).
    + intros k Hk. destruct (decide (k = closure)) as [->|Hne].
      * right. exists (ZeroFrame.nextMessageId f). now rewrite lookup_insert_eq.
      * destruct (Hall k) as [Hin|(id & Hid)]; [lia | now left | right].
        exists id. rewrite lookup_insert_ne; [exact Hid|].
        intros <-. apply Hwait in Hid. lia.
  - repeat split; try assumption; try lia.
    all: try (apply Hwait in H; lia).
    all: now apply Hset in H.
Qed.

Lemma cmd_inOrder c f :
  inOrder f ->
  (Z.of_nat (length (ZeroFrame.posted f)) + 1 < 9007199254740992)%Z ->
  inOrder (ZeroFrame.cmd c f)
  /\ length (ZeroFrame.posted (ZeroFrame.cmd c f)) = S (length (ZeroFrame.posted f)).
Proof.
  intros Hf Hbound.
  pose proof Hf as ((Hnext & Hids & Hwait & Hinj & Hnodup & Hset) & Hall).
  unfold ZeroFrame.cmd.
  set (f0 := ZeroFrame.mkFrame (ZeroFrame.nextMessageId f) (ZeroFrame.waitingCallbacks f)
               (ZeroFrame.posted f) (ZeroFrame.isConnected f) (S (ZeroFrame.cmds f))
               (ZeroFrame.settled f)).
  assert (H0 : ordered f0).
  { unfold ordered, f0. cbn. repeat split; try assumption.
    all: try (apply Hwait in H; lia).
    - apply Hset in H. lia.
    - now apply Hset in H. }
  destruct (send_inOrder c None (Some (ZeroFrame.cmds f)) f0 H0 Hbound) as [H1 H2].
  { unfold f0. cbn. repeat split.
    - intros id Hid. apply Hwait in Hid. lia.
    - intros Hin. apply Hset in Hin. lia.
    - intros k Hk. now apply Hall.
    - intros id k Hid. now apply Hwait in Hid.
    - intros k Hin. now apply Hset in Hin. }
  split; [exact H1 | exact H2].
Qed.

Lemma handleResponse_inOrder to result f :
  inOrder f ->
  inOrder (ZeroFrame.handleResponse to result f)
  /\ ZeroFrame.posted (ZeroFrame.handleResponse to result f) = ZeroFrame.posted f.
Proof.
  intros Hf. pose proof Hf as ((Hnext & Hids & Hwait & Hinj & Hnodup & Hset) & Hall).
  unfold ZeroFrame.handleResponse. destruct to as [id|]; [|now split].
  destruct (ZeroFrame.waitingCallbacks f !! id) as [closure|] eqn:Hid; [|now split].
  split; [|reflexivity]. unfold inOrder, ordered. cbn. rewrite List.map_app.
  cbn [List.map fst].
  repeat split; try assumption.
  - apply lookup_delete_Some in H as [_ H]. now apply Hwait in H.
  - apply lookup_delete_Some in H as [_ H]. now apply Hwait in H.
  - apply lookup_delete_Some in H as [_ H]. now apply Hwait in H.
  - intros id1 id2 k H1 H2. apply lookup_delete_Some in H1 as [_ H1].
    apply lookup_delete_Some in H2 as [_ H2]. eapply Hinj; eassumption.
  - apply List.NoDup_app. repeat split.
    + assumption.
    + repeat constructor. intros [].
    + intros k Hk [<-|[]]. apply Hset in Hk as [_ Hk]. now apply (Hk id).
  - apply in_app_iff in H as [H|[<-|[]]]; [now apply Hset in H|].
    now apply Hwait in Hid.
  - intros id' Hid'. apply lookup_delete_Some in Hid' as [Hne Hid'].
    apply in_app_iff in H as [H|[<-|[]]].
    + apply (proj2 (Hset _ H) id' Hid').
    + apply Hne. eapply Hinj; eassumption.
  - intros k Hk. destruct (Hall k Hk) as [Hin|(id' & Hid')].
    + left. apply in_app_iff. now left.
    + destruct (decide (id' = id)) as [->|Hne].
      * left. apply in_app_iff. right. left. congruence.
      * right. exists id'. now rewrite lookup_delete_ne.
Qed.

Lemma step_inOrder f a :
  inOrder f ->
  (Z.of_nat (length (ZeroFrame.posted f)) + 1 < 9007199254740992)%Z ->
  inOrder (ZeroFrame.step f a)
  /\ (length (ZeroFrame.posted (ZeroFrame.step f a))
      <= S (length (ZeroFrame.posted f)))%nat.
Proof.
  intros Hf Hbound. destruct a as [c|[to result| |id| | |c]]; cbn [ZeroFrame.step ZeroFrame.onMessage].
  - destruct (cmd_inOrder c f Hf Hbound) as [H1 H2]. split; [exact H1 | lia].
  - destruct (handleResponse_inOrder to result f Hf) as [H1 H2].
    split; [exact H1 | rewrite H2; lia].
  - destruct (cmd_inOrder (js "innerReady") f Hf Hbound) as [H1 H2].
    cbn [ZeroFrame.posted]. split; [exact H1 | lia].
  - unfold ZeroFrame.response.
    destruct (send_inOrder (js "response") (Some id) None f (proj1 Hf) Hbound)
      as [H1 H2].
    + apply Hf.
    + split; [exact H1 | lia].
  - split; [exact Hf | lia].
  - split; [exact Hf | lia].
  - split; [exact Hf | lia].
Qed.

Lemma new_inOrder : inOrder ZeroFrame.new /\ length (ZeroFrame.posted ZeroFrame.new) = 1%nat.
Proof.
  unfold ZeroFrame.new. apply cmd_inOrder; [|cbn; lia].
  unfold inOrder, ordered. cbn.
  repeat split; try (intros; rewrite lookup_empty in *; discriminate);
    try constructor; try tauto; intros; lia.
Qed.

Lemma after_inOrder actions :
  (Z.of_nat (length actions) + 2 < 9007199254740992)%Z ->
  inOrder (ZeroFrame.after actions)
  /\ (length (ZeroFrame.posted (ZeroFrame.after actions)) <= S (length actions))%nat.
Proof.
  unfold ZeroFrame.after.
  assert (H : forall f n,
            inOrder f -> (length (ZeroFrame.posted f) <= n)%nat ->
            (Z.of_nat (length actions) + Z.of_nat n + 1 < 9007199254740992)%Z ->
            inOrder (fold_left ZeroFrame.step actions f)
            /\ (length (ZeroFrame.posted (fold_left ZeroFrame.step actions f))
                <= n + length actions)%nat).
  { induction actions as [|a actions IH]; intros f n Hf Hn Hbound.
    - cbn. split; [exact Hf | lia].
    - cbn [fold_left length] in *.
      destruct (step_inOrder f a Hf) as [H1 H2]; [lia|].
      destruct (IH (ZeroFrame.step f a) (S n) H1) as [H3 H4]; [lia | lia |].
      split; [exact H3 | lia]. }
  intros Hbound. destruct new_inOrder as [Hnew Hlen].
  destruct (H ZeroFrame.new 1%nat Hnew) as [H1 H2]; [lia | lia |].
  split; [exact H1 | lia].
Qed.

(** X24: a channel gives its messages the ids 1, 2, 3, ... in the order
    in which they are posted, as long as fewer than 2^53 were posted; the
    next id is one more than the number of messages posted, and a waiting
    callback is always kept under the id of a message already posted, so a
    new message never takes the id of a waiting callback. *)
Theorem ZeroFrame_ids_in_order (actions : list ZeroFrame.action) :
  (Z.of_nat (length actions) + 2 < 9007199254740992)%Z ->
  List.map ZeroFrame.m_id (ZeroFrame.posted (ZeroFrame.after actions))
  = List.map Z.of_nat (seq 1 (length (ZeroFrame.posted (ZeroFrame.after actions))))
  /\ ZeroFrame.nextMessageId (ZeroFrame.after actions)
     = (Z.of_nat (length (ZeroFrame.posted (ZeroFrame.after actions))) + 1)%Z
  /\ (forall id closure,
        ZeroFrame.waitingCallbacks (ZeroFrame.after actions) !! id = Some closure ->
        (1 <= id < ZeroFrame.nextMessageId (ZeroFrame.after actions))%Z).
Proof.
  intros Hbound. destruct (after_inOrder actions Hbound) as [((H1 & H2 & H3 & _) & _) _].
  repeat split; try assumption; now apply H3 in H.
Qed.

Lemma ZeroFrame_ids_in_order_witness :
  List.map ZeroFrame.m_id (ZeroFrame.posted (ZeroFrame.after sampleTraffic))
  = List.map Z.of_nat (seq 1 (length (ZeroFrame.posted (ZeroFrame.after sampleTraffic))))
  /\ ZeroFrame.nextMessageId (ZeroFrame.after sampleTraffic)
     = (Z.of_nat (length (ZeroFrame.posted (ZeroFrame.after sampleTraffic))) + 1)%Z
  /\ (forall id closure,
        ZeroFrame.waitingCallbacks (ZeroFrame.after sampleTraffic) !! id = Some closure ->
        (1 <= id < ZeroFrame.nextMessageId (ZeroFrame.after sampleTraffic))%Z).
Proof. apply (ZeroFrame_ids_in_order sampleTraffic). reflexivity. Defined.

(** X25: as long as fewer than 2^53 messages were posted, the promise of
    every [cmd] is either pending, its closure waiting under exactly one
    id, or was settled exactly once: no closure is called twice, none is
    called while still waiting, and none is lost. *)
Theorem ZeroFrame_settles_once (actions : list ZeroFrame.action) :
  (Z.of_nat (length actions) + 2 < 9007199254740992)%Z ->
  List.NoDup (List.map fst (ZeroFrame.settled (ZeroFrame.after actions)))
  /\ (forall closure,
        (closure < ZeroFrame.cmds (ZeroFrame.after actions))%nat ->
        (In closure (List.map fst (ZeroFrame.settled (ZeroFrame.after actions)))
         /\ forall id, ZeroFrame.waitingCallbacks (ZeroFrame.after actions) !! id
                       <> Some closure)
        \/ (~ In closure (List.map fst (ZeroFrame.settled (ZeroFrame.after actions)))
            /\ exists id,
                 ZeroFrame.waitingCallbacks (ZeroFrame.after actions) !! id = Some closure
                 /\ forall id',
                      ZeroFrame.waitingCallbacks (ZeroFrame.after actions) !! id'
                      = Some closure -> id' = id)).
Proof.
  intros Hbound.
  destruct (after_inOrder actions Hbound)
    as [((_ & _ & _ & Hinj & Hnodup & Hset) & Hall) _].
  split; [exact Hnodup|]. intros closure Hlt.
  destruct (Hall closure Hlt) as [Hin|(id & Hid)].
  - left. split; [exact Hin | now apply Hset].
  - right. split.
    + intros Hin. apply Hset in Hin as [_ Hin]. now apply (Hin id).
    + exists id. split; [exact Hid|]. intros id' Hid'. eapply Hinj; eassumption.
Qed.

Lemma ZeroFrame_settles_once_witness :
  List.NoDup (List.map fst (ZeroFrame.settled (ZeroFrame.after sampleTraffic)))
  /\ (forall closure,
        (closure < ZeroFrame.cmds (ZeroFrame.after sampleTraffic))%nat ->
        (In closure (List.map fst (ZeroFrame.settled (ZeroFrame.after sampleTraffic)))
         /\ forall id, ZeroFrame.waitingCallbacks (ZeroFrame.after sampleTraffic) !! id
                       <> Some closure)
        \/ (~ In closure (List.map fst (ZeroFrame.settled (ZeroFrame.after sampleTraffic)))
            /\ exists id,
                 ZeroFrame.waitingCallbacks (ZeroFrame.after sampleTraffic) !! id
                 = Some closure
                 /\ forall id',
                      ZeroFrame.waitingCallbacks (ZeroFrame.after sampleTraffic) !! id'
                      = Some closure -> id' = id)).
Proof. apply (ZeroFrame_settles_once sampleTraffic). reflexivity. Defined.

(** ** The cache with expiry *)

Lemma clockUpTo_head now t times : clockUpTo now (t :: times) -> (t <= now)%Z.
Proof.
  revert t. induction times as [|t' times IH]; intros t H; cbn in H; [exact H|].
  destruct H as [Hle H]. specialize (IH t' H). lia.
Qed.

Lemma clockUpTo_tail now t times : clockUpTo now (t :: times) -> clockUpTo now times.
Proof. destruct times; cbn; [trivial | tauto]. Qed.

Lemma tracks_cleanup d now t c m :
  (t <= now)%Z -> tracks d now c m -> tracks d now (Cache.cleanup t c) m.
Proof.
  intros Ht (Hd & Hsub & Hgone). unfold tracks, Cache.cleanup. cbn.
  repeat split; [exact Hd | |].
  - intros key e H. apply map_lookup_filter_Some in H as [H _]. now apply Hsub.
  - intros key e Hm Hnone.
    destruct (Cache.entries c !! key) as [e'|] eqn:Hc; [|now apply (Hgone key)].
    pose proof (Hsub _ _ Hc) as Hm'. rewrite Hm in Hm'. injection Hm' as <-.
    destruct (decide (t <= Cache.expiresAt e)%Z) as [Hlive|Hdead]; [|lia].
    assert (Hin : filter (fun kv => (t <= Cache.expiresAt (snd kv))%Z) (Cache.entries c)
                    !! key = Some e)
      by (apply map_lookup_filter_Some; split; assumption).
    congruence.
Qed.

Lemma tracks_get d now t key c m :
  (t <= now)%Z -> tracks d now c m -> tracks d now (snd (Cache.get key t c)) m.
Proof.
  intros Ht (Hd & Hsub & Hgone). unfold Cache.get.
  destruct (Cache.entries c !! key) as [e|] eqn:Hc; [|now repeat split].
  destruct (Z.ltb_spec (Cache.expiresAt e) t) as [Hdead|Hlive]; [|now repeat split].
  unfold tracks. cbn. repeat split; [exact Hd | |].
  - intros key' e' H. apply lookup_delete_Some in H as [_ H]. now apply Hsub.
  - intros key' e' Hm Hnone. apply lookup_delete_None in Hnone as [<-|Hnone].
    + pose proof (Hsub _ _ Hc) as Hm'. rewrite Hm in Hm'. injection Hm' as <-. lia.
    + now apply (Hgone key').
Qed.

Lemma tracks_step d now c m call :
  tracks d now c m ->
  clockUpTo now (readings [call]) ->
  tracks d now (Cache.step c call)
         (match call with
          | Cache.Set_ key v ttl t => <[key := Cache.mkEntry v (t + default d ttl)%Z]> m
          | Cache.Delete key => delete key m
          | Cache.Clear => ∅
          | _ => m
          end).
Proof.
  intros Htracks Hclock. pose proof Htracks as (Hd & Hsub & Hgone).
  destruct call as [key v ttl t|key t|key t|key| |t|t]; cbn [Cache.step];
    cbn in Hclock.
  - unfold Cache.set, Cache.scheduleCleanup. cbn [Cache.cleanupTimer Cache.entries Cache.defaultTTL].
    assert (Hgoal : forall timer,
              tracks d now
                (Cache.mkCache
                   (<[key := Cache.mkEntry v (t + default (Cache.defaultTTL c) ttl)%Z]>
                      (Cache.entries c)) (Cache.defaultTTL c) timer)
                (<[key := Cache.mkEntry v (t + default d ttl)%Z]> m)).
    { intros timer. unfold tracks. cbn. rewrite Hd. repeat split.
      - intros key' e' H. destruct (decide (key' = key)) as [->|Hne].
        + rewrite lookup_insert_eq in H |- *. exact H.
        + rewrite lookup_insert_ne in H |- * by congruence. now apply Hsub.
      - intros key' e' Hm Hnone. destruct (decide (key' = key)) as [->|Hne].
        + now rewrite lookup_insert_eq in Hnone.
        + rewrite lookup_insert_ne in Hm, Hnone by congruence. now apply (Hgone key'). }
    destruct (Cache.cleanupTimer c); apply Hgoal.
  - now apply tracks_get.
  - unfold Cache.has. pose proof (tracks_get d now t key c m Hclock Htracks) as H.
    destruct (Cache.get key t c) as [[|v] c']; exact H.
  - unfold tracks. cbn. repeat split; [exact Hd | |].
    + intros key' e' H. apply lookup_delete_Some in H as [Hne H].
      rewrite lookup_delete_ne by congruence. now apply Hsub.
    + intros key' e' Hm Hnone. apply lookup_delete_Some in Hm as [Hne Hm].
      rewrite lookup_delete_ne in Hnone by congruence. now apply (Hgone key').
  - unfold tracks. cbn. repeat split; [exact Hd | |]; intros key e H;
      now rewrite lookup_empty in H.
  - now apply tracks_cleanup.
  - unfold Cache.timerFires. pose proof (tracks_cleanup d now t c m Hclock Htracks) as H.
    exact H.
Qed.

Lemma tracks_after d now calls :
  clockUpTo now (readings calls) ->
  tracks d now (Cache.after d calls) (stored d calls).
Proof.
  unfold Cache.after, stored.
  assert (H : forall c m,
            tracks d now c m -> clockUpTo now (readings calls) ->
            tracks d now (fold_left Cache.step calls c)
              (fold_left (fun m call =>
                 match call with
                 | Cache.Set_ key v ttl t =>
                     <[key := Cache.mkEntry v (t + default d ttl)%Z]> m
                 | Cache.Delete key => delete key m
                 | Cache.Clear => ∅
                 | _ => m
                 end) calls m)).
  { induction calls as [|call calls IH]; intros c m Htracks Hclock; [exact Htracks|].
    cbn [fold_left]. apply IH.
    - apply tracks_step; [exact Htracks|].
      destruct call; cbn in Hclock |- *; try trivial;
        now apply clockUpTo_head in Hclock.
    - destruct call; cbn in Hclock |- *; try exact Hclock;
        now apply clockUpTo_tail in Hclock. }
  intros Hclock. apply H; [|exact Hclock].
  unfold tracks. cbn. repeat split; intros key e H0; now rewrite lookup_empty in H0.
Qed.

(** X26: with a clock that never goes back, [get] answers from what was
    last stored under the key: it returns the value of the most recent
    [set] of the key that no [delete] or [clear] followed, provided the
    time is not past its expiry, and [undefined] otherwise, whatever
    reads, size requests and timer clean-ups happened in between. *)
Theorem Cache_get_last_stored (d : Z) (calls : list Cache.call) (key : list N) (now : Z) :
  clockUpTo now (readings calls) ->
  fst (Cache.get key now (Cache.after d calls))
  = match stored d calls !! key with
    | Some e => if (Cache.expiresAt e <? now)%Z then Cache.Undefined else Cache.e_value e
    | None => Cache.Undefined
    end.
Proof.
  intros Hclock. destruct (tracks_after d now calls Hclock) as (_ & Hsub & Hgone).
  unfold Cache.get.
  destruct (Cache.entries (Cache.after d calls) !! key) as [e|] eqn:Hc.
  - rewrite (Hsub _ _ Hc). now destruct (Cache.expiresAt e <? now)%Z.
  - destruct (stored d calls !! key) as [e|] eqn:Hm; [|reflexivity].
    specialize (Hgone _ _ Hm Hc).
    now replace (Cache.expiresAt e <? now)%Z with true by (symmetry; apply Z.ltb_lt; lia).
Qed.

(** X27: with a clock that never goes back, [size] counts the keys
    whose last stored entry, not deleted since, has not expired: entries
    that a read or the timer removed earlier and entries still held
    though expired make no difference. *)
Theorem Cache_size_live (d : Z) (calls : list Cache.call) (now : Z) :
  clockUpTo now (readings calls) ->
  fst (Cache.size now (Cache.after d calls)) = size (live now (stored d calls))
  /\ Cache.entries (snd (Cache.size now (Cache.after d calls))) = live now (stored d calls).
Proof.
  intros Hclock. destruct (tracks_after d now calls Hclock) as (_ & Hsub & Hgone).
  assert (Heq : filter (fun kv => (now <= Cache.expiresAt (snd kv))%Z)
                       (Cache.entries (Cache.after d calls))
                = live now (stored d calls)).
  { unfold live. apply map_eq. intros key. apply option_eq. intros e.
    rewrite !map_lookup_filter_Some. cbn [snd]. split; intros [H Hlive].
    - split; [now apply Hsub | exact Hlive].
    - split; [|exact Hlive].
      destruct (Cache.entries (Cache.after d calls) !! key) as [e'|] eqn:Hc.
      + now rewrite (Hsub _ _ Hc) in H.
      + specialize (Hgone _ _ H Hc). lia. }
  unfold Cache.size, Cache.cleanup. cbn [fst snd Cache.entries]. now rewrite Heq.
Qed.

Lemma Cache_get_last_stored_witness :
  fst (Cache.get (js "a") 50%Z (Cache.after 300000%Z sampleCalls))
  = match stored 300000%Z sampleCalls !! js "a" with
    | Some e => if (Cache.expiresAt e <? 50)%Z then Cache.Undefined else Cache.e_value e
    | None => Cache.Undefined
    end.
Proof.
  apply (Cache_get_last_stored 300000%Z sampleCalls (js "a") 50%Z).
  cbn. lia.
Defined.

Lemma Cache_size_live_witness :
  fst (Cache.size 60%Z (Cache.after 300000%Z sampleCalls))
  = size (live 60%Z (stored 300000%Z sampleCalls))
  /\ Cache.entries (snd (Cache.size 60%Z (Cache.after 300000%Z sampleCalls)))
     = live 60%Z (stored 300000%Z sampleCalls).
Proof.
  apply (Cache_size_live 300000%Z sampleCalls 60%Z).
  cbn. lia.
Defined.

(** ** The Mercurial branch list *)

Lemma findIndex_Some {A} (p : A -> bool) arr i :
  Hg.findIndex p arr = Some i ->
  exists x, nth_error arr i = Some x /\ p x = true.
Proof.
  revert i. induction arr as [|y arr IH]; intros i H; [discriminate|].
  cbn [Hg.findIndex] in H. destruct (p y) eqn:Hy.
  - injection H as <-. exists y. now split.
  - destruct (Hg.findIndex p arr) as [j|]; [|discriminate]. injection H as <-.
    destruct (IH j eq_refl) as (x & Hx & Hp). exists x. now split.
Qed.

Lemma findIndex_In {A} (p : A -> bool) arr x :
  In x arr -> p x = true -> exists i, Hg.findIndex p arr = Some i.
Proof.
  induction arr as [|y arr IH]; intros Hin Hp; [destruct Hin|].
  cbn [Hg.findIndex]. destruct (p y) eqn:Hy; [eauto|].
  destruct Hin as [->|Hin]; [congruence|].
  destruct (IH Hin Hp) as (i & ->). eauto.
Qed.

Lemma sameBranch_eq a b : Hg.sameBranch a b = true <-> a = b.
Proof.
  unfold Hg.sameBranch, jsstring_eqb. rewrite andb_true_iff, !bool_decide_eq_true.
  destruct a, b; cbn. split; [intros [-> ->]; reflexivity | intros [= -> ->]; now split].
Qed.

Lemma combine_seq_In {A} (arr : list A) : forall start i x,
  In (i, x) (combine (seq start (length arr)) arr)
  <-> (start <= i)%nat /\ nth_error arr (i - start) = Some x.
Proof.
  induction arr as [|y arr IH]; intros start i x; cbn [length seq combine In].
  - split; [tauto | intros [_ H]]. now destruct (i - start)%nat.
  - rewrite IH. split.
    + intros [[= <- <-]|[Hle Hnth]].
      * split; [lia|]. now rewrite Nat.sub_diag.
      * split; [lia|]. replace (i - start)%nat with (S (i - S start)) by lia. exact Hnth.
    + intros [Hle Hnth]. destruct (decide (i = start)) as [->|Hne].
      * left. rewrite Nat.sub_diag in Hnth. cbn in Hnth. congruence.
      * right. split; [lia|].
        replace (i - start)%nat with (S (i - S start)) in Hnth by lia. exact Hnth.
Qed.

Lemma firstOccurrences_In arr b : In b (Hg.firstOccurrences arr) <-> In b arr.
Proof.
  unfold Hg.firstOccurrences. rewrite in_map_iff. split.
  - intros ([i x] & <- & Hin). apply filter_In in Hin as [Hin _].
    apply combine_seq_In in Hin as [_ Hnth]. cbn [snd]. eapply nth_error_In, Hnth.
  - intros Hin.
    destruct (findIndex_In (Hg.sameBranch b) arr b Hin) as (i & Hi);
      [now apply sameBranch_eq|].
    destruct (findIndex_Some _ _ _ Hi) as (x & Hx & Hsame).
    apply sameBranch_eq in Hsame. subst x.
    exists (i, b). split; [reflexivity|]. apply filter_In. split.
    + apply combine_seq_In. split; [lia|]. now rewrite Nat.sub_0_r.
    + cbn [fst snd]. rewrite Hi. apply Nat.eqb_refl.
Qed.

Lemma codeUnitCompare_flip a : forall b,
  (0 < codeUnitCompare a b)%Z -> (codeUnitCompare b a <= 0)%Z.
Proof.
  induction a as [|x a IH]; intros [|y b]; cbn [codeUnitCompare]; try lia.
  destruct (N.ltb_spec x y), (N.ltb_spec y x); try lia. apply IH.
Qed.

Lemma insertName_sorted x sorted :
  Sorted (fun a b => (codeUnitCompare a b <= 0)%Z) sorted ->
  Sorted (fun a b => (codeUnitCompare a b <= 0)%Z) (Hg.insertName x sorted).
Proof.
  induction 1 as [|z sorted Hsorted IH Hhd]; cbn [Hg.insertName].
  - repeat constructor.
  - destruct (Z.leb_spec (codeUnitCompare x z) 0) as [Hle|Hgt].
    + constructor; [now constructor | now constructor].
    + constructor; [exact IH|].
      destruct sorted as [|w sorted]; cbn [Hg.insertName].
      * constructor. now apply codeUnitCompare_flip.
      * destruct (codeUnitCompare x w <=? 0)%Z.
        -- constructor. now apply codeUnitCompare_flip.
        -- inversion Hhd; subst. now constructor.
Qed.

Lemma sortNames_sorted names :
  Sorted (fun a b => (codeUnitCompare a b <= 0)%Z) (Hg.sortNames names).
Proof.
  induction names as [|x names IH]; cbn [Hg.sortNames]; [constructor|].
  now apply insertName_sorted.
Qed.

Lemma insertName_permutation x sorted : Permutation (Hg.insertName x sorted) (x :: sorted).
Proof.
  induction sorted as [|y sorted IH]; cbn [Hg.insertName]; [reflexivity|].
  destruct (codeUnitCompare x y <=? 0)%Z; [reflexivity|].
  rewrite IH. apply perm_swap.
Qed.

Lemma sortNames_permutation names : Permutation (Hg.sortNames names) names.
Proof.
  induction names as [|x names IH]; cbn [Hg.sortNames]; [reflexivity|].
  rewrite insertName_permutation. now apply perm_skip.
Qed.

Lemma combine_seq_NoDup {A} (arr : list A) : forall start,
  List.NoDup (combine (seq start (length arr)) arr).
Proof.
  induction arr as [|y arr IH]; intros start; cbn [length seq combine].
  - apply List.NoDup_nil.
  - apply List.NoDup_cons; [|apply IH].
    intros Hin. apply combine_seq_In in Hin as [Hle _]. lia.
Qed.

Lemma firstOccurrences_NoDup arr : List.NoDup (Hg.firstOccurrences arr).
Proof.
  unfold Hg.firstOccurrences. apply NoDup_map_NoDup_ForallPairs.
  - intros [i x] [j y] Hx Hy Heq. cbn [snd] in Heq. subst y.
    apply filter_In in Hx as [_ Hx]. apply filter_In in Hy as [_ Hy].
    cbn [fst snd] in Hx, Hy.
    destruct (Hg.findIndex (Hg.sameBranch x) arr) as [k|]; [|discriminate].
    apply Nat.eqb_eq in Hx, Hy. congruence.
  - apply List.NoDup_filter, combine_seq_NoDup.
Qed.

(** The name that the code takes from the pieces of a line is the name
    of the line. *)
Lemma branchName_lineName parts : Hg.branchName parts = lineName parts.
Proof.
  unfold Hg.branchName, lineName.
  destruct parts as [|p0 [|p1 [|p2 parts]]]; reflexivity.
Qed.

Lemma fieldb_spec field :
  fieldb field = true ->
  ~ In 32 field /\ ~ In 10 field /\ Forall (fun c => c < 256) field.
Proof.
  unfold fieldb. rewrite forallb_forall. intros H.
  assert (Hc : forall c, In c field -> c <> 32 /\ c <> 10 /\ c < 256).
  { intros c Hin. specialize (H c Hin).
    apply andb_true_iff in H as [H Hb]. apply andb_true_iff in H as [Hs Hn].
    apply negb_true_iff, N.eqb_neq in Hs, Hn. apply N.ltb_lt in Hb. auto. }
  repeat split.
  - intros Hin. now destruct (Hc 32 Hin).
  - intros Hin. now destruct (Hc 10 Hin) as (_ & ? & _).
  - apply List.Forall_forall. intros c Hin. now apply Hc.
Qed.

Lemma join_free c sep parts :
  ~ In c sep -> Forall (fun part => ~ In c part) parts -> ~ In c (join sep parts).
Proof.
  intros Hsep. induction 1 as [|part parts Hpart Hparts IH]; [intros []|].
  destruct parts as [|part' parts']; [exact Hpart|].
  change (join sep (part :: part' :: parts'))
    with (part ++ sep ++ join sep (part' :: parts')).
  rewrite !in_app_iff. tauto.
Qed.

Lemma branchOfLine_fields fields :
  forallb fieldb fields = true ->
  Hg.branchOfLine (join [32] fields) = lineBranch fields.
Proof.
  intros Hfields. unfold Hg.branchOfLine, lineBranch.
  rewrite split_join.
  - rewrite branchName_lineName. destruct fields as [|f fields]; [reflexivity|].
    destruct (lineName (f :: fields)); reflexivity.
  - apply List.Forall_forall. intros field Hin. rewrite forallb_forall in Hfields.
    now apply fieldb_spec, Hfields.
Qed.

Lemma omap_lines table :
  forallb (forallb fieldb) table = true ->
  omap Hg.branchOfLine (List.map (join [32]) table) = cacheBranches table.
Proof.
  induction table as [|fields table IH]; intros Htable; [reflexivity|].
  cbn [forallb] in Htable. apply andb_true_iff in Htable as [Hfields Htable].
  cbn [List.map cacheBranches flat_map]. fold (cacheBranches table).
  rewrite <- IH by assumption. cbn [omap list_omap].
  rewrite branchOfLine_fields by assumption.
  now destruct (lineBranch fields).
Qed.

(** X28: [getBranchList] never fails and returns its names in the order
    of their code units; without the file [cache/branch2-visible] the
    list is empty.  For a file made of a head line and then one line for
    each head, the fields of a line separated by single spaces, the list
    holds the name of every distinct pair of a name and an id that the
    lines give, once for each pair: the name of a line is its third
    field, or its second when the third is missing or empty, its id is
    the first field, and a line with no such name gives nothing. *)
Theorem Hg_getBranchList_names (h : Hg.hg) :
  Sorted (fun a b => (codeUnitCompare a b <= 0)%Z) (Hg.getBranchList h)
  /\ (Hg.readFile h (js "cache/branch2-visible") = None -> Hg.getBranchList h = [])
  /\ (forall head table,
        files (Hg.zeroPage h) !! (Hg.root h ++ js "/" ++ js "cache/branch2-visible")
        = Some (cacheFile head table) ->
        cacheb head table = true ->
        exists distinct,
          List.NoDup distinct
          /\ (forall b, In b distinct <-> In b (cacheBranches table))
          /\ Permutation (Hg.getBranchList h) (List.map Hg.name distinct)).
Proof.
  split; [apply sortNames_sorted|]. split.
  { intros Hnone. unfold Hg.getBranchList, Hg.loadBranchList. now rewrite Hnone. }
  intros head table Hfile Hcache.
  apply andb_true_iff in Hcache as [Hhead Htable].
  assert (Hlines : Forall (fun line => ~ In 10 line /\ Forall (fun c => c < 256) line)
                          (head :: List.map (join [32]) table)).
  { constructor.
    - rewrite forallb_forall in Hhead. split.
      + intros Hin. specialize (Hhead 10 Hin). now rewrite N.eqb_refl in Hhead.
      + apply List.Forall_forall. intros c Hin. specialize (Hhead c Hin).
        apply andb_true_iff in Hhead as [_ Hb]. now apply N.ltb_lt.
    - apply List.Forall_forall. intros line Hin.
      apply in_map_iff in Hin as (fields & <- & Hin).
      rewrite forallb_forall in Htable. specialize (Htable fields Hin).
      rewrite forallb_forall in Htable. split.
      + apply join_free; [intros [H|[]]; discriminate|].
        apply List.Forall_forall. intros field Hf. now apply fieldb_spec, Htable.
      + apply join_bytes; [repeat constructor|].
        apply List.Forall_forall. intros field Hf. now apply fieldb_spec, Htable. }
  assert (Hbytes : Forall (fun c => c < 256) (cacheFile head table)).
  { apply join_bytes; [repeat constructor|].
    eapply List.Forall_impl; [|exact Hlines]. cbn. tauto. }
  assert (Hload : Hg.loadBranchList h (js "cache/branch2-visible") true
                  = cacheBranches table).
  { unfold Hg.loadBranchList, Hg.readFile, zeroPage_readFile. rewrite Hfile.
    rewrite map_mod_256_bytes, arrayToString_ofBytes by assumption.
    unfold cacheFile. rewrite split_join.
    - cbn [tl]. now apply omap_lines.
    - eapply List.Forall_impl; [|exact Hlines]. cbn. tauto. }
  exists (Hg.firstOccurrences (cacheBranches table)). split; [|split].
  - apply firstOccurrences_NoDup.
  - intros b. apply firstOccurrences_In.
  - unfold Hg.getBranchList. rewrite Hload. apply sortNames_permutation.
Qed.

Lemma Hg_getBranchList_names_witness :
  Hg.getBranchList cachedHg = [js "default"; js "default"; js "new"; js "stable"]
  /\ exists distinct,
       List.NoDup distinct
       /\ (forall b, In b distinct <-> In b (cacheBranches sampleCache))
       /\ Permutation (Hg.getBranchList cachedHg) (List.map Hg.name distinct).
Proof.
  split; [vm_compute; reflexivity|].
  destruct (Hg_getBranchList_names cachedHg) as (_ & _ & Hcache).
  apply (Hcache (js "aa11 7") sampleCache); vm_compute; reflexivity.
Defined.

(** ** Relative dates *)

Lemma nearestDouble_near z :
  (z - 1 <= nearestDouble z <= z + 1)%Z
  /\ ((Z.abs z <= 2 ^ 53)%Z -> nearestDouble z = z).
Proof.
  unfold nearestDouble. destruct (Z.leb_spec (Z.abs z) (2 ^ 53)) as [Hle|Hgt].
  - split; [lia | reflexivity].
  - split; [|lia]. destruct (Z.even z); [lia|].
    destruct ((z + 1) mod 4 =? 0)%Z; lia.
Qed.

Lemma floorOfQuotient_least a b : (a / b <= floorOfQuotient a b)%Z.
Proof.
  unfold floorOfQuotient. cbv zeta.
  match goal with |- context [if ?c then _ else _] => destruct c end; lia.
Qed.

(** Below 2^53 the division of doubles, rounded down, is the integer
    quotient. *)
Lemma floorOfQuotient_exact a b :
  (0 < b <= a)%Z -> (a < 2 ^ 53)%Z -> floorOfQuotient a b = (a / b)%Z.
Proof.
  intros Hb Ha. unfold floorOfQuotient. cbv zeta.
  pose proof (Z.div_mod a b ltac:(lia)) as Hdiv.
  pose proof (Z.mod_pos_bound a b ltac:(lia)) as Hmod.
  set (q := (a / b)%Z) in *. set (r := (a mod b)%Z) in *.
  assert (Hq : (1 <= q)%Z).
  { unfold q. apply Z.div_le_lower_bound; lia. }
  replace (2 * (q + 1) - 1)%Z with (2 * q + 1)%Z by lia.
  pose proof (Z.log2_spec (2 * q + 1) ltac:(lia)) as [Hlow Hhigh].
  set (l := Z.log2 (2 * q + 1)) in *.
  assert (Hl : (1 <= l)%Z).
  { destruct (Z.le_gt_cases 1 l) as [H|H]; [exact H|].
    assert (Hl0 : (l <= 0)%Z) by lia.
    pose proof (Z.log2_nonneg (2 * q + 1)) as Hnn. fold l in Hnn.
    assert (l = 0)%Z as Hz by lia. rewrite Hz in Hhigh. cbn in Hhigh. lia. }
  set (e := (l - 1)%Z).
  assert (Hpow : (2 ^ l = 2 * 2 ^ e)%Z).
  { unfold e. rewrite <- Z.pow_succ_r by lia. f_equal. lia. }
  assert (Hpos : (0 < 2 ^ e)%Z) by (apply Z.pow_pos_nonneg; unfold e; lia).
  assert (He : (2 ^ e <= q)%Z) by lia.
  assert (Hqa : (b * q <= a)%Z) by lia.
  assert (Hbq : (q <= b * q)%Z) by nia.
  assert (He53 : (e < 53)%Z).
  { apply (Z.pow_lt_mono_r_iff 2); lia. }
  assert (Hs : (2 ^ (53 - e) * 2 ^ e = 2 ^ 53)%Z).
  { rewrite <- Z.pow_add_r by (unfold e; lia). f_equal. lia. }
  set (s := (2 ^ (53 - e))%Z) in *.
  assert (Hspos : (0 < s)%Z) by (apply Z.pow_pos_nonneg; lia).
  assert (Hbs : (b < s)%Z).
  { assert (b * 2 ^ e <= b * q)%Z by nia.
    assert (b * 2 ^ e < s * 2 ^ e)%Z by lia.
    nia. }
  destruct (Z.leb_spec (((q + 1) * s - 1) * b) (a * s)) as [Hup|Hdown]; [|reflexivity].
  exfalso.
  assert (Hrs : (r * s <= (b - 1) * s)%Z) by nia.
  rewrite Hdiv in Hup. nia.
Qed.

(** X29: for a timestamp in the range of [Date] and a clock that gives a
    time value, [formatDate] says [just now] exactly when less than a
    minute has passed, a timestamp in the future included; otherwise it
    gives a count and a unit, the count never 0 and at most 59 minutes,
    23 hours, 6 days, 4 weeks or 12 months.  The count is the elapsed
    time in the unit rounded down, for every unit but years, and for
    years as long as the interval is below 2^53 milliseconds; beyond,
    the difference of the two dates is itself rounded. *)
Theorem formatDate_ranges (timestamp now : Z) :
  (Z.abs timestamp <= 8640000000000000)%Z ->
  (Z.abs now <= 8640000000000000)%Z ->
  ((now - timestamp < 60000)%Z -> formatDate timestamp now = js "just now")
  /\ ((60000 <= now - timestamp)%Z ->
      exists count unit length,
        formatDate timestamp now
        = integerToString count ++ js " " ++ unit ++ js " ago"
        /\ (1 <= count)%Z
        /\ In (unit, length)
              [(js "minutes", 60000%Z); (js "hours", 3600000%Z);
               (js "days", 86400000%Z); (js "weeks", 604800000%Z);
               (js "months", 2592000000%Z); (js "years", 31536000000%Z)]
        /\ (unit <> js "years" -> count = ((now - timestamp) / length)%Z)
        /\ ((now - timestamp < 2 ^ 53)%Z -> count = ((now - timestamp) / length)%Z)
        /\ (unit = js "minutes" -> (count <= 59)%Z)
        /\ (unit = js "hours" -> (count <= 23)%Z)
        /\ (unit = js "days" -> (count <= 6)%Z)
        /\ (unit = js "weeks" -> (count <= 4)%Z)
        /\ (unit = js "months" -> (count <= 12)%Z)).
Proof.
  intros Hrange Hclock. unfold formatDate.
  replace (Z.abs timestamp <=? 8640000000000000)%Z with true
    by (symmetry; apply Z.leb_le; exact Hrange).
  cbv zeta. change (60 * 1000)%Z with 60000%Z. change (60 * 60000)%Z with 3600000%Z.
  change (24 * 3600000)%Z with 86400000%Z. change (7 * 86400000)%Z with 604800000%Z.
  change (30 * 86400000)%Z with 2592000000%Z. change (365 * 86400000)%Z with 31536000000%Z.
  destruct (nearestDouble_near (now - timestamp)) as [Hnear Hsame].
  change (2 ^ 53)%Z with 9007199254740992%Z in *.
  set (d := (now - timestamp)%Z) in *. set (D := nearestDouble d) in *.
  split; intros Hdiff.
  - replace (D <? 60000)%Z with true; [reflexivity|].
    symmetry. apply Z.ltb_lt.
    destruct (Z.le_gt_cases (Z.abs d) 9007199254740992) as [H|H]; [rewrite Hsame; lia | lia].
  - assert (Hlarge : (60000 <= D)%Z).
    { destruct (Z.le_gt_cases (Z.abs d) 9007199254740992) as [H|H];
        [rewrite Hsame; lia | lia]. }
    replace (D <? 60000)%Z with false by (symmetry; apply Z.ltb_ge; lia).
    assert (Hexact : forall length,
              (0 < length <= 31536000000)%Z -> (length <= D)%Z ->
              (d < 9007199254740992)%Z ->
              D = d /\ floorOfQuotient D length = (d / length)%Z).
    { intros length Hlen HD Hd.
      assert (HDd : D = d) by (apply Hsame; lia).
      split; [exact HDd|]. rewrite HDd in *.
      apply floorOfQuotient_exact; [lia | exact Hd]. }
    assert (Hbelow : forall bound, (bound <= 31536000000)%Z -> (D < bound)%Z ->
                                   (d < 9007199254740992)%Z) by (intros; lia).
    destruct (Z.ltb_spec D 3600000);
      [exists (floorOfQuotient D 60000), (js "minutes"), 60000%Z|].
    2: destruct (Z.ltb_spec D 86400000);
      [exists (floorOfQuotient D 3600000), (js "hours"), 3600000%Z|].
    3: destruct (Z.ltb_spec D 604800000);
      [exists (floorOfQuotient D 86400000), (js "days"), 86400000%Z|].
    4: destruct (Z.ltb_spec D 2592000000);
      [exists (floorOfQuotient D 604800000), (js "weeks"), 604800000%Z|].
    5: destruct (Z.ltb_spec D 31536000000);
      [exists (floorOfQuotient D 2592000000), (js "months"), 2592000000%Z
      |exists (floorOfQuotient D 31536000000), (js "years"), 31536000000%Z].
    1-5: match goal with
         | |- context [floorOfQuotient _ ?length] =>
             destruct (Hexact length ltac:(lia) ltac:(lia) ltac:(lia)) as [HDd ->];
             rewrite HDd in *
         end;
         (split; [reflexivity|]); (split; [lia|]); (split; [cbn [In]; tauto|]);
         repeat split; intros Hunit; try discriminate Hunit; try reflexivity; lia.
    split; [reflexivity|]. split.
    { pose proof (floorOfQuotient_least D 31536000000) as Hleast.
      assert (1 <= D / 31536000000)%Z by (apply Z.div_le_lower_bound; lia). lia. }
    split; [cbn [In]; tauto|]. split; [intros Hunit; now contradict Hunit|].
    split.
    { intros Hd. now destruct (Hexact 31536000000%Z ltac:(lia) ltac:(lia) Hd) as [_ ->]. }
    repeat split; intros Hunit; discriminate Hunit.
Qed.

Lemma formatDate_ranges_witness :
  formatDate 1699990000000 1700000000000 = js "2 hours ago"
  /\ exists count unit length,
       formatDate 1699990000000 1700000000000
       = integerToString count ++ js " " ++ unit ++ js " ago"
       /\ (1 <= count)%Z
       /\ In (unit, length)
             [(js "minutes", 60000%Z); (js "hours", 3600000%Z);
              (js "days", 86400000%Z); (js "weeks", 604800000%Z);
              (js "months", 2592000000%Z); (js "years", 31536000000%Z)]
       /\ (unit <> js "years" -> count = ((1700000000000 - 1699990000000) / length)%Z)
       /\ ((1700000000000 - 1699990000000 < 2 ^ 53)%Z ->
           count = ((1700000000000 - 1699990000000) / length)%Z)
       /\ (unit = js "minutes" -> (count <= 59)%Z)
       /\ (unit = js "hours" -> (count <= 23)%Z)
       /\ (unit = js "days" -> (count <= 6)%Z)
       /\ (unit = js "weeks" -> (count <= 4)%Z)
       /\ (unit = js "months" -> (count <= 12)%Z).
Proof.
  split; [vm_compute; reflexivity|].
  apply (formatDate_ranges 1699990000000 1700000000000); cbn; lia.
Defined.

(** Two valid dates more than 2^53 milliseconds apart: the interval is
    one millisecond short of 524288 years, the difference of the dates
    is rounded up to an even number of milliseconds, and the answer is
    524288 years. *)
Example formatDate_far_apart :
  ((8533946367999999 - -8000000000000000) / 31536000000 = 524287)%Z
  /\ formatDate (-8000000000000000) 8533946367999999 = js "524288 years ago".
Proof. split; vm_compute; reflexivity. Qed.

(** ** Writing and parsing a commit *)

Lemma join_split sep s : join [sep] (split sep s) = s.
Proof.
  induction s as [|c s IH]; [reflexivity|]. cbn [split].
  destruct (c =? sep) eqn:Hc.
  - apply N.eqb_eq in Hc. subst c.
    destruct (split sep s) as [|piece pieces] eqn:Hsplit;
      [now apply split_nonempty in Hsplit|].
    change (join [sep] ([] :: piece :: pieces))
      with (sep :: join [sep] (piece :: pieces)).
    now rewrite IH.
  - destruct (split sep s) as [|piece pieces] eqn:Hsplit;
      [now apply split_nonempty in Hsplit|].
    destruct pieces as [|next pieces].
    + cbn [join] in *. now rewrite IH.
    + change (join [sep] ((c :: piece) :: next :: pieces))
        with (c :: join [sep] (piece :: next :: pieces)).
      now rewrite IH.
Qed.

Lemma utf8_of_scalar_high cp x :
  x < 128 -> cp < 1114112 -> In x (utf8_of_scalar cp) -> cp = x.
Proof.
  intros Hx Hcp. unfold utf8_of_scalar.
  destruct (N.ltb_spec cp 128); [|destruct (N.ltb_spec cp 2048);
                                  [|destruct (N.ltb_spec cp 65536)]];
    cbn [In]; intros Hin; repeat (destruct Hin as [Hin|Hin]; [lia|]); destruct Hin.
Qed.

Lemma encodeUTF8_keeps_out x : forall n s,
  (length s <= n)%nat -> x < 128 ->
  Forall (fun c => c < 65536) s -> ~ In x s -> ~ In x (encodeUTF8 s).
Proof.
  induction n as [|n IH]; intros [|c rest] Hlen Hx Hs Hout; cbn [encodeUTF8];
    try (intros []); cbn [length] in Hlen; [lia|].
  inversion Hs as [|? ? Hc Hrest]; subst.
  assert (Hmark : ~ In x (utf8_of_scalar 65533))
    by (intros H; apply utf8_of_scalar_high in H; lia).
  assert (Htail : ~ In x (encodeUTF8 rest)).
  { apply (IH rest); try assumption; [lia|]. intros H. apply Hout. now right. }
  destruct (isHighSurrogate c) eqn:Hh.
  - destruct rest as [|d rest']; [exact Hmark|].
    inversion Hrest as [|? ? Hd Hrest']; subst. cbn [length] in Hlen.
    destruct (isLowSurrogate d) eqn:Hl; intros Hin; apply in_app_or in Hin as [Hin|Hin].
    + pose proof (pair_bounds c d Hh Hl) as Hb.
      apply utf8_of_scalar_high in Hin; lia.
    + revert Hin. apply (IH rest'); try assumption; [lia|].
      intros H. apply Hout. right. now right.
    + now apply Hmark.
    + now apply Htail.
  - destruct (isLowSurrogate c); intros Hin; apply in_app_or in Hin as [Hin|Hin];
      try (now apply Htail); try (now apply Hmark).
    apply utf8_of_scalar_high in Hin; [|assumption|lia]. apply Hout. left. exact Hin.
Qed.

Lemma encodeUTF8_before_ascii tl : forall n s,
  (length s <= n)%nat ->
  match tl with x :: _ => x < 128 | [] => True end ->
  encodeUTF8 (s ++ tl) = encodeUTF8 s ++ encodeUTF8 tl.
Proof.
  induction n as [|n IH]; intros [|c rest] Hlen Htl; try reflexivity;
    cbn [length] in Hlen; [lia|].
  cbn [app]. cbn [encodeUTF8]. destruct (isHighSurrogate c).
  - destruct rest as [|d rest']; cbn [app].
    + destruct tl as [|x t]; [now rewrite app_nil_r|].
      replace (isLowSurrogate x) with false; [reflexivity|].
      symmetry. unfold isLowSurrogate. apply andb_false_intro1. apply N.leb_gt. lia.
    + cbn [length] in Hlen. destruct (isLowSurrogate d).
      * rewrite IH by (assumption || lia). now rewrite app_assoc.
      * change (d :: rest' ++ tl) with ((d :: rest') ++ tl).
        rewrite IH by (assumption || cbn [length]; lia). now rewrite app_assoc.
  - destruct (isLowSurrogate c); rewrite IH by (assumption || lia);
      now rewrite app_assoc.
Qed.

Lemma asciiLine_ascii s : asciiLine s -> Forall (fun c => c < 128) s.
Proof. intros H. eapply List.Forall_impl; [|exact H]. cbn. tauto. Qed.

Lemma asciiLine_no_newline s : asciiLine s -> ~ In 10 s.
Proof.
  intros H Hin. unfold asciiLine in H. rewrite List.Forall_forall in H.
  now destruct (H 10 Hin).
Qed.

Section CommitFacts.

Variable decodeNumericText : list N -> list N.

Lemma headerLine_tree value commit :
  headerLine decodeNumericText (js "tree " ++ value) commit
  = mkCommitRecord value (cr_parents commit) (cr_author commit)
                   (cr_committer commit) (cr_message commit).
Proof.
  unfold headerLine.
  change (js "tree " ++ value) with (js "tree" ++ 32 :: value).
  rewrite split_at_separator. change (split 32 (js "tree")) with [js "tree"].
  cbn [app hd tl]. now rewrite join_split.
Qed.

Lemma headerLine_parent value commit :
  headerLine decodeNumericText (js "parent " ++ value) commit
  = mkCommitRecord (cr_tree commit) (cr_parents commit ++ [value]) (cr_author commit)
                   (cr_committer commit) (cr_message commit).
Proof.
  unfold headerLine.
  change (js "parent " ++ value) with (js "parent" ++ 32 :: value).
  rewrite split_at_separator. change (split 32 (js "parent")) with [js "parent"].
  cbn [app hd tl]. now rewrite join_split.
Qed.

Lemma headerLine_author value commit :
  headerLine decodeNumericText (js "author " ++ value) commit
  = mkCommitRecord (cr_tree commit) (cr_parents commit) (decodeUTF8String decodeNumericText value)
                   (cr_committer commit) (cr_message commit).
Proof.
  unfold headerLine.
  change (js "author " ++ value) with (js "author" ++ 32 :: value).
  rewrite split_at_separator. change (split 32 (js "author")) with [js "author"].
  cbn [app hd tl]. now rewrite join_split.
Qed.

Lemma headerLine_committer value commit :
  headerLine decodeNumericText (js "committer " ++ value) commit
  = mkCommitRecord (cr_tree commit) (cr_parents commit) (cr_author commit)
                   (decodeUTF8String decodeNumericText value) (cr_message commit).
Proof.
  unfold headerLine.
  change (js "committer " ++ value) with (js "committer" ++ 32 :: value).
  rewrite split_at_separator. change (split 32 (js "committer")) with [js "committer"].
  cbn [app hd tl]. now rewrite join_split.
Qed.

Lemma parseHeader_parents parents : forall rest i commit,
  parseHeader decodeNumericText
    (List.map (fun parent => js "parent " ++ parent) parents ++ rest) i commit
  = parseHeader decodeNumericText rest (i + length parents)
      (mkCommitRecord (cr_tree commit) (cr_parents commit ++ parents) (cr_author commit)
                      (cr_committer commit) (cr_message commit)).
Proof.
  induction parents as [|parent parents IH]; intros rest i commit.
  - cbn [List.map app length]. rewrite Nat.add_0_r, app_nil_r. now destruct commit.
  - cbn [List.map app length].
    change (js "parent " ++ parent) with (112 :: js "arent " ++ parent) at 1.
    cbn [parseHeader].
    change (112 :: js "arent " ++ parent) with (js "parent " ++ parent).
    rewrite headerLine_parent, IH. cbn [cr_tree cr_parents cr_author cr_committer cr_message].
    rewrite <- app_assoc. cbn [app]. f_equal. lia.
Qed.

End CommitFacts.

Lemma oneLine_code_units s : oneLine s -> Forall (fun c => c < 65536) s.
Proof. intros H. eapply List.Forall_impl; [|exact H]. cbn. tauto. Qed.

Lemma oneLine_no_newline s : oneLine s -> ~ In 10 s.
Proof.
  intros H Hin. unfold oneLine in H. rewrite List.Forall_forall in H.
  now destruct (H 10 Hin).
Qed.

Lemma oneLine_check s :
  forallb (fun c => (c <? 65536) && negb (c =? 10)) s = true -> oneLine s.
Proof.
  intros H. rewrite forallb_forall in H. apply List.Forall_forall. intros c Hc.
  specialize (H c Hc). apply andb_true_iff in H as [H1 H2].
  apply N.ltb_lt in H1. apply negb_true_iff, N.eqb_neq in H2. now split.
Qed.

Lemma asciiLine_check s :
  forallb (fun c => (c <? 128) && negb (c =? 10)) s = true -> asciiLine s.
Proof.
  intros H. rewrite forallb_forall in H. apply List.Forall_forall. intros c Hc.
  specialize (H c Hc). apply andb_true_iff in H as [H1 H2].
  apply N.ltb_lt in H1. apply negb_true_iff, N.eqb_neq in H2. now split.
Qed.

Lemma parentLines_ascii parents :
  Forall asciiLine parents ->
  Forall (fun c => c < 128)
         (concat (List.map (fun parent => js "parent " ++ parent ++ [10]) parents)).
Proof.
  induction 1 as [|parent parents Hp _ IH]; [constructor|].
  cbn [List.map concat]. repeat (apply Forall_app; split); try assumption.
  - apply asciiLine_ascii, asciiLine_check. reflexivity.
  - now apply asciiLine_ascii.
  - repeat constructor.
Qed.

Lemma split_parentLines parents rest :
  Forall asciiLine parents ->
  split 10 (concat (List.map (fun parent => js "parent " ++ parent ++ [10]) parents) ++ rest)
  = List.map (fun parent => js "parent " ++ parent) parents ++ split 10 rest.
Proof.
  induction 1 as [|parent parents Hp _ IH]; [reflexivity|].
  cbn [List.map concat]. rewrite <- !app_assoc.
  change (js "parent " ++ parent ++ [10] ++ ?x) with ((js "parent " ++ parent) ++ 10 :: x).
  replace (js "parent " ++ parent ++ [10]
           ++ concat (List.map (fun parent0 => js "parent " ++ parent0 ++ [10]) parents)
           ++ rest)
    with ((js "parent " ++ parent)
          ++ 10 :: (concat (List.map (fun parent0 => js "parent " ++ parent0 ++ [10]) parents)
                    ++ rest))
    by (now rewrite <- !app_assoc).
  rewrite split_at_separator, IH, split_whole; [reflexivity|].
  intros Hin. apply in_app_or in Hin as [Hin|Hin].
  - revert Hin. apply asciiLine_no_newline, asciiLine_check. reflexivity.
  - revert Hin. now apply asciiLine_no_newline.
Qed.

Section CommitRoundTrip.

Variable decodeNumericText : list N -> list N.
Variable localeCompare : list N -> list N -> Z.

Lemma parseHeader_cons line rest i commit :
  line <> [] ->
  parseHeader decodeNumericText (line :: rest) i commit
  = parseHeader decodeNumericText rest (S i) (headerLine decodeNumericText line commit).
Proof. destruct line; [congruence | reflexivity]. Qed.

Lemma commit_bytes treeId commit :
  asciiLine treeId -> Forall asciiLine (c_parents commit) ->
  oneLine (c_author commit) -> oneLine (c_committer commit) ->
  encodeUTF8 (commitText treeId commit)
  = (js "tree " ++ treeId)
    ++ 10 :: (concat (List.map (fun parent => js "parent " ++ parent ++ [10])
                               (c_parents commit))
              ++ (js "author " ++ encodeUTF8 (c_author commit))
              ++ 10 :: (js "committer " ++ encodeUTF8 (c_committer commit))
              ++ 10 :: 10 :: encodeUTF8 (c_message commit)).
Proof.
  intros Htree Hparents Hauthor Hcommitter. unfold commitText.
  rewrite encodeUTF8_ascii_app by (apply asciiLine_ascii, asciiLine_check; reflexivity).
  rewrite encodeUTF8_ascii_app by (now apply asciiLine_ascii).
  rewrite (encodeUTF8_ascii_app [10]) by (repeat constructor).
  rewrite encodeUTF8_ascii_app by (now apply parentLines_ascii).
  rewrite encodeUTF8_ascii_app by (apply asciiLine_ascii, asciiLine_check; reflexivity).
  change (c_author commit ++ [10] ++ ?x) with (c_author commit ++ 10 :: x).
  rewrite (encodeUTF8_before_ascii _ (length (c_author commit))) by (reflexivity || lia).
  change (10 :: js "committer " ++ ?x) with ((10 :: js "committer ") ++ x).
  rewrite (encodeUTF8_ascii_app (10 :: js "committer "))
    by (repeat constructor; lia).
  change (c_committer commit ++ [10; 10] ++ ?x) with (c_committer commit ++ 10 :: 10 :: x).
  rewrite (encodeUTF8_before_ascii _ (length (c_committer commit)))
    by (reflexivity || lia).
  change (10 :: 10 :: c_message commit) with ([10; 10] ++ c_message commit).
  rewrite (encodeUTF8_ascii_app [10; 10]) by (repeat constructor).
  rewrite <- !app_assoc. reflexivity.
Qed.

Lemma commit_lines treeId commit :
  asciiLine treeId -> Forall asciiLine (c_parents commit) ->
  oneLine (c_author commit) -> oneLine (c_committer commit) ->
  split 10 (encodeUTF8 (commitText treeId commit))
  = (js "tree " ++ treeId)
    :: List.map (fun parent => js "parent " ++ parent) (c_parents commit)
    ++ (js "author " ++ encodeUTF8 (c_author commit))
    :: (js "committer " ++ encodeUTF8 (c_committer commit))
    :: [] :: split 10 (encodeUTF8 (c_message commit)).
Proof.
  intros Htree Hparents Hauthor Hcommitter.
  rewrite commit_bytes by assumption.
  assert (Hkeep : forall s, oneLine s -> ~ In 10 (encodeUTF8 s)).
  { intros s Hs. apply (encodeUTF8_keeps_out 10 (length s)); try reflexivity.
    - now apply oneLine_code_units.
    - now apply oneLine_no_newline. }
  assert (Hword : forall word s, asciiLine (js word) -> ~ In 10 s ->
                                 split 10 (js word ++ s) = [js word ++ s]).
  { intros word s Hw Hs. apply split_whole. intros Hin.
    apply in_app_or in Hin as [Hin|Hin]; [|now apply Hs].
    revert Hin. now apply asciiLine_no_newline. }
  rewrite split_at_separator.
  rewrite Hword; [|apply asciiLine_check; reflexivity|now apply asciiLine_no_newline].
  rewrite split_parentLines by assumption.
  rewrite split_at_separator.
  rewrite Hword; [|apply asciiLine_check; reflexivity|now apply Hkeep].
  rewrite split_at_separator.
  rewrite Hword; [|apply asciiLine_check; reflexivity|now apply Hkeep].
  reflexivity.
Qed.

Lemma commitText_code_units treeId commit :
  asciiLine treeId -> Forall asciiLine (c_parents commit) ->
  oneLine (c_author commit) -> oneLine (c_committer commit) ->
  Forall (fun c => c < 65536) (c_message commit) ->
  Forall (fun c => c < 65536) (commitText treeId commit).
Proof.
  intros Htree Hparents Hauthor Hcommitter Hmessage.
  assert (Hascii : forall s, asciiLine s -> Forall (fun c => c < 65536) s).
  { intros s Hs. eapply List.Forall_impl; [|exact Hs]. cbn. intros; lia. }
  unfold commitText. repeat (apply Forall_app; split);
    try (apply Hascii, asciiLine_check; reflexivity);
    try (now apply Hascii); try (now apply oneLine_code_units);
    try assumption; try (repeat constructor; lia).
  eapply List.Forall_impl; [|apply parentLines_ascii; exact Hparents].
  cbn. intros; lia.
Qed.

Lemma parseCommit_commitText treeId commit ty oid :
  asciiLine treeId -> Forall asciiLine (c_parents commit) ->
  oneLine (c_author commit) -> oneLine (c_committer commit) ->
  Forall (fun c => c < 65536) (c_message commit) ->
  parseCommit decodeNumericText
    (mkObject ty (Arr (ofBytes (encodeUTF8 (commitText treeId commit)))) oid)
  = mkCommitRecord treeId (c_parents commit)
      (decodeUTF8String decodeNumericText (encodeUTF8 (c_author commit)))
      (decodeUTF8String decodeNumericText (encodeUTF8 (c_committer commit)))
      (decodeUTF8String decodeNumericText (encodeUTF8 (c_message commit))).
Proof.
  intros Htree Hparents Hauthor Hcommitter Hmessage.
  pose proof (commitText_code_units treeId commit Htree Hparents Hauthor Hcommitter
                Hmessage) as Htext.
  unfold parseCommit. cbn [obj_content contentText].
  rewrite arrayToString_ofBytes
    by (eapply encodeUTF8_code_units; [reflexivity | exact Htext]).
  rewrite commit_lines by assumption.
  rewrite parseHeader_cons, headerLine_tree by discriminate.
  rewrite parseHeader_parents.
  rewrite parseHeader_cons, headerLine_author by discriminate.
  rewrite parseHeader_cons, headerLine_committer by discriminate.
  cbn [parseHeader fst snd cr_tree cr_parents cr_author cr_committer cr_message app].
  f_equal.
  replace (S (S (S (1 + length (c_parents commit)))))
    with (S (length (List.map (fun parent => js "parent " ++ parent) (c_parents commit))
             + 3))%nat by (rewrite length_map; lia).
  cbn [skipn]. rewrite List.skipn_app, List.skipn_all2 by lia.
  replace (length (List.map (fun parent => js "parent " ++ parent) (c_parents commit)) + 3
           - length (List.map (fun parent => js "parent " ++ parent) (c_parents commit)))%nat
    with 3%nat by lia.
  cbn [app skipn]. rewrite ?List.skipn_O. now rewrite join_split.
Qed.

End CommitRoundTrip.

Lemma utf8_of_scalar_lead cp :
  128 <= cp < 1114112 -> readsAsNoNumber (utf8_of_scalar cp) = true.
Proof.
  intros Hcp. unfold utf8_of_scalar.
  assert (Hlead : forall b rest, 192 <= b < 256 -> readsAsNoNumber (b :: rest) = true).
  { intros b rest Hb. unfold readsAsNoNumber. cbn [existsb].
    replace (numericChar b) with false; [reflexivity|].
    symmetry. unfold numericChar, isWhiteSpace.
    repeat (apply orb_false_intro);
      try (apply N.eqb_neq; lia);
      try (apply andb_false_intro1; apply N.leb_gt; lia);
      try (apply andb_false_intro2; apply N.leb_gt; lia). }
  destruct (N.ltb_spec cp 128); [lia|].
  destruct (N.ltb_spec cp 2048); [apply Hlead; lia|].
  destruct (N.ltb_spec cp 65536); apply Hlead; lia.
Qed.

(** A text with a code unit that no numeric literal has keeps such a
    code unit among its UTF-8 bytes. *)
Lemma encodeUTF8_readsAsNoNumber : forall n s,
  (length s <= n)%nat -> Forall (fun c => c < 65536) s ->
  readsAsNoNumber s = true -> readsAsNoNumber (encodeUTF8 s) = true.
Proof.
  assert (Happ : forall a b, readsAsNoNumber a = true -> readsAsNoNumber (a ++ b) = true).
  { intros a b Ha. unfold readsAsNoNumber in *. rewrite existsb_app, Ha. reflexivity. }
  assert (Hmark : readsAsNoNumber (utf8_of_scalar 65533) = true) by reflexivity.
  induction n as [|n IH]; intros [|c rest] Hlen Hs Hno; try discriminate Hno;
    cbn [length] in Hlen; [lia|].
  inversion Hs as [|? ? Hc Hrest]; subst. cbn [encodeUTF8].
  destruct (isHighSurrogate c) eqn:Hh.
  - destruct rest as [|d rest']; [exact Hmark|].
    inversion Hrest as [|? ? Hd Hrest']; subst.
    destruct (isLowSurrogate d) eqn:Hl; apply Happ; [|exact Hmark].
    apply utf8_of_scalar_lead. pose proof (pair_bounds c d Hh Hl). lia.
  - destruct (isLowSurrogate c); [now apply Happ|].
    destruct (N.ltb_spec c 128) as [Hascii|Hwide].
    + unfold utf8_of_scalar. replace (c <? 128) with true by (symmetry; now apply N.ltb_lt).
      unfold readsAsNoNumber in *. cbn [app existsb] in *.
      apply orb_true_iff in Hno as [Hno|Hno]; [now rewrite Hno|].
      apply orb_true_iff. right. apply (IH rest); [lia | assumption | exact Hno].
    + apply Happ, utf8_of_scalar_lead. lia.
Qed.

Lemma decodeUTF8String_no_number decodeNumericText text :
  readsAsNoNumber text = true -> decodeUTF8String decodeNumericText text = [].
Proof.
  intros Hno. unfold decodeUTF8String.
  destruct (forallb isWhiteSpace text); [reflexivity|].
  replace (forallb numericChar text) with false; [reflexivity|].
  symmetry. apply not_true_is_false. intros Hall.
  unfold readsAsNoNumber in Hno. apply existsb_exists in Hno as (c & Hc & Hno).
  rewrite forallb_forall in Hall. rewrite (Hall c Hc) in Hno. discriminate.
Qed.


